(** * rss-agent-discovery: the feed discovery pipeline of [find-rss-feeds.ts]

    A shallow embedding of the command line parser, the blog section
    heuristic, the candidate resolver, the feed validator, the site scanner,
    the per-URL coordinator and the report/exit-code aggregation, followed by
    the properties of each.

    Conventions of the embedding.
    - JavaScript strings are [string] (byte strings); [toLowerCase],
      [trim] and the white space that [parseInt] skips act on the ASCII
      range, so that the embedding is that of the program on ASCII text.
    - A Number that holds an integer is a [Z]; [parseInt] rounds the
      integer that the digits spell to the nearest double ([toNumber]).
    - The HTML query library (cheerio) and the platform URL parser
      ([new URL(input, base)]) are not part of the repository: they are the
      fields of the record [Platform], which the pipeline takes as a
      parameter; the examples instantiate it with a small page table and a
      small resolver. An exception that cheerio raises while the section
      heuristic reads the anchors of a page is the field [anchorsFault].
    - [Set<string>] used only for membership is a [gset string]; the
      insertion-ordered [Map]/[Set] values whose iteration order reaches the
      output are lists.
    - The network is an oracle with a latency per URL; the per-URL abort
      signal is a deadline on a logical clock threaded through the scans.
      Request headers do not influence the oracle.
    - Lines written to stderr and the texts printed for [--help] and
      [--version] are not modelled; stdout is the report.
    - [main] is taken together with the handlers of the top-level block
      that runs it: it gives what the process writes to stdout and the
      code with which the process exits. *)

From stdpp Require Import base strings list gmap pretty.
From Stdlib Require Import ZArith Lia Ascii.

Open Scope string_scope.
Open Scope list_scope.

(** ** JavaScript string primitives *)

Module JS.

(** [s.startsWith(p)] *)
Definition startsWith (s p : string) : bool := String.prefix p s.

(** [s.includes(needle)] *)
Fixpoint includes (s needle : string) : bool :=
  String.prefix needle s
  || match s with
     | EmptyString => false
     | String _ rest => includes rest needle
     end.

(** White space removed by [trim]/[trimStart] in the ASCII range:
    TAB, LF, VT, FF, CR and SPACE. *)
Definition isSpace (c : ascii) : bool :=
  let n := nat_of_ascii c in
  ((9 <=? n)%nat && (n <=? 13)%nat) || (n =? 32)%nat.

Fixpoint trimStart (s : string) : string :=
  match s with
  | EmptyString => EmptyString
  | String c rest => if isSpace c then trimStart rest else s
  end.

Fixpoint trimEnd (s : string) : string :=
  match s with
  | EmptyString => EmptyString
  | String c rest =>
      match trimEnd rest with
      | EmptyString => if isSpace c then EmptyString else String c EmptyString
      | kept => String c kept
      end
  end.

Definition trim (s : string) : string := trimStart (trimEnd s).

Definition lowerChar (c : ascii) : ascii :=
  let n := nat_of_ascii c in
  if ((65 <=? n)%nat && (n <=? 90)%nat) then ascii_of_nat (n + 32) else c.

Fixpoint toLowerCase (s : string) : string :=
  match s with
  | EmptyString => EmptyString
  | String c rest => String (lowerChar c) (toLowerCase rest)
  end.

(** The truthiness of a string: [""] is falsy. *)
Definition truthy (s : string) : bool :=
  match s with EmptyString => false | _ => true end.

(** [s.split(sep)] for a separator class [sep]: the pieces between the
    separators, in order; the result always has at least one piece. *)
Fixpoint splitBy (sep : ascii -> bool) (s : string) : list string :=
  match s with
  | EmptyString => [EmptyString]
  | String c rest =>
      if sep c then EmptyString :: splitBy sep rest
      else
        match splitBy sep rest with
        | piece :: pieces => String c piece :: pieces
        | [] => [String c EmptyString]
        end
  end.

Definition split (s : string) (sep : ascii) : list string :=
  splitBy (Ascii.eqb sep) s.

(** [xs.filter(Boolean)] on an array of strings. *)
Definition filterBoolean (xs : list string) : list string :=
  List.filter truthy xs.

(** [xs.pop()] read as "the last element, if any". *)
Definition pop (xs : list string) : option string := last xs.

(** [xs.includes(x)] on an array of strings. *)
Definition arrayIncludes (xs : list string) (x : string) : bool :=
  existsb (String.eqb x) xs.

(** [xs.slice(0, n)] for a count [n] that is not negative. *)
Definition slice0 {A} (xs : list A) (n : Z) : list A :=
  take (Z.to_nat n) xs.

(** [allChars f s]: every character of [s] satisfies [f]. *)
Fixpoint allChars (f : ascii -> bool) (s : string) : bool :=
  match s with
  | EmptyString => true
  | String c rest => f c && allChars f rest
  end.

End JS.

(** [contains s needle]: [needle] occurs in [s] as a contiguous run. *)
Definition contains (s needle : string) : Prop :=
  exists before after, s = before +:+ needle +:+ after.

(** ** Feed validation (the test inlined in [scanURLForFeeds]) *)

Definition validateFeed (text contentType : string) : bool :=
  let hasXmlDeclaration :=
    JS.startsWith (JS.trimStart text) "<?xml" || JS.includes text "<?xml" in
  let hasXmlContentType :=
    JS.includes contentType "xml" || JS.includes contentType "rss"
    || JS.includes contentType "atom" in
  let hasRssOrFeed := JS.includes text "<rss" || JS.includes text "<feed" in
  let isHtml := JS.includes contentType "text/html" in
  hasRssOrFeed && (hasXmlDeclaration || hasXmlContentType) && negb isHtml.

(** The double quote character, for texts that carry one. *)
Definition dquote : string := String (ascii_of_nat 34) EmptyString.

(** ** Data model *)

Inductive FeedType := rss | atom | unknown.

Record FeedResult := {
  feed_url : string;
  feed_title : string;
  feed_type : FeedType
}.

Record ScanResult := {
  html : option string;
  scan_feeds : list FeedResult
}.

Record DiscoveredResult := {
  url : string;
  feeds : list FeedResult;
  error : option string
}.

Record CLIOptions := {
  help : bool;
  version : bool;
  verbose : bool;
  skipBlogs : bool;
  maxBlogs : Z;
  customBlogPaths : option (list string);
  timeout : Z
}.

(** The initial value of the process-wide [cliOptions] object. *)
Definition cliOptions : CLIOptions := {|
  help := false;
  version := false;
  verbose := false;
  skipBlogs := false;
  maxBlogs := 5;
  customBlogPaths := None;
  timeout := 10000
|}.

Definition BLOG_KEYWORDS : list string := [
  "blog"; "news"; "articles"; "posts"; "updates";
  "journal"; "insights"; "stories"; "press"; "medium";
  "substack"; "the-edge"; "engineering-blog"; "dev";
  "engineering"; "developers"; "community"
].

Definition COMMON_BLOG_PATHS : list string := [
  "/blog"; "/news"; "/articles"; "/posts"; "/updates"; "/journal";
  "/insights"; "/stories"; "/press"; "/medium"; "/substack"; "/the-edge";
  "/engineering-blog"; "/engineering"; "/developers"; "/dev"; "/community"
].

(** Thrown values: [Error] (and its subclasses) and [DOMException]. *)
Inductive Exn :=
| Error (message : string)
| DOMException (name message : string).

Definition message (e : Exn) : string :=
  match e with
  | Error m => m
  | DOMException _ m => m
  end.

(** ** Command line parsing *)

(** [Infinity], kept as the least integer that is beyond every finite
    double. The program tests a Number of the command line for [<= 0],
    passes it to [AbortSignal.timeout], which refuses every value above
    2^32 - 1, and to [slice] as an end index beyond the array. *)
Definition Infinity : Z := (2 ^ 1024)%Z.

(** The Number value of an integer that is not negative: the nearest
    double, the even significand on a tie, and [Infinity] from
    2^1024 - 2^970 on. Integers up to 2^53 are kept as they are. *)
Definition toNumber (z : Z) : Z :=
  let bits := (Z.log2 z + 1)%Z in
  if (bits <=? 53)%Z then z
  else
    let shift := (bits - 53)%Z in
    let significand := Z.shiftr z shift in
    let rest := Z.land z (Z.ones shift) in
    let half := Z.shiftl 1 (shift - 1) in
    let rounded :=
      if (rest <? half)%Z then significand
      else if (half <? rest)%Z then (significand + 1)%Z
      else if Z.even significand then significand
      else (significand + 1)%Z in
    Z.min (Z.shiftl rounded shift) Infinity.

(** [parseInt(s, 10)]; [None] stands for [NaN]. *)
Definition digitValue (c : ascii) : option Z :=
  let n := nat_of_ascii c in
  if ((48 <=? n)%nat && (n <=? 57)%nat) then Some (Z.of_nat (n - 48)) else None.

Fixpoint readDigits (s : string) (acc : option Z) : option Z :=
  match s with
  | EmptyString => acc
  | String c rest =>
      match digitValue c with
      | Some d => readDigits rest (Some (10 * default 0 acc + d)%Z)
      | None => acc
      end
  end.

Definition parseInt (s : string) : option Z :=
  match JS.trimStart s with
  | String "-"%char rest => Z.opp <$> (toNumber <$> readDigits rest None)
  | String "+"%char rest => toNumber <$> readDigits rest None
  | digits => toNumber <$> readDigits digits None
  end.

Definition setHelp (o : CLIOptions) : CLIOptions :=
  {| help := true; version := version o; verbose := verbose o;
     skipBlogs := skipBlogs o; maxBlogs := maxBlogs o;
     customBlogPaths := customBlogPaths o; timeout := timeout o |}.

Definition setVersion (o : CLIOptions) : CLIOptions :=
  {| help := help o; version := true; verbose := verbose o;
     skipBlogs := skipBlogs o; maxBlogs := maxBlogs o;
     customBlogPaths := customBlogPaths o; timeout := timeout o |}.

Definition setVerbose (o : CLIOptions) : CLIOptions :=
  {| help := help o; version := version o; verbose := true;
     skipBlogs := skipBlogs o; maxBlogs := maxBlogs o;
     customBlogPaths := customBlogPaths o; timeout := timeout o |}.

Definition setSkipBlogs (o : CLIOptions) : CLIOptions :=
  {| help := help o; version := version o; verbose := verbose o;
     skipBlogs := true; maxBlogs := maxBlogs o;
     customBlogPaths := customBlogPaths o; timeout := timeout o |}.

Definition setMaxBlogs (value : Z) (o : CLIOptions) : CLIOptions :=
  {| help := help o; version := version o; verbose := verbose o;
     skipBlogs := skipBlogs o; maxBlogs := value;
     customBlogPaths := customBlogPaths o; timeout := timeout o |}.

Definition setCustomBlogPaths (paths : list string) (o : CLIOptions)
  : CLIOptions :=
  {| help := help o; version := version o; verbose := verbose o;
     skipBlogs := skipBlogs o; maxBlogs := maxBlogs o;
     customBlogPaths := Some paths; timeout := timeout o |}.

Definition setTimeout (value : Z) (o : CLIOptions) : CLIOptions :=
  {| help := help o; version := version o; verbose := verbose o;
     skipBlogs := skipBlogs o; maxBlogs := maxBlogs o;
     customBlogPaths := customBlogPaths o; timeout := value |}.

(** The separator class of [/[,|]/]. *)
Definition commaOrPipe (c : ascii) : bool :=
  Ascii.eqb c ","%char || Ascii.eqb c "|"%char.

Definition isHttpUrl (arg : string) : bool :=
  JS.startsWith arg "http://" || JS.startsWith arg "https://".

(** The loop of [parseArgs]: [urls] is the array built so far, the options
    object is threaded through and is returned as mutated so far also when
    the loop throws. Reading [args[++i]] is the nested match on [rest]. *)
Fixpoint parseArgsFrom (args : list string) (urls : list string)
    (o : CLIOptions) : (Exn + list string) * CLIOptions :=
  match args with
  | [] => (inr urls, o)
  | arg :: rest =>
      if String.eqb arg "--help" || String.eqb arg "-h" then
        parseArgsFrom rest urls (setHelp o)
      else if String.eqb arg "--version" || String.eqb arg "-V" then
        parseArgsFrom rest urls (setVersion o)
      else if String.eqb arg "--verbose" || String.eqb arg "-v" then
        parseArgsFrom rest urls (setVerbose o)
      else if String.eqb arg "--no-blogs" || String.eqb arg "--skip-blogs" then
        parseArgsFrom rest urls (setSkipBlogs o)
      else if String.eqb arg "--max-blogs" then
        match rest with
        | [] => (inl (Error "--max-blogs requires a value"), o)
        | raw :: rest' =>
            match parseInt raw with
            | Some value =>
                if (value <=? 0)%Z then
                  (inl (Error ("--max-blogs requires a positive number, got: "
                               +:+ raw)), o)
                else parseArgsFrom rest' urls (setMaxBlogs value o)
            | None =>
                (inl (Error ("--max-blogs requires a positive number, got: "
                             +:+ raw)), o)
            end
        end
      else if String.eqb arg "--blog-paths" then
        match rest with
        | [] => (inl (Error "--blog-paths requires a value"), o)
        | raw :: rest' =>
            if negb (JS.truthy (JS.trim raw)) then
              (inl (Error "--blog-paths requires a value"), o)
            else
              parseArgsFrom rest' urls
                (setCustomBlogPaths
                   (JS.filterBoolean (map JS.trim (JS.splitBy commaOrPipe raw)))
                   o)
        end
      else if String.eqb arg "--timeout" then
        match rest with
        | [] => (inl (Error "--timeout requires a value"), o)
        | raw :: rest' =>
            match parseInt raw with
            | Some value =>
                if (value <=? 0)%Z then
                  (inl (Error ("--timeout requires a positive number, got: "
                               +:+ raw)), o)
                else parseArgsFrom rest' urls (setTimeout value o)
            | None =>
                (inl (Error ("--timeout requires a positive number, got: "
                             +:+ raw)), o)
            end
        end
      else if isHttpUrl arg then
        parseArgsFrom rest (urls ++ [arg]) o
      else
        parseArgsFrom rest urls o
  end.

Definition parseArgs (args : list string) (o : CLIOptions)
  : (Exn + list string) * CLIOptions :=
  parseArgsFrom args [] o.

(** Vocabulary for statements about [parseArgs]: the options that read the
    next token as their value, the options that stand alone, and the
    tokens of an argument list that are not read as such a value. *)
Definition takesValue (arg : string) : bool :=
  String.eqb arg "--max-blogs" || String.eqb arg "--blog-paths"
  || String.eqb arg "--timeout".

Definition isFlag (arg : string) : bool :=
  JS.arrayIncludes
    ["--help"; "-h"; "--version"; "-V"; "--verbose"; "-v"; "--no-blogs";
     "--skip-blogs"] arg.

Fixpoint unconsumed (args : list string) : list string :=
  match args with
  | [] => []
  | arg :: rest =>
      if takesValue arg then
        match rest with
        | [] => [arg]
        | _ :: rest' => arg :: unconsumed rest'
        end
      else arg :: unconsumed rest
  end.

(** ** The platform: HTML queries and URL resolution *)

(** An element matched by [$('a[href]')]: its [href] attribute and its
    text content. *)
Record Anchor := {
  a_href : string;
  a_text : string
}.

(** An element matched by [$('link[rel="alternate"]')] with the three
    attributes the scanner reads; [None] is an absent attribute. *)
Record LinkElement := {
  l_type : option string;
  l_href : option string;
  l_title : option string
}.

(** The fields of a parsed [URL] object that the code reads. *)
Record URL := {
  u_href : string;
  origin : string;
  pathname : string
}.

(** [newURL input base] is [new URL(input, base)] ([base = None] for the
    one-argument form); [None] is the [TypeError] of an unparsable input.
    [anchorsOf] lists the elements that [extractBlogLinksFromHTML] reads
    from a page; [anchorsFault] is the exception, if any, that cheerio
    raises instead while that function queries the anchors of the page and
    reads their attribute and text ([$('a[href]').each], [attr], [text]);
    it is raised outside every [try] of that function. *)
Record Platform := {
  anchorsOf : string -> list Anchor;
  anchorsFault : string -> option Exn;
  alternateLinksOf : string -> list LinkElement;
  newURL : string -> option string -> option URL
}.

(** ** Insertion-ordered [Map<string, V>] and [Set<string>] *)

Definition mapHas {V} (m : list (string * V)) (k : string) : bool :=
  existsb (fun kv => String.eqb k kv.1) m.

(** [m.set(k, v)]: the value of an existing key is replaced where it
    stands, a new key goes last. *)
Fixpoint mapSet {V} (m : list (string * V)) (k : string) (v : V)
  : list (string * V) :=
  match m with
  | [] => [(k, v)]
  | (k', v') :: rest =>
      if String.eqb k k' then (k, v) :: rest else (k', v') :: mapSet rest k v
  end.

Definition mapValues {V} (m : list (string * V)) : list V := map snd m.

(** [if (!m.has(k)) m.set(k, v)] for an entry [c = (k, v)]. *)
Definition insertAbsent {V} (m : list (string * V)) (c : string * V)
  : list (string * V) :=
  if negb (mapHas m c.1) then mapSet m c.1 c.2 else m.

(** The value of the first entry of a list under key [k]. *)
Definition firstFor {V} (k : string) (l : list (string * V)) : option V :=
  snd <$> List.find (fun kv => String.eqb k kv.1) l.

(** A list of strings without the repeats of its entries: the first
    occurrence of each is kept, in order. *)
Fixpoint firstOccurrences (xs : list string) : list string :=
  match xs with
  | [] => []
  | x :: rest =>
      x :: List.filter (fun y => negb (String.eqb y x)) (firstOccurrences rest)
  end.

(** [s.add(x)] on an insertion-ordered set. *)
Definition setAdd (s : list string) (x : string) : list string :=
  if JS.arrayIncludes s x then s else s ++ [x].

(** ** Blog section heuristic *)

Record Link := {
  text : string;
  path : string;
  href : string
}.

Section Pipeline.

Context (P : Platform).

(** The callback of [$('a[href]').each]: [None] when nothing is pushed. *)
Definition sameOriginLink (baseUrl : string) (el : Anchor) : option Link :=
  let text := JS.trim (JS.toLowerCase (a_text el)) in
  if JS.truthy (a_href el) then
    match newURL P (a_href el) (Some baseUrl) with
    | Some u =>
        match newURL P baseUrl None with
        | Some b =>
            if String.eqb (origin u) (origin b) then
              Some {| text := text; path := pathname u; href := u_href u |}
            else None
        | None => None
        end
    | None => None
    end
  else None.

Definition linkTextAndUrls (html baseUrl : string) : list Link :=
  omap (sameOriginLink baseUrl) (anchorsOf P html).

Definition foundKeyword (link : Link) : option string :=
  let lowerPath := JS.toLowerCase (path link) in
  List.find (fun keyword =>
               JS.includes (text link) keyword || JS.includes lowerPath keyword)
            BLOG_KEYWORDS.

(** The segments of a path: [p.split('/').filter(Boolean)]. *)
Definition segments (p : string) : list string :=
  JS.filterBoolean (JS.split p "/"%char).

(** The section root [/] + first segment of a path with one to three
    segments. *)
Definition sectionRoot (p : string) : option string :=
  if JS.startsWith p "/" && negb (String.eqb p "/") then
    let parts := segments p in
    if ((1 <=? length parts)%nat && (length parts <=? 3)%nat) then
      match parts with
      | first :: _ => Some ("/" +:+ first)
      | [] => None
      end
    else None
  else None.

(** One iteration of the loop over [linkTextAndUrls]; the state is
    [(blogPaths, seenPaths)]. *)
Definition visitLink (st : list string * gset string) (link : Link)
  : list string * gset string :=
  let '(blogPaths, seenPaths) := st in
  if bool_decide (path link ∈ seenPaths) then st
  else
    match foundKeyword link with
    | Some keyword =>
        if JS.truthy keyword then
          match sectionRoot (path link) with
          | Some blogPath =>
              if negb (bool_decide (blogPath ∈ seenPaths)) then
                (setAdd blogPaths blogPath,
                 {[ path link ]} ∪ ({[ blogPath ]} ∪ seenPaths))
              else st
          | None => st
          end
        else st
    | None => st
    end.

(** The loop invariant: every path marked as seen has a section root, and
    that root is among the roots found. *)
Definition seenCovered (st : list string * gset string) : Prop :=
  forall q, q ∈ st.2 -> exists root, sectionRoot q = Some root /\ root ∈ st.1.

(** The array that [extractBlogLinksFromHTML] returns; on a page with an
    [anchorsFault] the call throws instead (see [heuristicFault]). *)
Definition extractBlogLinksFromHTML (html baseUrl : string) : list string :=
  (foldl visitLink ([], ∅) (linkTextAndUrls html baseUrl)).1.

(** [blogPaths.push(path)] unless [blogPaths.includes(path)]. *)
Definition pushNew (blogPaths : list string) (p : string) : list string :=
  if negb (JS.arrayIncludes blogPaths p) then blogPaths ++ [p] else blogPaths.

(** What [discoverBlogSubdirectories(baseUrl, html)] throws, if anything:
    the exception of [extractBlogLinksFromHTML], which is called for a
    truthy [html] only. *)
Definition heuristicFault (html : option string) : option Exn :=
  match html with
  | Some h => if JS.truthy h then anchorsFault P h else None
  | None => None
  end.

(** The array that [discoverBlogSubdirectories] returns when it does not
    throw. *)
Definition discoverBlogSubdirectories (o : CLIOptions) (baseUrl : string)
    (html : option string) : list string :=
  let blogPaths :=
    match html with
    | Some h => if JS.truthy h then extractBlogLinksFromHTML h baseUrl else []
    | None => []
    end in
  let blogPaths :=
    if (length blogPaths =? 0)%nat || bool_decide (is_Some (customBlogPaths o))
    then
      let pathsToUse :=
        match customBlogPaths o with
        | Some custom => custom
        | None => COMMON_BLOG_PATHS
        end in
      foldl pushNew blogPaths pathsToUse
    else blogPaths in
  JS.slice0 blogPaths (maxBlogs o).

(** ** Candidate resolution (the two passes that fill [discoveredFeeds]) *)

Definition commonPaths : list string := [
  "rss.xml"; "feed.xml"; "rss"; "atom"; "atom.xml"; "index.xml";
  "feeds/rss.xml"; "feed"; "rss/feed.xml"
].

Definition orDefault (s : option string) (dflt : string) : string :=
  match s with
  | Some v => if JS.truthy v then v else dflt
  | None => dflt
  end.

(** What one [link[rel="alternate"]] element proposes, if anything. *)
Definition declaredCandidate (pageUrl : string) (el : LinkElement)
  : option (string * FeedResult) :=
  match l_type el with
  | Some type =>
      if JS.truthy type
         && (JS.includes type "rss+xml" || JS.includes type "atom+xml")
      then
        let title := orDefault (l_title el) "RSS Feed" in
        match l_href el with
        | Some href =>
            if JS.truthy href then
              match newURL P href (Some pageUrl) with
              | Some u =>
                  let fullHref := u_href u in
                  let feedType := if JS.includes type "atom" then atom else rss in
                  Some (fullHref,
                        {| feed_url := fullHref; feed_title := title;
                           feed_type := feedType |})
              | None => None
              end
            else None
        | None => None
        end
      else None
  | None => None
  end.

(** What one conventional path proposes, if it resolves. *)
Definition commonCandidate (pageUrl : string) (p : string)
  : option (string * FeedResult) :=
  match newURL P p (Some pageUrl) with
  | Some u =>
      let candidateUrl := u_href u in
      let type := if JS.includes p "atom" then atom else rss in
      Some (candidateUrl,
            {| feed_url := candidateUrl;
               feed_title :=
                 orDefault (JS.pop (JS.split candidateUrl "/"%char)) "RSS Feed";
               feed_type := type |})
  | None => None
  end.

(** [if (!discoveredFeeds.has(k)) discoveredFeeds.set(k, v)] *)
Definition setIfAbsent (m : list (string * FeedResult))
    (c : option (string * FeedResult)) : list (string * FeedResult) :=
  match c with
  | Some (k, v) => if negb (mapHas m k) then mapSet m k v else m
  | None => m
  end.

Definition declaredPass (html pageUrl : string) (m : list (string * FeedResult))
  : list (string * FeedResult) :=
  foldl (fun m el => setIfAbsent m (declaredCandidate pageUrl el))
        m (alternateLinksOf P html).

Definition commonPass (pageUrl : string) (m : list (string * FeedResult))
  : list (string * FeedResult) :=
  foldl (fun m p => setIfAbsent m (commonCandidate pageUrl p)) m commonPaths.

Definition discoveredFeeds (html pageUrl : string)
  : list (string * FeedResult) :=
  commonPass pageUrl (declaredPass html pageUrl []).

(** Vocabulary for statements about the candidate map: every proposal of
    the two passes in the order in which it is made, and the value of the
    first proposal under a key. *)
Definition proposals (html pageUrl : string) : list (string * FeedResult) :=
  omap (declaredCandidate pageUrl) (alternateLinksOf P html)
  ++ omap (commonCandidate pageUrl) commonPaths.

(** Vocabulary for statements about [discoverBlogSubdirectories]: the roots
    that the heuristic contributes, and a list without its repeats. *)
Definition heuristicRoots (baseUrl : string) (html : option string)
  : list string :=
  match html with
  | Some h => if JS.truthy h then extractBlogLinksFromHTML h baseUrl else []
  | None => []
  end.

End Pipeline.

(** ** The network under a deadline *)

Record Response := {
  ok : bool;
  status : Z;
  contentTypeHeader : option string;
  body : string
}.

Inductive Reply :=
| Rejects (e : Exn)
| Responds (res : Response).

(** What a request to a URL ends in once its body is read, and how long
    that takes (in milliseconds of the logical clock). *)
Record Network := {
  reply : string -> Reply;
  latency : string -> nat
}.

(** An asynchronous computation: from the clock at which it starts to its
    settlement (rejected or fulfilled) and the clock at which it settles. *)
Definition Async (A : Type) : Type := nat -> (Exn + A) * nat.

Definition resolve {A} (a : A) : Async A := fun now => (inr a, now).

Definition reject {A} (e : Exn) : Async A := fun now => (inl e, now).

Definition awaitThen {A B} (m : Async A) (k : A -> Async B) : Async B :=
  fun now =>
    match m now with
    | (inr a, later) => k a later
    | (inl e, later) => (inl e, later)
    end.

Definition tryCatch {A} (m : Async A) (handler : Exn -> Async A) : Async A :=
  fun now =>
    match m now with
    | (inr a, later) => (inr a, later)
    | (inl e, later) => handler e later
    end.

(** [Promise.allSettled]: every task starts at the same clock, the results
    keep the order of the tasks, and the join settles with the last task. *)
Definition allSettled {A} (tasks : list (Async A)) : Async (list (Exn + A)) :=
  fun now =>
    let settled := map (fun task => task now) tasks in
    (inr (map fst settled), foldr Nat.max now (map snd settled)).

Notation "'await' x <~ m 'in' k" := (awaitThen m (fun x => k))
  (at level 10, x name, m at level 100, k at level 200).

(** The exception with which a request is aborted by
    [AbortSignal.timeout]. *)
Definition timeoutAbort : Exn :=
  DOMException "TimeoutError" "The operation was aborted due to timeout".

(** The [RangeError] with which Node refuses a delay that is no unsigned
    32-bit integer; its message, which reaches stderr only, is kept
    without the received value. *)
Definition delayOutOfRange : Exn :=
  Error ("The value of " +:+ dquote +:+ "delay" +:+ dquote
         +:+ " is out of range. It must be >= 0 && <= 4294967295.").

(** [AbortSignal.timeout(delay)] for an integer [delay]: a delay below 0 or
    above 2^32 - 1 is refused; otherwise [inr] gives the milliseconds
    after which the signal fires, which is [delay] from 1 to 2^31 - 1 and
    1 for every other delay (Node's timers replace a delay that they
    cannot hold by 1). *)
Definition AbortSignal_timeout (delay : Z) : Exn + nat :=
  if (delay <? 0)%Z || (4294967295 <? delay)%Z then inl delayOutOfRange
  else if (1 <=? delay)%Z && (delay <=? 2147483647)%Z
       then inr (Z.to_nat delay)
       else inr 1%nat.

(** [fetch(target, { signal })] followed by reading the body, under the
    signal that fires at [deadline]. *)
Definition fetch (net : Network) (deadline : nat) (target : string)
  : Async Response :=
  fun now =>
    if (deadline <=? now + latency net target)%nat then
      (inl timeoutAbort, Nat.max now deadline)
    else
      match reply net target with
      | Rejects e => (inl e, now + latency net target)
      | Responds res => (inr res, now + latency net target)
      end.

(** ** Site scanner *)

Section Scanner.

Context (P : Platform) (net : Network).

(** The body of the loop over [discoveredFeeds]: one candidate is fetched
    and, if it passes, pushed on [validFeeds]; a failure is dropped. *)
Definition validateCandidate (deadline : nat) (validFeeds : list FeedResult)
    (candidate : string * FeedResult) : Async (list FeedResult) :=
  let '(feedUrl, feed) := candidate in
  tryCatch
    (await res <~ fetch net deadline feedUrl in
     if ok res then
       let contentType := orDefault (contentTypeHeader res) "" in
       let text := body res in
       if validateFeed text contentType then resolve (validFeeds ++ [feed])
       else resolve validFeeds
     else resolve validFeeds)
    (fun _ => resolve validFeeds).

Fixpoint validateAll (deadline : nat) (candidates : list (string * FeedResult))
    (validFeeds : list FeedResult) : Async (list FeedResult) :=
  match candidates with
  | [] => resolve validFeeds
  | candidate :: rest =>
      await validFeeds' <~ validateCandidate deadline validFeeds candidate in
      validateAll deadline rest validFeeds'
  end.

Definition scanURLForFeeds (pageUrl : string) (deadline : nat)
  : Async ScanResult :=
  tryCatch
    (await res <~ fetch net deadline pageUrl in
     if negb (ok res) then
       reject (Error ("Failed to fetch " +:+ pageUrl +:+ ": "
                      +:+ pretty (status res)))
     else
       let html := body res in
       await validFeeds <~
         validateAll deadline (discoveredFeeds P html pageUrl) [] in
       resolve {| html := Some html; scan_feeds := validFeeds |})
    (fun _ => resolve {| html := None; scan_feeds := [] |}).

(** Vocabulary for statements about scans: a feed whose URL answers on the
    network with a document that passes the validator. *)
Definition servedAsFeed (feed : FeedResult) : Prop :=
  exists res,
    reply net (feed_url feed) = Responds res
    /\ ok res = true
    /\ validateFeed (body res) (orDefault (contentTypeHeader res) "") = true.

(** ** Coordinator *)

(** [if (!allFeeds.has(feed.url)) allFeeds.set(feed.url, feed)] over a list
    of feeds. *)
Definition mergeFeeds (allFeeds : list (string * FeedResult))
    (found : list FeedResult) : list (string * FeedResult) :=
  foldl (fun all feed =>
           if negb (mapHas all (feed_url feed))
           then mapSet all (feed_url feed) feed else all)
        allFeeds found.

Definition mergeSettled (allFeeds : list (string * FeedResult))
    (result : Exn + ScanResult) : list (string * FeedResult) :=
  match result with
  | inr value => mergeFeeds allFeeds (scan_feeds value)
  | inl _ => allFeeds
  end.

Definition htmlTruthy (h : option string) : bool :=
  match h with
  | Some s => JS.truthy s
  | None => false
  end.

(** Vocabulary for statements about merging: the entry under which a feed
    is filed, and the feeds of the section scans that fulfilled. *)
Definition entryOf (feed : FeedResult) : string * FeedResult :=
  (feed_url feed, feed).

Definition settledFeeds (settled : list (Exn + ScanResult)) : list FeedResult :=
  concat (map (fun result =>
                 match result with
                 | inr value => scan_feeds value
                 | inl _ => []
                 end) settled).

(** The call [discoverBlogSubdirectories(baseUrl, html)]: it throws what
    the heuristic throws on the page, and returns the sections otherwise. *)
Definition discoverBlogSubdirectoriesCall (o : CLIOptions) (baseUrl : string)
    (html : option string) : Async (list string) :=
  match heuristicFault P html with
  | Some e => reject e
  | None => resolve (discoverBlogSubdirectories P o baseUrl html)
  end.

(** The [try] block of [findRSSFeeds]. *)
Definition findRSSFeedsTry (o : CLIOptions) (baseUrl : string) (deadline : nat)
  : Async DiscoveredResult :=
  await scanResult <~ scanURLForFeeds baseUrl deadline in
  let allFeeds := mergeFeeds [] (scan_feeds scanResult) in
  await allFeeds' <~
    (if negb (skipBlogs o) && htmlTruthy (html scanResult) then
       await blogPaths <~
         discoverBlogSubdirectoriesCall o baseUrl (html scanResult) in
       if (0 <? length blogPaths)%nat then
         let blogURLs :=
           omap (fun p => u_href <$> newURL P p (Some baseUrl)) blogPaths in
         await blogResults <~
           allSettled (map (fun blogUrl => scanURLForFeeds blogUrl deadline)
                           blogURLs) in
         resolve (foldl mergeSettled allFeeds blogResults)
       else resolve allFeeds
     else resolve allFeeds) in
  resolve {| url := baseUrl; feeds := mapValues allFeeds'; error := None |}.

(** The [catch] block of [findRSSFeeds]: the message that is reported. *)
Definition errorMessageOf (e : Exn) : string :=
  let errorMessage := message e in
  match e with
  | DOMException name _ =>
      if String.eqb name "AbortError" then "Timeout"
      else if String.eqb errorMessage "Timeout" then "Timeout"
      else errorMessage
  | Error _ =>
      if String.eqb errorMessage "Timeout" then "Timeout" else errorMessage
  end.

(** [findRSSFeeds], settled: the signal is created when the call starts
    (clock 0 of this URL), before the [try] block, so that a refused
    timeout rejects the call; an exception of the [try] block is turned
    into a result by the [catch] block. *)
Definition findRSSFeeds (o : CLIOptions) (baseUrl : string)
  : Exn + DiscoveredResult :=
  let timeoutMs := timeout o in
  match AbortSignal_timeout timeoutMs with
  | inl e => inl e
  | inr deadline =>
      match findRSSFeedsTry o baseUrl deadline 0%nat with
      | (inr result, _) => inr result
      | (inl e, _) =>
          inr {| url := baseUrl; feeds := [];
                 error := Some (errorMessageOf e) |}
      end
  end.

(** Vocabulary for statements about the coordinator. The URLs of the
    sections that are scanned after a root scan that returned [rootHtml]. *)
Definition sectionURLs (o : CLIOptions) (baseUrl : string)
    (rootHtml : option string) : list string :=
  if negb (skipBlogs o) && htmlTruthy rootHtml then
    omap (fun p => u_href <$> newURL P p (Some baseUrl))
         (discoverBlogSubdirectories P o baseUrl rootHtml)
  else [].

(** What the scans of these URLs settle with when they start at [now]. *)
Definition sectionScans (blogURLs : list string) (deadline now : nat)
  : list (Exn + ScanResult) :=
  map (fun blogUrl => (scanURLForFeeds blogUrl deadline now).1) blogURLs.

(** The exception, if any, that the [try] block throws after a root scan
    that returned [rootHtml]: that of the section heuristic, which runs
    unless [skipBlogs] is set or the scan returned no page. *)
Definition tryFault (o : CLIOptions) (rootHtml : option string)
  : option Exn :=
  if negb (skipBlogs o) && htmlTruthy rootHtml then heuristicFault P rootHtml
  else None.

(** The feeds of a list with each URL once: the first feed under a URL is
    kept, at the place of its first occurrence. *)
Definition firstByUrl (found : list FeedResult) : list FeedResult :=
  mapValues (foldl insertAbsent [] (map entryOf found)).

End Scanner.

(** ** Aggregation and exit code ([main]) *)

Record RunReport := {
  success : bool;
  partialResults : option bool;
  results : list DiscoveredResult
}.

(** [if (result.error)] *)
Definition errorTruthy (result : DiscoveredResult) : bool :=
  match error result with
  | Some msg => JS.truthy msg
  | None => false
  end.

(** Vocabulary for statements about the report: a result reports an error
    when its [error] is a non-empty string, that is when [result.error] is
    truthy. *)
Definition reportsError (result : DiscoveredResult) : Prop :=
  exists msg, error result = Some msg /\ msg <> "".

(** The feeds that the loop counts: those of the results without error. *)
Definition countedFeeds (scanResults : list DiscoveredResult) : nat :=
  sum_list (map (fun r => if errorTruthy r then 0%nat else length (feeds r))
                scanResults).

(** The loop over [scanResults]; the state is
    [(results, totalFeedsFound, hasError)]. *)
Definition tally (st : list DiscoveredResult * nat * bool)
    (result : DiscoveredResult) : list DiscoveredResult * nat * bool :=
  let '(results, totalFeedsFound, hasError) := st in
  if errorTruthy result then (results ++ [result], totalFeedsFound, true)
  else (results ++ [result], (totalFeedsFound + length (feeds result))%nat,
        hasError).

(** The part of [main] after the scans have settled: the report written to
    stdout and the exit code. *)
Definition summarize (scanResults : list DiscoveredResult) : RunReport * Z :=
  let '(results, totalFeedsFound, hasError) :=
    foldl tally ([], 0%nat, false) scanResults in
  let output :=
    {| success := negb hasError;
       partialResults :=
         if hasError && (0 <? totalFeedsFound)%nat then Some true else None;
       results := results |} in
  (output,
   if hasError then 2%Z
   else if (totalFeedsFound =? 0)%nat then 1%Z
   else 0%Z).

(** What [main] writes to stdout. *)
Inductive Stdout :=
| Nothing
| VersionLine
| HelpText
| Report (output : RunReport).

(** [Promise.all] over calls that have settled: the values in the order of
    the calls, or a rejection when a call rejects (that of the first such
    call; in the program every call of a run rejects alike, and at once). *)
Fixpoint promiseAll {A} (settled : list (Exn + A)) : Exn + list A :=
  match settled with
  | [] => inr []
  | inl e :: _ => inl e
  | inr a :: rest =>
      match promiseAll rest with
      | inr values => inr (a :: values)
      | inl e => inl e
      end
  end.

(** [main], started with the options object [o], as the process runs it;
    each URL is scanned by [scan] ([findRSSFeeds] in the program) on a clock
    and a deadline of its own, and [Promise.all] keeps the order of the
    URLs. When a scan rejects, [Promise.all] and with it [main] reject
    before anything is written to stdout, and the handler of the top-level
    block exits with 2. *)
Definition mainWith (scan : CLIOptions -> string -> Exn + DiscoveredResult)
    (o : CLIOptions) (args : list string) : Stdout * Z :=
  match parseArgs args o with
  | (inl _, _) => (Nothing, 2%Z)
  | (inr urls, o') =>
      if version o' then (VersionLine, 0%Z)
      else if help o' then (HelpText, 0%Z)
      else if (length urls =? 0)%nat then (Nothing, 2%Z)
      else
        match promiseAll (map (scan o') urls) with
        | inl _ => (Nothing, 2%Z)
        | inr scanResults =>
            let '(output, code) := summarize scanResults in
            (Report output, code)
        end
  end.

Definition main (P : Platform) (net : Network) (args : list string)
  : Stdout * Z :=
  mainWith (findRSSFeeds P net) cliOptions args.

(** ** Fixtures for the examples: a small resolver, pages and networks *)

Module Fixtures.

(** Splits [host/rest] at the first slash; the rest keeps its slash. *)
Fixpoint hostAndPath (s : string) : string * string :=
  match s with
  | EmptyString => (EmptyString, EmptyString)
  | String c rest =>
      if Ascii.eqb c "/"%char then (EmptyString, s)
      else let '(host, p) := hostAndPath rest in (String c host, p)
  end.

Definition dropChars (n : nat) (s : string) : string :=
  String.substring n (String.length s - n) s.

Definition absoluteURL (scheme rest : string) : option URL :=
  let '(host, p) := hostAndPath rest in
  if JS.truthy host then
    let p' := if JS.truthy p then p else "/" in
    Some {| u_href := scheme +:+ host +:+ p';
            origin := scheme +:+ host;
            pathname := p' |}
  else None.

Definition parseAbsolute (s : string) : option URL :=
  if JS.startsWith s "https://" then absoluteURL "https://" (dropChars 8 s)
  else if JS.startsWith s "http://" then absoluteURL "http://" (dropChars 7 s)
  else None.

(** The directory of a path: everything up to its last slash. *)
Fixpoint directoryOf (p : string) : string :=
  match p with
  | EmptyString => EmptyString
  | String c rest =>
      if JS.includes rest "/" then String c (directoryOf rest)
      else if Ascii.eqb c "/"%char then "/" else EmptyString
  end.

(** A resolver for the URL shapes of the examples: absolute http(s) URLs,
    paths that start with a slash, and plain relative paths; no query,
    fragment or dot segments. *)
Definition resolveURL (input : string) (base : option string) : option URL :=
  match parseAbsolute input with
  | Some u => Some u
  | None =>
      match base ≫= parseAbsolute with
      | Some b =>
          let p := if JS.startsWith input "/" then input
                   else directoryOf (pathname b) +:+ input in
          Some {| u_href := origin b +:+ p; origin := origin b; pathname := p |}
      | None => None
      end
  end.

(** A root page that declares one Atom feed. *)
Definition goodPage : string :=
  "<html><head><link rel=alternate type=application/atom+xml href=/feed.atom></head></html>".

(** A page with navigation links, one of them to another site. *)
Definition navPage : string :=
  "<a href=/blog>Blog</a><a href=/blog/2024/05/hello>Hello</a><a href=https://other.example/news>News</a><a href=/a/b/c/news>Deep</a>".

(** The same page without the link to the other site. *)
Definition localNavPage : string :=
  "<a href=/blog>Blog</a><a href=/blog/2024/05/hello>Hello</a><a href=/a/b/c/news>Deep</a>".

(** The page of the repository's unit tests for the link heuristic. *)
Definition unitTestPage : string :=
  "<html><body><a href=/blog>Blog</a><a href=/news>News</a><a href=/articles>Articles</a><a href=https://external.com/blog>External</a></body></html>".

Definition pages : Platform := {|
  anchorsFault _ := None;
  anchorsOf h :=
    if String.eqb h unitTestPage then
      [ {| a_href := "/blog"; a_text := "Blog" |};
        {| a_href := "/news"; a_text := "News" |};
        {| a_href := "/articles"; a_text := "Articles" |};
        {| a_href := "https://external.com/blog"; a_text := "External" |} ]
    else if String.eqb h navPage then
      [ {| a_href := "/blog"; a_text := "Blog" |};
        {| a_href := "/blog/2024/05/hello"; a_text := "Hello" |};
        {| a_href := "https://other.example/news"; a_text := "News" |};
        {| a_href := "/a/b/c/news"; a_text := "Deep" |} ]
    else if String.eqb h localNavPage then
      [ {| a_href := "/blog"; a_text := "Blog" |};
        {| a_href := "/blog/2024/05/hello"; a_text := "Hello" |};
        {| a_href := "/a/b/c/news"; a_text := "Deep" |} ]
    else [];
  alternateLinksOf h :=
    if String.eqb h goodPage then
      [ {| l_type := Some "application/atom+xml";
           l_href := Some "/feed.atom";
           l_title := None |} ]
    else [];
  newURL := resolveURL
|}.

Definition atomDocument : string :=
  "<?xml version='1.0'?><feed xmlns='http://www.w3.org/2005/Atom'></feed>".

Definition htmlResponse (page : string) : Response :=
  {| ok := true; status := 200; contentTypeHeader := Some "text/html";
     body := page |}.

Definition atomResponse : Response :=
  {| ok := true; status := 200;
     contentTypeHeader := Some "application/atom+xml";
     body := atomDocument |}.

(** [good.example] serves [goodPage] and its Atom feed; every other request
    fails at once with a network error. *)
Definition twoSites : Network := {|
  reply u :=
    if String.eqb u "https://good.example" then Responds (htmlResponse goodPage)
    else if String.eqb u "https://good.example/feed.atom"
    then Responds atomResponse
    else Rejects (Error "fetch failed");
  latency _ := 0%nat
|}.

(** [slow.example] needs 500 ms for its root page and 40 ms for every
    other document; the feed of the root page is at [/feed.atom]. *)
Definition slowSite : Network := {|
  reply u :=
    if String.eqb u "https://slow.example" then Responds (htmlResponse goodPage)
    else if String.eqb u "https://slow.example/feed.atom"
    then Responds atomResponse
    else Rejects (Error "fetch failed");
  latency u := if String.eqb u "https://slow.example" then 500%nat else 40%nat
|}.

Definition atomFeed (site : string) : FeedResult :=
  {| feed_url := site +:+ "/feed.atom"; feed_title := "RSS Feed";
     feed_type := atom |}.

(** A stand-in for the coordinator: [bad.example] times out, every other
    site has one Atom feed. *)
Definition stubScan (o : CLIOptions) (site : string)
  : Exn + DiscoveredResult :=
  if String.eqb site "https://bad.example" then
    inr {| url := site; feeds := []; error := Some "Timeout" |}
  else
    inr {| url := site; feeds := [atomFeed site]; error := None |}.

End Fixtures.

(** ** Vocabulary for further statements *)

(** An override path as [--blog-paths] stores it: not empty, without white
    space at its ends, and without the separators of the list. *)
Definition cleanPath (p : string) : Prop :=
  p <> ""
  /\ JS.trim p = p
  /\ JS.allChars (fun c => negb (commaOrPipe c)) p = true.

(** The number that a string of decimal digits spells, in positional
    notation: each digit counts with the power of ten of its place. *)
Fixpoint decimalValue (digits : string) : Z :=
  match digits with
  | EmptyString => 0%Z
  | String c rest =>
      (default 0 (digitValue c) * 10 ^ Z.of_nat (String.length rest)
       + decimalValue rest)%Z
  end.

(** The largest integer below which every integer is a double of its own
    ([Number.MAX_SAFE_INTEGER]). *)
Definition MAX_SAFE_INTEGER : Z := 9007199254740991%Z.

(** A link that the loop of [extractBlogLinksFromHTML] passes over in
    state [st]: it matches no keyword, or its path has no section root, or
    its path or its root is marked as seen. *)
Definition passedOver (st : list string * gset string) (link : Link) : Prop :=
  foundKeyword link = None
  \/ sectionRoot (path link) = None
  \/ exists root,
       sectionRoot (path link) = Some root
       /\ (path link ∈ st.2 \/ root ∈ st.2).

(** A string of the ASCII range. *)
Definition asciiText (s : string) : bool :=
  JS.allChars (fun c => (nat_of_ascii c <? 128)%nat) s.

(** [servesFeed net k]: the document at [k] is served as a feed. *)
Definition servesFeed (net : Network) (k : string) : bool :=
  match reply net k with
  | Responds res =>
      ok res && validateFeed (body res) (orDefault (contentTypeHeader res) "")
  | Rejects _ => false
  end.

(** The page that a scan started at [now] obtains, if any: the body of an
    OK response that arrives before the deadline. *)
Definition pageObtained (net : Network) (pageUrl : string)
    (deadline now : nat) : option string :=
  match reply net pageUrl with
  | Responds res =>
      if ok res && (now + latency net pageUrl <? deadline)%nat
      then Some (body res) else None
  | Rejects _ => None
  end.

(** The exception, if any, that the section heuristic throws for the site
    [u] under the options [o]: that on the root page which the scan
    obtains under the signal of the timeout. *)
Definition siteFault (P : Platform) (net : Network) (o : CLIOptions)
    (u : string) : option Exn :=
  match AbortSignal_timeout (timeout o) with
  | inr deadline => tryFault P o (pageObtained net u deadline 0)
  | inl _ => None
  end.

(** ** Further fixtures *)

Module MoreFixtures.

(** A page that lists the link to [/blog] twice. *)
Definition repeatedPage : string :=
  "<a href=/blog>Blog</a><a href=/news/today>Today</a><a href=/blog>Blog</a><a href=/press>Press</a>".

(** The same page with the link to [/blog] listed once. *)
Definition repeatedPageOnce : string :=
  "<a href=/blog>Blog</a><a href=/news/today>Today</a><a href=/press>Press</a>".

(** A page that declares an RSS feed and an Atom feed. *)
Definition feedsPage : string :=
  "<link rel=alternate type=application/rss+xml href=/rss.xml title=News><link rel=alternate type=application/atom+xml href=/feed.atom>".

(** A page whose alternate links are translations, not feeds. *)
Definition translatedPage : string :=
  "<link rel=alternate type=text/html hreflang=fr href=/fr><link rel=alternate hreflang=de href=/de>".

(** A home page that declares an Atom feed and links to its blog. *)
Definition homePage : string :=
  "<link rel=alternate type=application/atom+xml href=/feed.atom><a href=/blog>Blog</a>".

(** The blog of that site: it declares a feed of its own and the feed of
    the home page. *)
Definition blogPage : string :=
  "<link rel=alternate type=application/rss+xml href=/blog/feed.xml title=Blog><link rel=alternate type=application/atom+xml href=/feed.atom>".

(** A stand-in for a page on which cheerio raises an exception while the
    section heuristic reads its anchors (as markup nested too deep for a
    recursive walk does); the scanner reads its alternate links, of which
    there is none. *)
Definition brokenPage : string :=
  "<a href=/blog><b><b><b>Blog</b></b></b></a>".

Definition stackOverflow : Exn := Error "Maximum call stack size exceeded".

Definition pages : Platform := {|
  anchorsFault h := if String.eqb h brokenPage then Some stackOverflow else None;
  anchorsOf h :=
    if String.eqb h homePage then [ {| a_href := "/blog"; a_text := "Blog" |} ]
    else if String.eqb h repeatedPage then
      [ {| a_href := "/blog"; a_text := "Blog" |};
        {| a_href := "/news/today"; a_text := "Today" |};
        {| a_href := "/blog"; a_text := "Blog" |};
        {| a_href := "/press"; a_text := "Press" |} ]
    else if String.eqb h repeatedPageOnce then
      [ {| a_href := "/blog"; a_text := "Blog" |};
        {| a_href := "/news/today"; a_text := "Today" |};
        {| a_href := "/press"; a_text := "Press" |} ]
    else [];
  alternateLinksOf h :=
    if String.eqb h feedsPage then
      [ {| l_type := Some "application/rss+xml"; l_href := Some "/rss.xml";
           l_title := Some "News" |};
        {| l_type := Some "application/atom+xml"; l_href := Some "/feed.atom";
           l_title := None |} ]
    else if String.eqb h homePage then
      [ {| l_type := Some "application/atom+xml"; l_href := Some "/feed.atom";
           l_title := None |} ]
    else if String.eqb h blogPage then
      [ {| l_type := Some "application/rss+xml";
           l_href := Some "/blog/feed.xml"; l_title := Some "Blog" |};
        {| l_type := Some "application/atom+xml"; l_href := Some "/feed.atom";
           l_title := None |} ]
    else if String.eqb h translatedPage then
      [ {| l_type := Some "text/html"; l_href := Some "/fr";
           l_title := None |};
        {| l_type := None; l_href := Some "/de"; l_title := None |} ]
    else [];
  newURL := Fixtures.resolveURL
|}.

Definition rssDocument : string :=
  "<?xml version='1.0'?><rss version='2.0'><channel></channel></rss>".

Definition rssResponse : Response :=
  {| ok := true; status := 200;
     contentTypeHeader := Some "application/rss+xml";
     body := rssDocument |}.

Definition notFound : Response :=
  {| ok := false; status := 404; contentTypeHeader := Some "text/html";
     body := "Not Found" |}.

(** [site.example] serves [feedsPage] in 10 ms, its two feeds in 5 ms each,
    and answers 404 to everything else in 5 ms; [down.example] answers 500
    at once. *)
Definition steadySite : Network := {|
  reply u :=
    if String.eqb u "https://site.example"
    then Responds (Fixtures.htmlResponse feedsPage)
    else if String.eqb u "https://site.example/rss.xml"
    then Responds rssResponse
    else if String.eqb u "https://site.example/feed.atom"
    then Responds Fixtures.atomResponse
    else if String.eqb u "https://down.example"
    then Responds {| ok := false; status := 500;
                     contentTypeHeader := Some "text/html";
                     body := "Internal Server Error" |}
    else Responds notFound;
  latency u :=
    if String.eqb u "https://site.example" then 10%nat
    else if String.eqb u "https://down.example" then 0%nat
    else 5%nat
|}.

(** [home.example] serves [homePage], its Atom feed, its blog and the feed
    of the blog, each in 5 ms, and answers 404 to everything else;
    [broken.example] serves [brokenPage]. *)
Definition sectionSite : Network := {|
  reply u :=
    if String.eqb u "https://home.example"
    then Responds (Fixtures.htmlResponse homePage)
    else if String.eqb u "https://home.example/feed.atom"
    then Responds Fixtures.atomResponse
    else if String.eqb u "https://home.example/blog"
    then Responds (Fixtures.htmlResponse blogPage)
    else if String.eqb u "https://home.example/blog/feed.xml"
    then Responds rssResponse
    else if String.eqb u "https://broken.example"
    then Responds (Fixtures.htmlResponse brokenPage)
    else Responds notFound;
  latency _ := 5%nat
|}.

Definition homeFeed : FeedResult :=
  {| feed_url := "https://home.example/feed.atom"; feed_title := "RSS Feed";
     feed_type := atom |}.

Definition blogFeed : FeedResult :=
  {| feed_url := "https://home.example/blog/feed.xml"; feed_title := "Blog";
     feed_type := rss |}.

Definition rssFeed : FeedResult :=
  {| feed_url := "https://site.example/rss.xml"; feed_title := "News";
     feed_type := rss |}.

Definition atomFeed : FeedResult :=
  {| feed_url := "https://site.example/feed.atom"; feed_title := "RSS Feed";
     feed_type := atom |}.

End MoreFixtures.

(** * Properties *)

(** ** Strings *)

Lemma append_cons (c : ascii) (s t : string) :
  String c s +:+ t = String c (s +:+ t).
Proof. reflexivity. Qed.

Lemma append_nil (t : string) : EmptyString +:+ t = t.
Proof. reflexivity. Qed.

Lemma prefix_spec (p s : string) :
  String.prefix p s = true <-> exists rest, s = p +:+ rest.
Proof.
  revert s. induction p as [|c p IH]; intros [|d s]; simpl.
  - split; [intros _; by exists EmptyString | done].
  - split; [intros _; by exists (String d s) | done].
  - split; [done | intros [rest Hrest]; discriminate].
  - destruct (Ascii.ascii_dec c d) as [->|Hne].
    + rewrite IH. split; intros [rest Hrest]; exists rest;
        rewrite append_cons in *; congruence.
    + split; [done | intros [rest Hrest]; rewrite append_cons in *; congruence].
Qed.

Lemma includes_nil (needle : string) :
  JS.includes EmptyString needle = String.prefix needle EmptyString.
Proof. unfold JS.includes. apply orb_false_r. Qed.

Lemma includes_cons (c : ascii) (s needle : string) :
  JS.includes (String c s) needle
  = String.prefix needle (String c s) || JS.includes s needle.
Proof. reflexivity. Qed.

Lemma includes_spec (s needle : string) :
  JS.includes s needle = true <-> contains s needle.
Proof.
  split.
  - induction s as [|c s IH].
    + rewrite includes_nil. intros Hp.
      apply prefix_spec in Hp as [rest Hrest]. by exists EmptyString, rest.
    + rewrite includes_cons, orb_true_iff. intros [Hp | Hin].
      * apply prefix_spec in Hp as [rest Hrest]. by exists EmptyString, rest.
      * destruct (IH Hin) as (before & after & ->).
        exists (String c before), after. by rewrite append_cons.
  - intros (before & after & ->).
    induction before as [|c before IH].
    + rewrite append_nil.
      assert (String.prefix needle (needle +:+ after) = true) as Hp
        by (apply prefix_spec; by exists after).
      destruct (needle +:+ after).
      * by rewrite includes_nil.
      * by rewrite includes_cons, Hp.
    + rewrite append_cons, includes_cons, IH. apply orb_true_r.
Qed.

Lemma includes_false_spec (s needle : string) :
  JS.includes s needle = false <-> ~ contains s needle.
Proof.
  rewrite <- includes_spec. destruct (JS.includes s needle); split; done.
Qed.

(** A trimmed string is a suffix of the original, so a declaration found
    after trimming is found by the plain search as well. *)
Lemma trimStart_startsWith_includes (s p : string) :
  JS.startsWith (JS.trimStart s) p = true -> JS.includes s p = true.
Proof.
  unfold JS.startsWith. induction s as [|c s IH].
  - rewrite includes_nil. done.
  - rewrite includes_cons. cbn [JS.trimStart]. destruct (JS.isSpace c).
    + intros H. rewrite (IH H). apply orb_true_r.
    + intros ->. done.
Qed.

(** ** Feed validation *)

(** C4: the validator accepts exactly when the body carries a feed marker,
    and the body carries an XML declaration or the content type names xml,
    rss or atom, and the content type does not name text/html. Hence a
    text/html content type is always rejected, and an Atom document with
    an XML declaration served as application/atom+xml is accepted. *)
Theorem validateFeed_rule :
  (forall text contentType : string,
      validateFeed text contentType = true <->
      (contains text "<rss" \/ contains text "<feed")
      /\ (contains text "<?xml"
          \/ contains contentType "xml" \/ contains contentType "rss"
          \/ contains contentType "atom")
      /\ ~ contains contentType "text/html")
  /\ (forall text before after : string,
         validateFeed text (before +:+ "text/html" +:+ after) = false)
  /\ (forall rest : string,
         validateFeed
           ("<?xml version=" +:+ dquote +:+ "1.0" +:+ dquote +:+ "?><feed"
            +:+ rest)
           "application/atom+xml" = true).
Proof.
  assert (Hrule : forall text contentType : string,
      validateFeed text contentType = true <->
      (contains text "<rss" \/ contains text "<feed")
      /\ (contains text "<?xml"
          \/ contains contentType "xml" \/ contains contentType "rss"
          \/ contains contentType "atom")
      /\ ~ contains contentType "text/html").
  { intros text contentType. unfold validateFeed.
    rewrite !andb_true_iff, !orb_true_iff, negb_true_iff.
    rewrite includes_false_spec, !includes_spec.
    split.
    - intros [[Hmark Hxml] Hhtml]. repeat split; [done| |done].
      destruct Hxml as [[Hdecl | Hdecl] | Hct].
      + left. apply includes_spec. by apply trimStart_startsWith_includes.
      + by left.
      + right. tauto.
    - intros (Hmark & Hxml & Hhtml). repeat split; [done| |done].
      destruct Hxml as [Hdecl | Hct]; [left; by right | right; tauto]. }
  split; [exact Hrule|]. split.
  - intros text before after.
    destruct (validateFeed text _) eqn:Hv; [|done].
    apply Hrule in Hv as (_ & _ & Hhtml).
    destruct Hhtml. by exists before, after.
  - intros rest. apply Hrule. repeat split.
    + right.
      exists ("<?xml version=" +:+ dquote +:+ "1.0" +:+ dquote +:+ "?>"), rest.
      reflexivity.
    + left. exists EmptyString,
        (" version=" +:+ dquote +:+ "1.0" +:+ dquote +:+ "?><feed" +:+ rest).
      reflexivity.
    + apply includes_false_spec. reflexivity.
Qed.

(** ** Command line parsing *)

Lemma parseArgsFrom_nil (urls : list string) (o : CLIOptions) :
  parseArgsFrom [] urls o = (inr urls, o).
Proof. reflexivity. Qed.

(** The cases of one iteration of the loop, by the kind of the token. *)
Ltac split_token arg :=
  destruct (String.eqb arg "--help") eqn:?H;
  [| destruct (String.eqb arg "-h") eqn:?H;
  [| destruct (String.eqb arg "--version") eqn:?H;
  [| destruct (String.eqb arg "-V") eqn:?H;
  [| destruct (String.eqb arg "--verbose") eqn:?H;
  [| destruct (String.eqb arg "-v") eqn:?H;
  [| destruct (String.eqb arg "--no-blogs") eqn:?H;
  [| destruct (String.eqb arg "--skip-blogs") eqn:?H;
  [| destruct (String.eqb arg "--max-blogs") eqn:?H;
  [| destruct (String.eqb arg "--blog-paths") eqn:?H;
  [| destruct (String.eqb arg "--timeout") eqn:?H ]]]]]]]]]];
  repeat match goal with
         | H : String.eqb arg _ = true |- _ => apply String.eqb_eq in H; subst arg
         end.

Lemma parseArgsFrom_urls (n : nat) :
  forall (args urls : list string) (o : CLIOptions) res o',
    length args <= n ->
    parseArgsFrom args urls o = (inr res, o') ->
    res = urls ++ List.filter isHttpUrl (unconsumed args).
Proof.
  induction n as [|n IH]; intros [|arg rest] urls o res o' Hlen Hrun;
    cbn [length] in Hlen; try lia.
  - rewrite parseArgsFrom_nil in Hrun. inversion Hrun. by rewrite app_nil_r.
  - rewrite parseArgsFrom_nil in Hrun. inversion Hrun. by rewrite app_nil_r.
  - assert (Hrest : length rest <= n) by lia.
    split_token arg.
    1-8: by (apply (IH rest) in Hrun; [exact Hrun | lia]).
    + (* --max-blogs *)
      destruct rest as [|raw rest']; [discriminate|].
      cbn in Hrun. cbn [length] in Hrest.
      destruct (parseInt raw) as [value|]; [|discriminate].
      destruct (value <=? 0)%Z; [discriminate|].
      apply IH in Hrun; [exact Hrun | lia].
    + (* --blog-paths *)
      destruct rest as [|raw rest']; [discriminate|].
      cbn in Hrun. cbn [length] in Hrest.
      destruct (JS.truthy (JS.trim raw)); [|discriminate].
      apply IH in Hrun; [exact Hrun | lia].
    + (* --timeout *)
      destruct rest as [|raw rest']; [discriminate|].
      cbn in Hrun. cbn [length] in Hrest.
      destruct (parseInt raw) as [value|]; [|discriminate].
      destruct (value <=? 0)%Z; [discriminate|].
      apply IH in Hrun; [exact Hrun | lia].
    + (* a URL or an ignored token *)
      cbn [parseArgsFrom] in Hrun.
      rewrite H, H0, H1, H2, H3, H4, H5, H6, H7, H8, H9 in Hrun.
      cbn [orb] in Hrun. cbn [unconsumed]. unfold takesValue.
      rewrite H7, H8, H9. cbn [orb List.filter].
      destruct (isHttpUrl arg); apply IH in Hrun; try lia.
      * by rewrite Hrun, <- app_assoc.
      * done.
Qed.

Lemma parseArgsFrom_no_values (args : list string) :
  forall (urls : list string) (o : CLIOptions),
    Forall (fun arg => takesValue arg = false) args ->
    exists o', parseArgsFrom args urls o
               = (inr (urls ++ List.filter isHttpUrl args), o').
Proof.
  induction args as [|arg rest IH]; intros urls o Hargs.
  - exists o. by rewrite parseArgsFrom_nil, app_nil_r.
  - inversion Hargs as [|? ? Harg Hrest]; subst.
    split_token arg; try discriminate Harg.
    1-8: by apply IH.
    cbn [parseArgsFrom].
    rewrite H, H0, H1, H2, H3, H4, H5, H6, H7, H8, H9. cbn [orb List.filter].
    destruct (isHttpUrl arg).
    + destruct (IH (urls ++ [arg]) o Hrest) as [o' Ho'].
      exists o'. by rewrite Ho', <- app_assoc.
    + apply IH, Hrest.
Qed.

Lemma parseArgsFrom_ignored (arg : string) (rest urls : list string)
    (o : CLIOptions) :
  isFlag arg = false -> takesValue arg = false -> isHttpUrl arg = false ->
  parseArgsFrom (arg :: rest) urls o = parseArgsFrom rest urls o.
Proof.
  unfold isFlag, takesValue, JS.arrayIncludes. cbn [existsb].
  rewrite !orb_false_iff.
  intros (H1 & H2 & H3 & H4 & H5 & H6 & H7 & H8 & _) [[H9 H10] H11] Hurl.
  cbn [parseArgsFrom].
  by rewrite H1, H2, H3, H4, H5, H6, H7, H8, H9, H10, H11, Hurl.
Qed.

(** C10 (as amended): when [parseArgs] returns, its result is exactly the
    tokens that start with http:// or https:// among those not read as the
    value of an option, in input order; without a value-taking option it
    returns, and the result is exactly the http(s) tokens of the list; and
    a token that is no recognized option and no such URL is passed over,
    leaving the URL list and the options as they were. *)
Theorem parseArgs_urls :
  (forall (args : list string) (o : CLIOptions) urls o',
      parseArgs args o = (inr urls, o') ->
      urls = List.filter isHttpUrl (unconsumed args))
  /\ (forall (args : list string) (o : CLIOptions),
         Forall (fun arg => takesValue arg = false) args ->
         exists o', parseArgs args o = (inr (List.filter isHttpUrl args), o'))
  /\ (forall (arg : string) (rest urls : list string) (o : CLIOptions),
         isFlag arg = false -> takesValue arg = false ->
         isHttpUrl arg = false ->
         parseArgsFrom (arg :: rest) urls o = parseArgsFrom rest urls o).
Proof.
  split; [|split].
  - intros args o urls o' Hrun.
    by apply (parseArgsFrom_urls (length args) args [] o urls o').
  - intros args o Hargs.
    destruct (parseArgsFrom_no_values args [] o Hargs) as [o' Ho'].
    by exists o'.
  - apply parseArgsFrom_ignored.
Qed.

(** An unknown flag and a bare host name between two URLs: no usage error,
    and only the two URLs are returned. *)
Lemma parseArgs_urls_witness :
  parseArgs ["https://a.example"; "--bogus"; "example.com"; "--max-blogs";
             "3"; "http://b.example"] cliOptions
  = (inr ["https://a.example"; "http://b.example"], setMaxBlogs 3 cliOptions)
  /\ ["https://a.example"; "http://b.example"]
     = List.filter isHttpUrl
         (unconsumed ["https://a.example"; "--bogus"; "example.com";
                      "--max-blogs"; "3"; "http://b.example"])
  /\ (exists o', parseArgs ["https://a.example"; "--bogus"; "example.com"]
                   cliOptions
                 = (inr ["https://a.example"], o'))
  /\ parseArgsFrom ["--bogus"; "https://a.example"] [] cliOptions
     = parseArgsFrom ["https://a.example"] [] cliOptions.
Proof.
  split; [reflexivity|]. split; [|split].
  - apply (proj1 parseArgs_urls _ cliOptions _ (setMaxBlogs 3 cliOptions)).
    reflexivity.
  - apply (proj1 (proj2 parseArgs_urls)
             ["https://a.example"; "--bogus"; "example.com"] cliOptions).
    repeat constructor.
  - apply (proj2 (proj2 parseArgs_urls)); reflexivity.
Defined.

(** C10 as stated fails: a token that starts with https:// but is read as
    the value of [--blog-paths] is not returned. *)
Lemma parseArgs_url_read_as_value :
  (parseArgs ["--blog-paths"; "https://a.example"] cliOptions).1 = inr []
  /\ List.filter isHttpUrl ["--blog-paths"; "https://a.example"]
     = ["https://a.example"]
  /\ ~ (forall (args : list string) (o : CLIOptions),
           exists o', parseArgs args o
                      = (inr (List.filter isHttpUrl args), o')).
Proof.
  split; [reflexivity|]. split; [reflexivity|].
  intros H.
  destruct (H ["--blog-paths"; "https://a.example"] cliOptions) as [o' Ho'].
  discriminate Ho'.
Qed.

(** ** Insertion-ordered maps *)

Section OrderedMap.

Context {V : Type}.
Implicit Types (m : list (string * V)) (k : string) (v : V).

Lemma mapHas_spec m k : mapHas m k = true <-> k ∈ m.*1.
Proof.
  unfold mapHas. induction m as [|[k' v'] m IH]; cbn [existsb fmap list_fmap].
  - split; [done | by intros ?%elem_of_nil].
  - rewrite orb_true_iff, IH, elem_of_cons, String.eqb_eq. done.
Qed.

Lemma mapHas_false m k : mapHas m k = false <-> k ∉ m.*1.
Proof.
  rewrite <- mapHas_spec. destruct (mapHas m k); split; done.
Qed.

(** Setting a key that is absent appends the entry. *)
Lemma mapSet_absent m k v : mapHas m k = false -> mapSet m k v = m ++ [(k, v)].
Proof.
  unfold mapHas. induction m as [|[k' v'] m IH]; cbn [existsb mapSet]; [done|].
  rewrite orb_false_iff. intros [Hk Hm]. cbn [fst] in Hk.
  rewrite Hk, (IH Hm). done.
Qed.

Lemma insertAbsent_app m c :
  insertAbsent m c = m ++ (if mapHas m c.1 then [] else [c]).
Proof.
  unfold insertAbsent. destruct (mapHas m c.1) eqn:Hhas; cbn [negb].
  - by rewrite app_nil_r.
  - rewrite mapSet_absent by done. by destruct c.
Qed.

Lemma insertAbsent_NoDup m c : NoDup m.*1 -> NoDup (insertAbsent m c).*1.
Proof.
  intros Hm. rewrite insertAbsent_app.
  destruct (mapHas m c.1) eqn:Hhas; [by rewrite app_nil_r|].
  rewrite fmap_app. apply NoDup_app. split; [done|]. split.
  - intros k Hk Hin. apply list_elem_of_singleton in Hin. subst k.
    by apply mapHas_false in Hhas.
  - cbn. apply NoDup_singleton.
Qed.

Lemma insertAll_NoDup (cs : list (string * V)) m :
  NoDup m.*1 -> NoDup (foldl insertAbsent m cs).*1.
Proof.
  revert m. induction cs as [|c cs IH]; intros m Hm; cbn [foldl]; [done|].
  by apply IH, insertAbsent_NoDup.
Qed.

Lemma insertAll_prefix (cs : list (string * V)) m :
  exists extra, foldl insertAbsent m cs = m ++ extra.
Proof.
  revert m. induction cs as [|c cs IH]; intros m; cbn [foldl].
  - exists []. by rewrite app_nil_r.
  - destruct (IH (insertAbsent m c)) as [extra ->].
    rewrite insertAbsent_app, <- app_assoc. eauto.
Qed.

Lemma firstFor_cons k (c : string * V) (l : list (string * V)) :
  firstFor k (c :: l) = if String.eqb k c.1 then Some c.2 else firstFor k l.
Proof. unfold firstFor. cbn [List.find]. by destruct (String.eqb k c.1). Qed.

(** Membership after a run of guarded insertions: an entry was there
    before, or its key was free and it is the first proposal for it. *)
Lemma insertAll_elem_of (cs : list (string * V)) m k v :
  NoDup m.*1 ->
  (k, v) ∈ foldl insertAbsent m cs <->
  (k, v) ∈ m \/ ((k ∉ m.*1) /\ firstFor k cs = Some v).
Proof.
  revert m. induction cs as [|c cs IH]; intros m Hm; cbn [foldl].
  - unfold firstFor. cbn. intuition discriminate.
  - rewrite IH by (by apply insertAbsent_NoDup).
    rewrite firstFor_cons, insertAbsent_app.
    destruct (mapHas m c.1) eqn:Hhas.
    + rewrite app_nil_r. apply mapHas_spec in Hhas.
      destruct (String.eqb k c.1) eqn:Hk; [|done].
      apply String.eqb_eq in Hk. subst k. intuition.
    + apply mapHas_false in Hhas.
      rewrite fmap_app, !elem_of_app. cbn [fmap list_fmap].
      rewrite !list_elem_of_singleton.
      destruct (String.eqb k c.1) eqn:Hk.
      * apply String.eqb_eq in Hk. subst k. destruct c as [k' v']; cbn in *.
        split.
        -- intros [[Hin | Heq] | [Hnot _]]; [by left | right | tauto].
           split; [done | congruence].
        -- intros [Hin | [_ Heq]]; [left; by left|].
           left. right. congruence.
      * apply String.eqb_neq in Hk. destruct c as [k' v']; cbn in *.
        split.
        -- intros [[Hin | Heq] | [Hnot Hfirst]]; [by left | congruence |].
           right. split; [|done]. intros Hin. apply Hnot. by left.
        -- intros [Hin | [Hnot Hfirst]]; [left; by left|].
           right. split; [|done]. intros [Hin | Heq]; [done | congruence].
Qed.

End OrderedMap.

(** ** Candidate resolution *)

Section Candidates.

Context (P : Platform).

Lemma setIfAbsent_Some m (c : string * FeedResult) :
  setIfAbsent m (Some c) = insertAbsent m c.
Proof. by destruct c. Qed.

Lemma setIfAbsent_fold {A} (f : A -> option (string * FeedResult))
    (xs : list A) m :
  foldl (fun m x => setIfAbsent m (f x)) m xs = foldl insertAbsent m (omap f xs).
Proof.
  revert m. induction xs as [|x xs IH]; intros m; cbn [foldl omap list_omap];
    [done|].
  destruct (f x) as [c|]; cbn [foldl].
  - by rewrite IH, setIfAbsent_Some.
  - apply IH.
Qed.

Lemma discoveredFeeds_fold html pageUrl :
  discoveredFeeds P html pageUrl
  = foldl insertAbsent [] (proposals P html pageUrl).
Proof.
  unfold discoveredFeeds, commonPass, declaredPass, proposals.
  by rewrite !setIfAbsent_fold, foldl_app.
Qed.

(** Every entry of the candidate map is filed under the URL of its feed. *)
Lemma discoveredFeeds_key (html pageUrl k : string) (feed : FeedResult) :
  (k, feed) ∈ discoveredFeeds P html pageUrl -> feed_url feed = k.
Proof.
  rewrite discoveredFeeds_fold, insertAll_elem_of by constructor.
  intros [Hin | [_ Hfirst]]; [by apply elem_of_nil in Hin|].
  unfold firstFor in Hfirst.
  destruct (List.find _ _) as [[k' feed']|] eqn:Hfind; [|done].
  apply find_some in Hfind as [Hin Hk]. cbn in Hk, Hfirst.
  apply String.eqb_eq in Hk. subst k'. injection Hfirst as ->.
  apply list_elem_of_In in Hin. unfold proposals in Hin.
  apply elem_of_app in Hin as [Hin | Hin];
    apply list_elem_of_omap in Hin as (x & _ & Hx).
  - unfold declaredCandidate in Hx.
    repeat (case_match; try done); by injection Hx as <- <-.
  - unfold commonCandidate in Hx.
    repeat (case_match; try done); by injection Hx as <- <-.
Qed.

(** C8: the candidate map never holds two entries under the same resolved
    URL; the entry under a URL is the first proposal made for it, declared
    links being proposed before the conventional paths; and what the
    declared pass put in the map is still there, unchanged and in front,
    after the conventional pass. *)
Theorem discoveredFeeds_first_wins (html pageUrl : string) :
  NoDup (discoveredFeeds P html pageUrl).*1
  /\ (forall (k : string) (feed : FeedResult),
         (k, feed) ∈ discoveredFeeds P html pageUrl <->
         firstFor k (proposals P html pageUrl) = Some feed)
  /\ (exists extra,
         discoveredFeeds P html pageUrl
         = declaredPass P html pageUrl [] ++ extra)
  /\ (forall (k : string) (feed : FeedResult),
         (k, feed) ∈ discoveredFeeds P html pageUrl -> feed_url feed = k).
Proof.
  split; [|split; [|split]].
  - rewrite discoveredFeeds_fold. apply insertAll_NoDup. constructor.
  - intros k feed. rewrite discoveredFeeds_fold, insertAll_elem_of
      by constructor.
    cbn. rewrite elem_of_nil. split; [intuition|].
    intros H. right. split; [apply not_elem_of_nil | done].
  - unfold discoveredFeeds, commonPass. rewrite setIfAbsent_fold.
    apply insertAll_prefix.
  - intros k feed. apply discoveredFeeds_key.
Qed.

End Candidates.

(** ** Path segments *)

Lemma splitBy_nonempty (sep : ascii -> bool) (s : string) : JS.splitBy sep s <> [].
Proof.
  induction s as [|c s IH]; cbn [JS.splitBy]; [done|].
  destruct (sep c); [done|]. by destruct (JS.splitBy sep s).
Qed.

(** No piece of a split holds a separator. *)
Lemma splitBy_pieces (sep : ascii -> bool) (s : string) :
  Forall (fun piece => JS.allChars (fun c => negb (sep c)) piece = true)
         (JS.splitBy sep s).
Proof.
  induction s as [|c s IH]; cbn [JS.splitBy].
  - by repeat constructor.
  - destruct (sep c) eqn:Hc; [by constructor|].
    destruct (JS.splitBy sep s) as [|piece pieces]; inversion IH; subst.
    + repeat constructor. cbn. by rewrite Hc.
    + constructor; [|done]. cbn [JS.allChars]. by rewrite Hc.
Qed.

(** A string without separators is its own single piece. *)
Lemma splitBy_single (sep : ascii -> bool) (s : string) :
  JS.allChars (fun c => negb (sep c)) s = true -> JS.splitBy sep s = [s].
Proof.
  induction s as [|c s IH]; cbn [JS.splitBy JS.allChars]; [done|].
  rewrite andb_true_iff, negb_true_iff. intros [-> Hs]. by rewrite (IH Hs).
Qed.

Lemma segments_pieces (p : string) :
  Forall (fun piece =>
            JS.truthy piece = true
            /\ JS.allChars (fun c => negb (Ascii.eqb "/" c)) piece = true)
         (segments p).
Proof.
  unfold segments, JS.filterBoolean, JS.split.
  apply List.Forall_forall. intros piece Hin.
  apply filter_In in Hin as [Hin Htruthy]. split; [done|].
  pose proof (splitBy_pieces (Ascii.eqb "/") p) as Hall.
  rewrite List.Forall_forall in Hall. by apply Hall.
Qed.

Lemma segments_root (first : string) :
  JS.truthy first = true ->
  JS.allChars (fun c => negb (Ascii.eqb "/" c)) first = true ->
  segments ("/" +:+ first) = [first].
Proof.
  intros Htruthy Hclean. unfold segments, JS.split.
  change ("/" +:+ first) with (String "/" first). cbn [JS.splitBy].
  change (Ascii.eqb "/" "/") with true. cbn match.
  rewrite splitBy_single by done.
  unfold JS.filterBoolean. cbn [List.filter JS.truthy]. by rewrite Htruthy.
Qed.

(** ** Section roots *)

Lemma sectionRoot_Some (p root : string) :
  sectionRoot p = Some root <->
  JS.startsWith p "/" = true
  /\ exists first rest,
       segments p = first :: rest /\ length rest <= 2
       /\ root = "/" +:+ first.
Proof.
  unfold sectionRoot. split.
  - destruct (JS.startsWith p "/"); [|done]. cbn [andb].
    destruct (negb (String.eqb p "/")); [|done].
    destruct (segments p) as [|first rest] eqn:Hseg; cbn [length].
    + by cbn.
    + destruct (_ && _) eqn:Hlen; [|done].
      apply andb_true_iff in Hlen as [_ Hlen]. apply Nat.leb_le in Hlen.
      intros [= <-]. split; [done|]. exists first, rest.
      split; [done | split; [lia | done]].
  - intros (-> & first & rest & Hseg & Hlen & ->). cbn [andb].
    destruct (String.eqb p "/") eqn:Hp.
    + apply String.eqb_eq in Hp. subst p. discriminate Hseg.
    + cbn [negb]. rewrite Hseg. cbn [length].
      destruct (_ && _) eqn:Hbound; [done|]. exfalso.
      apply andb_false_iff in Hbound as [Hb | Hb];
        apply Nat.leb_gt in Hb; lia.
Qed.

(** A path with more than three segments has no section root. *)
Lemma sectionRoot_deep (p : string) :
  3 < length (segments p) -> sectionRoot p = None.
Proof.
  intros Hdeep. destruct (sectionRoot p) as [root|] eqn:Hroot; [|done].
  apply sectionRoot_Some in Hroot as (_ & first & rest & Hseg & Hlen & _).
  rewrite Hseg in Hdeep. cbn [length] in Hdeep. lia.
Qed.

(** A section root is its own section root. *)
Lemma sectionRoot_idem (p root : string) :
  sectionRoot p = Some root -> sectionRoot root = Some root.
Proof.
  intros Hroot.
  apply sectionRoot_Some in Hroot as (_ & first & rest & Hseg & _ & ->).
  pose proof (segments_pieces p) as Hall. rewrite Hseg in Hall.
  inversion Hall as [|? ? [Htruthy Hclean] _]; subst.
  apply sectionRoot_Some. split.
  - apply prefix_spec. by exists first.
  - exists first, []. rewrite segments_root by done.
    split; [done | split; [cbn; lia | done]].
Qed.

(** Every keyword is a non-empty string, so a keyword that was found is
    truthy. *)
Lemma foundKeyword_truthy (link : Link) (keyword : string) :
  foundKeyword link = Some keyword -> JS.truthy keyword = true.
Proof.
  unfold foundKeyword. intros Hfind. apply find_some in Hfind as [Hin _].
  cbn in Hin. repeat (destruct Hin as [<- | Hin]; [done|]). done.
Qed.

(** ** Blog section heuristic *)

Lemma arrayIncludes_spec (xs : list string) (x : string) :
  JS.arrayIncludes xs x = true <-> x ∈ xs.
Proof.
  unfold JS.arrayIncludes. rewrite existsb_exists. split.
  - intros (y & Hin & Heq). apply String.eqb_eq in Heq. subst y.
    by apply list_elem_of_In.
  - intros Hin. exists x. split; [by apply list_elem_of_In|].
    apply String.eqb_refl.
Qed.

Lemma elem_of_setAdd (s : list string) (x y : string) :
  y ∈ setAdd s x <-> y ∈ s \/ y = x.
Proof.
  unfold setAdd. destruct (JS.arrayIncludes s x) eqn:Hin.
  - apply arrayIncludes_spec in Hin. split; [by left|].
    intros [? | ->]; done.
  - rewrite elem_of_app, list_elem_of_singleton. done.
Qed.

Lemma setAdd_NoDup (s : list string) (x : string) :
  NoDup s -> NoDup (setAdd s x).
Proof.
  intros Hs. unfold setAdd. destruct (JS.arrayIncludes s x) eqn:Hin; [done|].
  apply NoDup_app. split; [done|]. split; [|apply NoDup_singleton].
  intros y Hy ->%list_elem_of_singleton.
  apply arrayIncludes_spec in Hy. congruence.
Qed.

Section BlogSections.

Context (P : Platform).

(** What one iteration does to a link that matches a keyword and has a
    section root. *)
Lemma visitLink_eligible (st : list string * gset string) (link : Link)
    (root : string) :
  is_Some (foundKeyword link) ->
  sectionRoot (path link) = Some root ->
  visitLink st link
  = if bool_decide (path link ∈ st.2) || bool_decide (root ∈ st.2) then st
    else (setAdd st.1 root, {[ path link ]} ∪ ({[ root ]} ∪ st.2)).
Proof.
  intros [keyword Hkey] Hroot. destruct st as [blogPaths seenPaths].
  unfold visitLink. cbn [fst snd].
  destruct (bool_decide (path link ∈ seenPaths)); [done|].
  rewrite Hkey, (foundKeyword_truthy _ _ Hkey), Hroot. cbn [orb].
  by destruct (bool_decide (root ∈ seenPaths)).
Qed.

(** Every other link leaves the state as it is. *)
Lemma visitLink_other (st : list string * gset string) (link : Link) :
  foundKeyword link = None \/ sectionRoot (path link) = None ->
  visitLink st link = st.
Proof.
  destruct st as [blogPaths seenPaths]. unfold visitLink.
  destruct (bool_decide (path link ∈ seenPaths)); [done|].
  intros [-> | Hroot]; [done|].
  destruct (foundKeyword link) as [keyword|]; [|done].
  rewrite Hroot. by destruct (JS.truthy keyword).
Qed.

Lemma visitLink_cases (st : list string * gset string) (link : Link) :
  visitLink st link = st
  \/ exists root,
       is_Some (foundKeyword link) /\ sectionRoot (path link) = Some root
       /\ visitLink st link
          = (setAdd st.1 root, {[ path link ]} ∪ ({[ root ]} ∪ st.2)).
Proof.
  destruct (foundKeyword link) as [keyword|] eqn:Hkey;
    [|left; apply visitLink_other; by left].
  destruct (sectionRoot (path link)) as [root|] eqn:Hroot;
    [|left; apply visitLink_other; by right].
  rewrite (visitLink_eligible st link root) by (by eauto).
  destruct (_ || _); [by left|]. right. exists root. eauto.
Qed.

(** The roots found so far are kept. *)
Lemma visitLink_mono (st : list string * gset string) (link : Link) (p : string) :
  p ∈ st.1 -> p ∈ (visitLink st link).1.
Proof.
  intros Hp. destruct (visitLink_cases st link) as [-> | (root & _ & _ & ->)];
    [done|].
  apply elem_of_setAdd. by left.
Qed.

Lemma visitLinks_mono (links : list Link) (st : list string * gset string)
    (p : string) :
  p ∈ st.1 -> p ∈ (foldl visitLink st links).1.
Proof.
  revert st. induction links as [|link links IH]; intros st Hp; cbn [foldl];
    [done|].
  by apply IH, visitLink_mono.
Qed.

Lemma visitLink_covered (st : list string * gset string) (link : Link) :
  seenCovered st -> seenCovered (visitLink st link).
Proof.
  intros Hcov.
  destruct (visitLink_cases st link) as [-> | (root & _ & Hroot & ->)];
    [done|].
  intros q Hq. cbn [fst snd] in *.
  apply elem_of_union in Hq as [Hq | Hq]; [|apply elem_of_union in Hq as [Hq | Hq]].
  - apply elem_of_singleton in Hq. subst q. exists root.
    split; [done|]. apply elem_of_setAdd. by right.
  - apply elem_of_singleton in Hq. subst q. exists root.
    split; [by apply (sectionRoot_idem (path link))|].
    apply elem_of_setAdd. by right.
  - destruct (Hcov q Hq) as (root' & Hroot' & Hin). exists root'.
    split; [done|]. apply elem_of_setAdd. by left.
Qed.

Lemma visitLinks_covered (links : list Link) (st : list string * gset string) :
  seenCovered st -> seenCovered (foldl visitLink st links).
Proof.
  revert st. induction links as [|link links IH]; intros st Hcov; cbn [foldl];
    [done|].
  by apply IH, visitLink_covered.
Qed.

(** Under the invariant, an eligible link has its root among the roots
    once it has been visited. *)
Lemma visitLink_reaches (st : list string * gset string) (link : Link)
    (root : string) :
  seenCovered st ->
  is_Some (foundKeyword link) ->
  sectionRoot (path link) = Some root ->
  root ∈ (visitLink st link).1.
Proof.
  intros Hcov Hkey Hroot. rewrite (visitLink_eligible st link root) by done.
  destruct (bool_decide (path link ∈ st.2)) eqn:Hpath; cbn [orb].
  - apply bool_decide_eq_true in Hpath.
    destruct (Hcov _ Hpath) as (root' & Hroot' & Hin). congruence.
  - destruct (bool_decide (root ∈ st.2)) eqn:Hseen.
    + apply bool_decide_eq_true in Hseen.
      destruct (Hcov _ Hseen) as (root' & Hroot' & Hin).
      rewrite (sectionRoot_idem _ _ Hroot) in Hroot'. congruence.
    + apply elem_of_setAdd. by right.
Qed.

(** Every root found comes from an eligible link. *)
Lemma visitLinks_origin (links : list Link) (st : list string * gset string)
    (p : string) :
  p ∈ (foldl visitLink st links).1 ->
  p ∈ st.1
  \/ exists link, link ∈ links /\ is_Some (foundKeyword link)
                  /\ sectionRoot (path link) = Some p.
Proof.
  revert st. induction links as [|link links IH]; intros st Hp; cbn [foldl] in Hp;
    [by left|].
  destruct (IH _ Hp) as [Hin | (link' & Hin & Hkey & Hroot)].
  - destruct (visitLink_cases st link) as [Heq | (root & Hkey & Hroot & Heq)];
      rewrite Heq in Hin; [by left|].
    apply elem_of_setAdd in Hin as [Hin | ->]; [by left|].
    right. exists link. split; [apply elem_of_cons; by left | done].
  - right. exists link'. split; [apply elem_of_cons; by right | done].
Qed.

Lemma visitLinks_NoDup (links : list Link) (st : list string * gset string) :
  NoDup st.1 -> NoDup (foldl visitLink st links).1.
Proof.
  revert st. induction links as [|link links IH]; intros st Hst; cbn [foldl];
    [done|].
  apply IH.
  destruct (visitLink_cases st link) as [-> | (root & _ & _ & ->)]; [done|].
  by apply setAdd_NoDup.
Qed.

Lemma extract_reaches (html baseUrl : string) (link : Link) (root : string) :
  link ∈ linkTextAndUrls P html baseUrl ->
  is_Some (foundKeyword link) ->
  sectionRoot (path link) = Some root ->
  root ∈ extractBlogLinksFromHTML P html baseUrl.
Proof.
  intros Hin Hkey Hroot. unfold extractBlogLinksFromHTML.
  apply list_elem_of_split in Hin as (before & after & ->).
  rewrite foldl_app. cbn [foldl]. apply visitLinks_mono.
  apply visitLink_reaches; [|done..].
  apply visitLinks_covered. intros q Hq. by apply elem_of_empty in Hq.
Qed.

Lemma extract_origin (html baseUrl : string) (p : string) :
  p ∈ extractBlogLinksFromHTML P html baseUrl ->
  exists link, link ∈ linkTextAndUrls P html baseUrl
               /\ is_Some (foundKeyword link)
               /\ sectionRoot (path link) = Some p.
Proof.
  intros Hp. apply visitLinks_origin in Hp as [Hp | Hp]; [|done].
  by apply elem_of_nil in Hp.
Qed.

Lemma extract_NoDup (html baseUrl : string) :
  NoDup (extractBlogLinksFromHTML P html baseUrl).
Proof. apply visitLinks_NoDup. constructor. Qed.

Lemma sameOriginLink_Some (baseUrl : string) (el : Anchor) (link : Link) :
  sameOriginLink P baseUrl el = Some link ->
  exists u b,
    newURL P (a_href el) (Some baseUrl) = Some u
    /\ newURL P baseUrl None = Some b
    /\ origin u = origin b
    /\ path link = pathname u.
Proof.
  unfold sameOriginLink. destruct (JS.truthy (a_href el)); [|done].
  destruct (newURL P (a_href el) (Some baseUrl)) as [u|]; [|done].
  destruct (newURL P baseUrl None) as [b|]; [|done].
  destruct (String.eqb (origin u) (origin b)) eqn:Horigin; [|done].
  apply String.eqb_eq in Horigin. intros [= <-]. by exists u, b.
Qed.

Lemma sameOriginLink_cross (baseUrl : string) (el : Anchor) :
  (forall u b,
      newURL P (a_href el) (Some baseUrl) = Some u ->
      newURL P baseUrl None = Some b ->
      origin u <> origin b) ->
  sameOriginLink P baseUrl el = None.
Proof.
  intros Hcross. destruct (sameOriginLink P baseUrl el) as [link|] eqn:Hlink;
    [|done].
  apply sameOriginLink_Some in Hlink as (u & b & Hu & Hb & Horigin & _).
  by destruct (Hcross u b Hu Hb).
Qed.

End BlogSections.

Section BlogSectionClaims.

Context (P : Platform).

(** C7: a same-origin anchor whose path matches a keyword and has one to
    three segments has [/] + its first segment among the section roots of
    the page, and the loop adds that root exactly when neither the path nor
    the root was seen before; a link whose path has more than three
    segments leaves the state of the loop as it is, and every section root
    of the page is [/] + the first segment of a keyword-matched same-origin
    link with at most three segments. *)
Theorem section_root_from_first_segment (html baseUrl : string) :
  (forall (link : Link),
      link ∈ linkTextAndUrls P html baseUrl ->
      is_Some (foundKeyword link) ->
      JS.startsWith (path link) "/" = true ->
      1 <= length (segments (path link)) <= 3 ->
      exists first,
        head (segments (path link)) = Some first
        /\ "/" +:+ first ∈ extractBlogLinksFromHTML P html baseUrl
        /\ forall st : list string * gset string,
             visitLink st link
             = if bool_decide (path link ∈ st.2)
                  || bool_decide ("/" +:+ first ∈ st.2)
               then st
               else (setAdd st.1 ("/" +:+ first),
                     {[ path link ]} ∪ ({[ "/" +:+ first ]} ∪ st.2)))
  /\ (forall (st : list string * gset string) (link : Link),
         3 < length (segments (path link)) -> visitLink st link = st)
  /\ (forall p : string,
         p ∈ extractBlogLinksFromHTML P html baseUrl ->
         exists link first,
           link ∈ linkTextAndUrls P html baseUrl
           /\ is_Some (foundKeyword link)
           /\ head (segments (path link)) = Some first
           /\ length (segments (path link)) <= 3
           /\ p = "/" +:+ first).
Proof.
  split; [|split].
  - intros link Hin Hkey Hslash [Hlow Hhigh].
    destruct (segments (path link)) as [|first rest] eqn:Hseg;
      cbn [length] in *; [lia|].
    assert (Hroot : sectionRoot (path link) = Some ("/" +:+ first)).
    { apply sectionRoot_Some. split; [done|]. exists first, rest.
      split; [done | split; [lia | done]]. }
    exists first. split; [done|]. split.
    + by apply (extract_reaches P html baseUrl link).
    + intros st. by apply visitLink_eligible.
  - intros st link Hdeep. apply visitLink_other. right.
    by apply sectionRoot_deep.
  - intros p Hp.
    apply extract_origin in Hp as (link & Hin & Hkey & Hroot).
    apply sectionRoot_Some in Hroot as (_ & first & rest & Hseg & Hlen & ->).
    exists link, first. rewrite Hseg. cbn [length head].
    repeat split; [done | done | lia].
Qed.

(** C9: every section root of a page comes from an anchor of the page whose
    resolved URL has the origin of the base URL, and taking an anchor that
    resolves to another origin out of the page changes nothing. *)
Theorem section_roots_same_origin (html baseUrl : string) :
  (forall p : string,
      p ∈ extractBlogLinksFromHTML P html baseUrl ->
      exists el u b,
        el ∈ anchorsOf P html
        /\ newURL P (a_href el) (Some baseUrl) = Some u
        /\ newURL P baseUrl None = Some b
        /\ origin u = origin b
        /\ sectionRoot (pathname u) = Some p)
  /\ (forall (html' : string) (before after : list Anchor) (el : Anchor),
         anchorsOf P html = before ++ el :: after ->
         anchorsOf P html' = before ++ after ->
         (forall u b,
             newURL P (a_href el) (Some baseUrl) = Some u ->
             newURL P baseUrl None = Some b ->
             origin u <> origin b) ->
         extractBlogLinksFromHTML P html baseUrl
         = extractBlogLinksFromHTML P html' baseUrl).
Proof.
  split.
  - intros p Hp.
    apply extract_origin in Hp as (link & Hin & _ & Hroot).
    apply list_elem_of_omap in Hin as (el & Hel & Hlink).
    apply sameOriginLink_Some in Hlink as (u & b & Hu & Hb & Horigin & Hpath).
    exists el, u, b. rewrite <- Hpath. done.
  - intros html' before after el Hpage Hpage' Hcross.
    unfold extractBlogLinksFromHTML, linkTextAndUrls.
    rewrite Hpage, Hpage', !omap_app. cbn [omap list_omap].
    by rewrite (sameOriginLink_cross P baseUrl el Hcross).
Qed.

End BlogSectionClaims.

(** On the navigation page of the fixtures, the link to [/blog] yields the
    root [/blog]; the links with four segments yield nothing. *)
Lemma section_root_from_first_segment_witness :
  exists first,
    head (segments "/blog") = Some first
    /\ "/" +:+ first
       ∈ extractBlogLinksFromHTML Fixtures.pages Fixtures.navPage
           "https://good.example"
    /\ forall st : list string * gset string,
         visitLink st {| text := "blog"; path := "/blog";
                         href := "https://good.example/blog" |}
         = if bool_decide ("/blog" ∈ st.2) || bool_decide ("/" +:+ first ∈ st.2)
           then st
           else (setAdd st.1 ("/" +:+ first),
                 {[ "/blog" ]} ∪ ({[ "/" +:+ first ]} ∪ st.2)).
Proof.
  apply (proj1 (section_root_from_first_segment Fixtures.pages
                  Fixtures.navPage "https://good.example")
           {| text := "blog"; path := "/blog";
              href := "https://good.example/blog" |}).
  - vm_compute. apply elem_of_cons. by left.
  - by eexists.
  - reflexivity.
  - vm_compute. lia.
Defined.

(** On the navigation page of the fixtures, the root [/blog] comes from a
    same-origin anchor, and the page without the anchor to the other site
    has the same roots. *)
Lemma section_roots_same_origin_witness :
  (exists el u b,
      el ∈ anchorsOf Fixtures.pages Fixtures.navPage
      /\ newURL Fixtures.pages (a_href el) (Some "https://good.example")
         = Some u
      /\ newURL Fixtures.pages "https://good.example" None = Some b
      /\ origin u = origin b
      /\ sectionRoot (pathname u) = Some "/blog")
  /\ extractBlogLinksFromHTML Fixtures.pages Fixtures.navPage
       "https://good.example"
     = extractBlogLinksFromHTML Fixtures.pages Fixtures.localNavPage
         "https://good.example".
Proof.
  split.
  - apply (proj1 (section_roots_same_origin Fixtures.pages Fixtures.navPage
                    "https://good.example")).
    vm_compute. apply elem_of_cons. by left.
  - apply (proj2 (section_roots_same_origin Fixtures.pages Fixtures.navPage
                    "https://good.example")
             Fixtures.localNavPage
             [ {| a_href := "/blog"; a_text := "Blog" |};
               {| a_href := "/blog/2024/05/hello"; a_text := "Hello" |} ]
             [ {| a_href := "/a/b/c/news"; a_text := "Deep" |} ]
             {| a_href := "https://other.example/news"; a_text := "News" |}).
    + reflexivity.
    + reflexivity.
    + intros u b Hu Hb. vm_compute in Hu, Hb.
      injection Hu as <-. injection Hb as <-. discriminate.
Defined.

(** ** Section discovery with an override list *)

Lemma filter_filter_comm {A} (f g : A -> bool) (l : list A) :
  List.filter f (List.filter g l) = List.filter g (List.filter f l).
Proof.
  induction l as [|x l IH]; cbn [List.filter]; [done|].
  destruct (f x) eqn:Hf, (g x) eqn:Hg; cbn [List.filter];
    rewrite ?Hf, ?Hg, IH; done.
Qed.

Lemma filter_absorb (p : string -> bool) (x : string) (l : list string) :
  p x = false ->
  List.filter p (List.filter (fun y => negb (String.eqb y x)) l)
  = List.filter p l.
Proof.
  intros Hx. induction l as [|y l IH]; cbn [List.filter]; [done|].
  destruct (String.eqb y x) eqn:Hy; cbn [negb List.filter].
  - apply String.eqb_eq in Hy. subst y. by rewrite Hx.
  - by rewrite IH.
Qed.

Lemma filter_firstOccurrences (p : string -> bool) (l : list string) :
  List.filter p (firstOccurrences l) = firstOccurrences (List.filter p l).
Proof.
  induction l as [|x l IH]; cbn [firstOccurrences List.filter]; [done|].
  destruct (p x) eqn:Hx; cbn [firstOccurrences].
  - by rewrite filter_filter_comm, IH.
  - by rewrite filter_absorb, IH.
Qed.

Lemma firstOccurrences_NoDup (l : list string) :
  NoDup l -> firstOccurrences l = l.
Proof.
  induction 1 as [|x l Hx Hl IH]; cbn [firstOccurrences]; [done|].
  rewrite IH. f_equal.
  clear IH Hl. induction l as [|y l IH]; cbn [List.filter]; [done|].
  apply not_elem_of_cons in Hx as [Hne Hx].
  destruct (String.eqb y x) eqn:Hy.
  - apply String.eqb_eq in Hy. congruence.
  - cbn [negb]. by rewrite (IH Hx).
Qed.

Lemma arrayIncludes_snoc (acc : list string) (x y : string) :
  negb (JS.arrayIncludes (acc ++ [x]) y)
  = negb (String.eqb y x) && negb (JS.arrayIncludes acc y).
Proof.
  unfold JS.arrayIncludes. rewrite existsb_app. cbn [existsb].
  rewrite orb_false_r, negb_orb. apply andb_comm.
Qed.

(** Pushing the entries of a list that are not there yet appends the new
    ones, each once, in their order. *)
Lemma pushNew_fold (xs acc : list string) :
  foldl pushNew acc xs
  = acc ++ firstOccurrences
             (List.filter (fun p => negb (JS.arrayIncludes acc p)) xs).
Proof.
  revert acc. induction xs as [|x xs IH]; intros acc;
    cbn [foldl List.filter firstOccurrences].
  - by rewrite app_nil_r.
  - rewrite IH. unfold pushNew.
    destruct (JS.arrayIncludes acc x) eqn:Hin; cbn [negb]; [done|].
    cbn [firstOccurrences]. rewrite <- app_assoc. cbn [app]. do 2 f_equal.
    rewrite filter_firstOccurrences. f_equal.
    clear IH. induction xs as [|y xs IH]; cbn [List.filter]; [done|].
    rewrite arrayIncludes_snoc.
    destruct (JS.arrayIncludes acc y); cbn [negb andb List.filter].
    + rewrite andb_false_r. done.
    + rewrite andb_true_r. destruct (negb (String.eqb y x)); by rewrite IH.
Qed.

Section Override.

Context (P : Platform).

(** C6 (as amended): with an override list, the sections are the roots that
    the heuristic finds on the page, followed by the override entries that
    are not among them, each once and in their order, cut to [maxBlogs]
    entries; when the heuristic finds nothing (no page, or no matching
    link) and the override list has no repeats, they are exactly the
    override list cut to [maxBlogs] entries. *)
Theorem discoverBlogSubdirectories_override (o : CLIOptions)
    (baseUrl : string) (html : option string) (custom : list string) :
  customBlogPaths o = Some custom ->
  discoverBlogSubdirectories P o baseUrl html
  = take (Z.to_nat (maxBlogs o))
      (heuristicRoots P baseUrl html
       ++ firstOccurrences
            (List.filter
               (fun p => negb (JS.arrayIncludes (heuristicRoots P baseUrl html) p))
               custom))
  /\ (heuristicRoots P baseUrl html = [] -> NoDup custom ->
      discoverBlogSubdirectories P o baseUrl html
      = take (Z.to_nat (maxBlogs o)) custom).
Proof.
  intros Hcustom.
  assert (Heq : discoverBlogSubdirectories P o baseUrl html
                = take (Z.to_nat (maxBlogs o))
                    (foldl pushNew (heuristicRoots P baseUrl html) custom)).
  { unfold discoverBlogSubdirectories, JS.slice0.
    fold (heuristicRoots P baseUrl html). rewrite Hcustom.
    rewrite bool_decide_eq_true_2 by (by eexists).
    by rewrite orb_true_r. }
  rewrite Heq, pushNew_fold. split; [done|].
  intros -> Hnodup. cbn [app JS.arrayIncludes existsb negb].
  f_equal. rewrite <- (firstOccurrences_NoDup custom) at 2 by done.
  f_equal. clear. induction custom as [|x l IH]; cbn [List.filter]; [done|].
  by rewrite IH.
Qed.

End Override.

(** With the override [/custom1, /custom2] and no page, the sections are
    the override list; on the navigation page of the fixtures the root
    [/blog] comes first. *)
Lemma discoverBlogSubdirectories_override_witness :
  discoverBlogSubdirectories Fixtures.pages
    (setCustomBlogPaths ["/custom1"; "/custom2"] cliOptions)
    "https://good.example" (Some Fixtures.navPage)
  = ["/blog"; "/custom1"; "/custom2"]
  /\ discoverBlogSubdirectories Fixtures.pages
       (setCustomBlogPaths ["/custom1"; "/custom2"] cliOptions)
       "https://good.example" None
     = ["/custom1"; "/custom2"].
Proof.
  split.
  - apply (proj1 (discoverBlogSubdirectories_override Fixtures.pages
                    (setCustomBlogPaths ["/custom1"; "/custom2"] cliOptions)
                    "https://good.example" (Some Fixtures.navPage)
                    ["/custom1"; "/custom2"] eq_refl)).
  - apply (proj2 (discoverBlogSubdirectories_override Fixtures.pages
                    (setCustomBlogPaths ["/custom1"; "/custom2"] cliOptions)
                    "https://good.example" None
                    ["/custom1"; "/custom2"] eq_refl)).
    + reflexivity.
    + apply (bool_decide_unpack _). vm_compute. exact I.
Defined.

(** C6 as stated fails: with the override [/custom1, /custom2] and room for
    five sections, the navigation page of the fixtures yields [/blog] in
    front of the override list. *)
Lemma discoverBlogSubdirectories_not_only_override :
  let o := setCustomBlogPaths ["/custom1"; "/custom2"] cliOptions in
  customBlogPaths o = Some ["/custom1"; "/custom2"]
  /\ discoverBlogSubdirectories Fixtures.pages o "https://good.example"
       (Some Fixtures.navPage)
     = ["/blog"; "/custom1"; "/custom2"]
  /\ discoverBlogSubdirectories Fixtures.pages o "https://good.example"
       (Some Fixtures.navPage)
     <> take (Z.to_nat (maxBlogs o)) ["/custom1"; "/custom2"].
Proof. repeat split. vm_compute. discriminate. Qed.

(** ** Aggregation and exit code *)

Lemma errorTruthy_spec (result : DiscoveredResult) :
  errorTruthy result = true <-> reportsError result.
Proof.
  unfold errorTruthy, reportsError. destruct (error result) as [msg|].
  - split.
    + intros Hmsg. exists msg. split; [done|]. by intros ->.
    + intros (msg' & [= <-] & Hne). by destruct msg.
  - split; [done | by intros (msg & ? & _)].
Qed.

Lemma tally_fold (scanResults results : list DiscoveredResult) (total : nat)
    (hasError : bool) :
  foldl tally (results, total, hasError) scanResults
  = (results ++ scanResults, total + countedFeeds scanResults,
     hasError || existsb errorTruthy scanResults).
Proof.
  revert results total hasError.
  induction scanResults as [|r rs IH]; intros results total hasError;
    cbn [foldl].
  - unfold countedFeeds. cbn.
    by rewrite app_nil_r, Nat.add_0_r, orb_false_r.
  - unfold tally at 2. unfold countedFeeds in *. cbn [map sum_list existsb].
    destruct (errorTruthy r); rewrite IH, <- app_assoc; cbn [app].
    + by rewrite orb_true_r.
    + by rewrite Nat.add_assoc.
Qed.

Lemma summarize_eq (scanResults : list DiscoveredResult) :
  summarize scanResults
  = let hasError := existsb errorTruthy scanResults in
    let total := countedFeeds scanResults in
    ({| success := negb hasError;
        partialResults :=
          if hasError && (0 <? total)%nat then Some true else None;
        results := scanResults |},
     if hasError then 2%Z else if (total =? 0)%nat then 1%Z else 0%Z).
Proof. unfold summarize. by rewrite tally_fold. Qed.

Lemma existsb_errorTruthy (scanResults : list DiscoveredResult) :
  existsb errorTruthy scanResults = true <->
  exists r, r ∈ scanResults /\ reportsError r.
Proof.
  rewrite existsb_exists. split; intros (r & Hin & Herr); exists r;
    (split; [by apply list_elem_of_In | by apply errorTruthy_spec]).
Qed.

Lemma existsb_errorTruthy_false (scanResults : list DiscoveredResult) :
  existsb errorTruthy scanResults = false <->
  forall r, r ∈ scanResults -> ~ reportsError r.
Proof.
  split.
  - intros Hnone r Hin Herr.
    assert (existsb errorTruthy scanResults = true) as Hsome
      by (apply existsb_errorTruthy; eauto).
    congruence.
  - intros Hnone. destruct (existsb errorTruthy scanResults) eqn:Hsome; [|done].
    apply existsb_errorTruthy in Hsome as (r & Hin & Herr).
    by destruct (Hnone r Hin).
Qed.

(** Without a reported error, the counted feeds are all the feeds. *)
Lemma countedFeeds_zero (scanResults : list DiscoveredResult) :
  (forall r, r ∈ scanResults -> reportsError r -> feeds r = []) ->
  countedFeeds scanResults = 0 <->
  forall r, r ∈ scanResults -> feeds r = [].
Proof.
  unfold countedFeeds. induction scanResults as [|r rs IH]; intros Hshape.
  - cbn. split; [intros _ r Hin; by apply elem_of_nil in Hin | done].
  - cbn [map sum_list].
    assert (Hrs : forall r', r' ∈ rs -> reportsError r' -> feeds r' = []).
    { intros r' Hin. apply Hshape, elem_of_cons. by right. }
    specialize (IH Hrs). split.
    + intros Hsum r' Hin. apply elem_of_cons in Hin as [-> | Hin].
      * destruct (errorTruthy r) eqn:Herr.
        -- apply Hshape; [apply elem_of_cons; by left|].
           by apply errorTruthy_spec.
        -- destruct (feeds r); [done | cbn in Hsum; lia].
      * apply IH; [lia | done].
    + intros Hnone.
      rewrite (Hnone r) by (apply elem_of_cons; by left).
      assert (sum_list (map (fun r => if errorTruthy r then 0
                                      else length (feeds r)) rs) = 0) as ->.
      { apply IH. intros r' Hin. apply Hnone, elem_of_cons. by right. }
      by destruct (errorTruthy r).
Qed.

(** The exit code of the aggregation in terms of the results. *)
Lemma summarize_code (scanResults : list DiscoveredResult) :
  ((summarize scanResults).2 = 2%Z <->
   exists r, r ∈ scanResults /\ reportsError r)
  /\ ((summarize scanResults).2 = 1%Z <->
      (forall r, r ∈ scanResults -> ~ reportsError r)
      /\ forall r, r ∈ scanResults -> feeds r = [])
  /\ ((summarize scanResults).2 = 0%Z <->
      (forall r, r ∈ scanResults -> ~ reportsError r)
      /\ exists r, r ∈ scanResults /\ feeds r <> []).
Proof.
  rewrite summarize_eq. cbn [snd].
  destruct (existsb errorTruthy scanResults) eqn:Herr.
  - pose proof (proj1 (existsb_errorTruthy _) Herr) as (r & Hin & Hr).
    split; [split; eauto|]. split; (split; [done|]); intros [Hnone _];
      by destruct (Hnone r Hin).
  - pose proof (proj1 (existsb_errorTruthy_false _) Herr) as Hnone.
    assert (Hshape : forall r, r ∈ scanResults -> reportsError r -> feeds r = []).
    { intros r Hin Hr. by destruct (Hnone r Hin). }
    pose proof (countedFeeds_zero scanResults Hshape) as Hzero.
    destruct (countedFeeds scanResults =? 0)%nat eqn:Htotal.
    + apply Nat.eqb_eq in Htotal. pose proof (proj1 Hzero Htotal) as Hall.
      split; [|split].
      * split; [done|]. intros (r & Hin & Hr). by destruct (Hnone r Hin).
      * split; [done | done].
      * split; [done|]. intros [_ (r & Hin & Hr)]. destruct (Hr (Hall r Hin)).
    + apply Nat.eqb_neq in Htotal.
      split; [|split].
      * split; [done|]. intros (r & Hin & Hr). by destruct (Hnone r Hin).
      * split; [done|]. intros [_ Hall]. destruct Htotal. by apply Hzero.
      * split; [|done]. intros _. split; [done|].
        destruct (decide (Forall (fun r => feeds r = []) scanResults))
          as [Hall | Hsome].
        -- destruct Htotal. apply Hzero. by apply Forall_forall.
        -- apply not_Forall_Exists in Hsome; [|intros r; apply _].
           apply Exists_exists in Hsome as (r & Hin & Hr). eauto.
Qed.

(** [Promise.all] fulfils exactly when every call fulfils, with the values
    in order. *)
Lemma promiseAll_inr {A} (settled : list (Exn + A)) (values : list A) :
  promiseAll settled = inr values <-> settled = map inr values.
Proof.
  revert values. induction settled as [|[e | a] settled IH]; intros values.
  - destruct values; cbn; split; congruence.
  - destruct values; cbn; split; congruence.
  - cbn [promiseAll]. destruct (promiseAll settled) as [e | found].
    + split; [done|]. destruct values as [|v values]; [done|].
      cbn [map]. intros [= -> Hrest]. by apply IH in Hrest.
    + split.
      * intros [= <-]. cbn [map]. f_equal. by apply IH.
      * destruct values as [|v values]; [done|]. cbn [map].
        intros [= -> Hrest]. apply IH in Hrest. congruence.
Qed.

(** [Promise.all] rejects exactly when some call rejects. *)
Lemma promiseAll_inl {A} (settled : list (Exn + A)) :
  (exists e, promiseAll settled = inl e) <-> exists e, inl e ∈ settled.
Proof.
  induction settled as [|[e | a] settled IH].
  - cbn. split; intros [e He]; [done | by apply elem_of_nil in He].
  - cbn. split; intros _; exists e; [apply elem_of_cons; by left | done].
  - cbn [promiseAll]. split.
    + intros [e He]. destruct (promiseAll settled) as [e' | found]; [|done].
      destruct (proj1 IH) as [e'' Hin]; [by eexists|].
      exists e''. apply elem_of_cons. by right.
    + intros [e He]. apply elem_of_cons in He as [He | He]; [done|].
      destruct (proj2 IH) as [e' ->]; [by eexists|]. by eexists.
Qed.

Lemma mainWith_parse_error
    (scan : CLIOptions -> string -> Exn + DiscoveredResult)
    (o : CLIOptions) (args : list string) (e : Exn) (o' : CLIOptions) :
  parseArgs args o = (inl e, o') -> mainWith scan o args = (Nothing, 2%Z).
Proof. unfold mainWith. by intros ->. Qed.

Lemma mainWith_scans (scan : CLIOptions -> string -> Exn + DiscoveredResult)
    (o : CLIOptions) (args urls : list string) (o' : CLIOptions) :
  parseArgs args o = (inr urls, o') ->
  version o' = false -> help o' = false -> urls <> [] ->
  mainWith scan o args
  = match promiseAll (map (scan o') urls) with
    | inl _ => (Nothing, 2%Z)
    | inr scanResults =>
        (Report (summarize scanResults).1, (summarize scanResults).2)
    end.
Proof.
  unfold mainWith. intros -> -> -> Hurls.
  destruct urls as [|u urls]; [done|]. cbn [length Nat.eqb].
  destruct (promiseAll _); [done|]. by destruct (summarize _).
Qed.

(** A run in which a call of the coordinator rejects writes nothing to
    stdout and exits with 2. *)
Lemma mainWith_rejected (scan : CLIOptions -> string -> Exn + DiscoveredResult)
    (o : CLIOptions) (args urls : list string) (o' : CLIOptions)
    (u : string) (e : Exn) :
  parseArgs args o = (inr urls, o') ->
  version o' = false -> help o' = false ->
  u ∈ urls -> scan o' u = inl e ->
  mainWith scan o args = (Nothing, 2%Z).
Proof.
  intros Hparse Hversion Hhelp Hin Hscan.
  assert (Hurls : urls <> []) by (intros ->; by apply elem_of_nil in Hin).
  rewrite (mainWith_scans _ _ _ _ _ Hparse Hversion Hhelp Hurls).
  destruct (proj2 (promiseAll_inl (map (scan o') urls))) as [e' ->]; [|done].
  exists e. rewrite <- Hscan. by apply list_elem_of_fmap_2.
Qed.

(** A run in which every call of the coordinator fulfils prints the report
    of the results. *)
Lemma mainWith_fulfilled
    (scan : CLIOptions -> string -> Exn + DiscoveredResult)
    (o : CLIOptions) (args urls : list string) (o' : CLIOptions)
    (scanResults : list DiscoveredResult) :
  parseArgs args o = (inr urls, o') ->
  version o' = false -> help o' = false -> urls <> [] ->
  map (scan o') urls = map inr scanResults ->
  mainWith scan o args
  = (Report (summarize scanResults).1, (summarize scanResults).2).
Proof.
  intros Hparse Hversion Hhelp Hurls Hscans.
  rewrite (mainWith_scans _ _ _ _ _ Hparse Hversion Hhelp Hurls).
  by rewrite (proj2 (promiseAll_inr _ _) Hscans).
Qed.

(** C3 (as amended): the exit code of the process is 2 when the arguments
    do not parse; otherwise 0 when version or help was requested; otherwise
    2 when no URL was given; otherwise 2 when a call of the coordinator
    rejects; otherwise, with the results of the calls, 2 exactly when some
    result reports an error (whether or not feeds were found), 1 exactly
    when no result reports an error and no feed was found, and 0 exactly
    when no result reports an error and some feed was found. *)
Theorem exit_code (scan : CLIOptions -> string -> Exn + DiscoveredResult)
    (o : CLIOptions) (args : list string) :
  (forall e o', parseArgs args o = (inl e, o') ->
                (mainWith scan o args).2 = 2%Z)
  /\ (forall urls o',
         parseArgs args o = (inr urls, o') ->
         (version o' = true \/ help o' = true ->
          (mainWith scan o args).2 = 0%Z)
         /\ (version o' = false -> help o' = false -> urls = [] ->
             (mainWith scan o args).2 = 2%Z)
         /\ (version o' = false -> help o' = false -> urls <> [] ->
             (forall u e, u ∈ urls -> scan o' u = inl e ->
                          (mainWith scan o args).2 = 2%Z)
             /\ forall scanResults,
                  map (scan o') urls = map inr scanResults ->
                  ((mainWith scan o args).2 = 2%Z <->
                   exists r, r ∈ scanResults /\ reportsError r)
                  /\ ((mainWith scan o args).2 = 1%Z <->
                      (forall r, r ∈ scanResults -> ~ reportsError r)
                      /\ forall r, r ∈ scanResults -> feeds r = [])
                  /\ ((mainWith scan o args).2 = 0%Z <->
                      (forall r, r ∈ scanResults -> ~ reportsError r)
                      /\ exists r, r ∈ scanResults /\ feeds r <> []))).
Proof.
  split.
  - intros e o' Hparse. by rewrite (mainWith_parse_error _ _ _ _ _ Hparse).
  - intros urls o' Hparse. split; [|split].
    + unfold mainWith. rewrite Hparse.
      intros [-> | ->]; [done|]. by destruct (version o').
    + unfold mainWith. rewrite Hparse. by intros -> -> ->.
    + intros Hversion Hhelp Hurls. split.
      * intros u e Hin Hscan.
        by rewrite (mainWith_rejected _ _ _ _ _ _ _ Hparse Hversion Hhelp
                      Hin Hscan).
      * intros scanResults Hscans.
        rewrite (mainWith_fulfilled _ _ _ _ _ _ Hparse Hversion Hhelp Hurls
                   Hscans).
        apply summarize_code.
Qed.

(** With the stand-in coordinator of the fixtures, the run over a site with
    a feed and a site that times out exits with 2; a missing option value
    exits with 2 although help was requested before it; and with the
    coordinator of the program a timeout of 2^32, which no signal takes,
    exits with 2. *)
Lemma exit_code_witness :
  (mainWith Fixtures.stubScan cliOptions
     ["https://good.example"; "https://bad.example"]).2 = 2%Z
  /\ (mainWith Fixtures.stubScan cliOptions ["--help"; "--timeout"]).2 = 2%Z
  /\ (mainWith Fixtures.stubScan cliOptions ["--version"; "https://a.example"]).2
     = 0%Z
  /\ (mainWith (findRSSFeeds Fixtures.pages Fixtures.twoSites) cliOptions
        ["--timeout"; "4294967296"; "https://good.example"]).2 = 2%Z.
Proof.
  split; [|split; [|split]].
  - apply (proj2 (proj2 (proj2 (proj2 (exit_code Fixtures.stubScan cliOptions
               ["https://good.example"; "https://bad.example"])
             ["https://good.example"; "https://bad.example"] cliOptions
             eq_refl)) eq_refl eq_refl ltac:(discriminate))
           [ {| url := "https://good.example";
                feeds := [Fixtures.atomFeed "https://good.example"];
                error := None |};
             {| url := "https://bad.example"; feeds := [];
                error := Some "Timeout" |} ] eq_refl).
    eexists. split.
    + apply elem_of_cons. right. apply elem_of_cons. by left.
    + exists "Timeout". split; [reflexivity | discriminate].
  - apply (proj1 (exit_code Fixtures.stubScan cliOptions ["--help"; "--timeout"])
             (Error "--timeout requires a value") (setHelp cliOptions)).
    reflexivity.
  - apply (proj1 (proj2 (exit_code Fixtures.stubScan cliOptions
                           ["--version"; "https://a.example"])
                    ["https://a.example"] (setVersion cliOptions) eq_refl)).
    by left.
  - apply (proj1 (proj2 (proj2 (proj2 (exit_code
               (findRSSFeeds Fixtures.pages Fixtures.twoSites) cliOptions
               ["--timeout"; "4294967296"; "https://good.example"])
             ["https://good.example"] (setTimeout 4294967296 cliOptions)
             eq_refl)) eq_refl eq_refl ltac:(discriminate))
           "https://good.example" delayOutOfRange).
    + apply elem_of_cons. by left.
    + reflexivity.
Defined.

(** C3 as stated fails: a run in which one result carries an error and
    another holds a feed exits with 2, not with 0. *)
Lemma exit_code_error_with_feeds :
  let scanResults :=
    [ {| url := "https://good.example";
         feeds := [Fixtures.atomFeed "https://good.example"];
         error := None |};
      {| url := "https://bad.example"; feeds := []; error := Some "Timeout" |} ]
  in
  map (Fixtures.stubScan cliOptions)
      ["https://good.example"; "https://bad.example"] = map inr scanResults
  /\ (exists r, r ∈ scanResults /\ error r <> None)
  /\ (exists r, r ∈ scanResults /\ feeds r <> [])
  /\ (summarize scanResults).2 = 2%Z
  /\ (mainWith Fixtures.stubScan cliOptions
        ["https://good.example"; "https://bad.example"]).2 <> 0%Z.
Proof.
  cbv zeta. split; [reflexivity|]. split; [|split; [|split]].
  - eexists. split; [apply elem_of_cons; right; apply elem_of_cons; by left|].
    done.
  - eexists. split; [apply elem_of_cons; by left | done].
  - reflexivity.
  - vm_compute. discriminate.
Qed.

(** What the report says about any results of the shape that the
    coordinator returns: an error comes with a non-empty message and
    without feeds. *)
Lemma summarize_report (scanResults : list DiscoveredResult) :
  (forall r msg, r ∈ scanResults -> error r = Some msg ->
                 msg <> "" /\ feeds r = []) ->
  let output := (summarize scanResults).1 in
  results output = scanResults
  /\ (success output = true <->
      forall r, r ∈ results output -> error r = None)
  /\ (success output = false /\ (exists r, r ∈ results output /\ feeds r <> [])
      -> partialResults output = Some true)
  /\ (~ (success output = false
         /\ exists r, r ∈ results output /\ feeds r <> [])
      -> partialResults output = None).
Proof.
  intros Hshape. rewrite summarize_eq. cbn [fst success partialResults results].
  assert (Hzero : countedFeeds scanResults = 0
                  <-> forall r, r ∈ scanResults -> feeds r = []).
  { apply countedFeeds_zero. intros r Hin (msg & Hmsg & _).
    by destruct (Hshape r msg Hin Hmsg). }
  split; [done|].
  destruct (existsb errorTruthy scanResults) eqn:Herr; cbn [negb andb].
  - apply existsb_errorTruthy in Herr as (r & Hin & msg & Hmsg & _).
    split; [|split].
    + split; [done|]. intros Hnone. rewrite (Hnone r Hin) in Hmsg. done.
    + intros [_ (r' & Hin' & Hfeeds)].
      destruct (0 <? countedFeeds scanResults)%nat eqn:Htotal; [done|].
      apply Nat.ltb_ge in Htotal. destruct Hfeeds.
      apply Hzero; [lia | done].
    + intros Hnot.
      destruct (0 <? countedFeeds scanResults)%nat eqn:Htotal; [|done].
      apply Nat.ltb_lt in Htotal. destruct Hnot. split; [done|].
      destruct (decide (Forall (fun r => feeds r = []) scanResults))
        as [Hall | Hsome].
      * rewrite Forall_forall in Hall. apply Hzero in Hall. lia.
      * apply not_Forall_Exists in Hsome; [|intros r'; apply _].
        apply Exists_exists in Hsome as (r' & Hin' & Hr'). eauto.
  - split; [|split].
    + split; [|done]. intros _ r Hin.
      destruct (error r) as [msg|] eqn:Hmsg; [|done].
      destruct (Hshape r msg Hin Hmsg) as [Hne _].
      pose proof (proj1 (existsb_errorTruthy_false _) Herr r Hin) as Hnot.
      destruct Hnot. by exists msg.
    + by intros [? _].
    + done.
Qed.

(** ** The network and the site scanner *)

Section ScannerFacts.

Context (P : Platform) (net : Network).

Lemma fetch_cases (deadline : nat) (target : string) (now : nat) :
  (exists e later, fetch net deadline target now = (inl e, later))
  \/ (exists res,
        reply net target = Responds res
        /\ fetch net deadline target now = (inr res, now + latency net target)).
Proof.
  unfold fetch. destruct (deadline <=? now + latency net target)%nat; [eauto|].
  destruct (reply net target) as [e | res]; eauto.
Qed.

(** Before the deadline the network answers. *)
Lemma fetch_in_time (deadline : nat) (target : string) (now : nat)
    (res : Response) :
  now + latency net target < deadline ->
  reply net target = Responds res ->
  fetch net deadline target now = (inr res, now + latency net target).
Proof.
  intros Htime Hreply. unfold fetch.
  destruct (deadline <=? now + latency net target)%nat eqn:Hlate.
  - apply Nat.leb_le in Hlate. lia.
  - by rewrite Hreply.
Qed.

(** From the deadline on, a request is aborted by the signal. *)
Lemma fetch_late (deadline : nat) (target : string) (now : nat) :
  deadline <= now + latency net target ->
  fetch net deadline target now = (inl timeoutAbort, Nat.max now deadline).
Proof.
  intros Hlate. unfold fetch.
  destruct (deadline <=? now + latency net target)%nat eqn:Hcheck; [done|].
  apply Nat.leb_gt in Hcheck. lia.
Qed.

(** A request that the network rejects fails, before or at the deadline. *)
Lemma fetch_rejected (deadline : nat) (target : string) (now : nat) (e : Exn) :
  reply net target = Rejects e ->
  exists e' later, fetch net deadline target now = (inl e', later).
Proof.
  intros Hreply. unfold fetch. rewrite Hreply.
  destruct (deadline <=? now + latency net target)%nat; eauto.
Qed.

(** One candidate: the list of valid feeds is kept, or the candidate was
    served as a feed and is pushed. *)
Lemma validateCandidate_cases (deadline : nat) (validFeeds : list FeedResult)
    (candidate : string * FeedResult) (now : nat) :
  exists later,
    validateCandidate net deadline validFeeds candidate now
    = (inr validFeeds, later)
    \/ (validateCandidate net deadline validFeeds candidate now
        = (inr (validFeeds ++ [candidate.2]), later)
        /\ exists res,
             reply net candidate.1 = Responds res
             /\ ok res = true
             /\ validateFeed (body res) (orDefault (contentTypeHeader res) "")
                = true).
Proof.
  destruct candidate as [feedUrl feed].
  unfold validateCandidate, tryCatch, awaitThen. cbn [fst snd].
  destruct (fetch_cases deadline feedUrl now)
    as [(e & later & ->) | (res & Hreply & ->)].
  - exists later. by left.
  - exists (now + latency net feedUrl).
    destruct (ok res) eqn:Hok; [|by left].
    destruct (validateFeed _ _) eqn:Hvalid; [|by left].
    right. split; [done|]. by exists res.
Qed.

Lemma validateCandidate_in_time (deadline : nat) (validFeeds : list FeedResult)
    (feedUrl : string) (feed : FeedResult) (now : nat) (res : Response) :
  now + latency net feedUrl < deadline ->
  reply net feedUrl = Responds res ->
  ok res = true ->
  validateFeed (body res) (orDefault (contentTypeHeader res) "") = true ->
  validateCandidate net deadline validFeeds (feedUrl, feed) now
  = (inr (validFeeds ++ [feed]), now + latency net feedUrl).
Proof.
  intros Htime Hreply Hok Hvalid.
  unfold validateCandidate, tryCatch, awaitThen.
  rewrite (fetch_in_time _ _ _ _ Htime Hreply), Hok, Hvalid. done.
Qed.

(** The validation loop always settles with the feeds it started from
    followed by candidates that were served as feeds. *)
Lemma validateAll_settles (deadline : nat)
    (candidates : list (string * FeedResult)) :
  forall (validFeeds : list FeedResult) (now : nat),
  exists more later,
    validateAll net deadline candidates validFeeds now
    = (inr (validFeeds ++ more), later)
    /\ Forall (fun feed =>
                 exists k res,
                   (k, feed) ∈ candidates
                   /\ reply net k = Responds res
                   /\ ok res = true
                   /\ validateFeed (body res)
                        (orDefault (contentTypeHeader res) "") = true)
              more.
Proof.
  induction candidates as [|candidate rest IH]; intros validFeeds now.
  - exists [], now. cbn. by rewrite app_nil_r.
  - cbn [validateAll]. unfold awaitThen.
    destruct (validateCandidate_cases deadline validFeeds candidate now)
      as (t & [-> | [-> (res & Hreply & Hok & Hvalid)]]).
    + destruct (IH validFeeds t) as (more & later & -> & Hmore).
      exists more, later. split; [done|].
      eapply Forall_impl; [exact Hmore|].
      intros feed (k & res & Hin & ?). exists k, res.
      split; [apply elem_of_cons; by right | done].
    + destruct (IH (validFeeds ++ [candidate.2]) t) as (more & later & -> & Hmore).
      exists (candidate.2 :: more), later.
      split; [by rewrite <- app_assoc|].
      constructor.
      * exists candidate.1, res. split; [|done].
        apply elem_of_cons. left. by destruct candidate.
      * eapply Forall_impl; [exact Hmore|].
        intros feed (k & res' & Hin & ?). exists k, res'.
        split; [apply elem_of_cons; by right | done].
Qed.

(** A scan never throws, and each of its feeds is served as a feed. *)
Lemma scanURLForFeeds_settles (pageUrl : string) (deadline now : nat) :
  exists result later,
    scanURLForFeeds P net pageUrl deadline now = (inr result, later)
    /\ Forall (servedAsFeed net) (scan_feeds result).
Proof.
  unfold scanURLForFeeds, tryCatch, awaitThen.
  destruct (fetch_cases deadline pageUrl now)
    as [(e & later & ->) | (res & Hreply & ->)].
  - eexists _, _. split; [reflexivity | constructor].
  - destruct (ok res); cbn [negb].
    + destruct (validateAll_settles deadline
                  (discoveredFeeds P (body res) pageUrl) []
                  (now + latency net pageUrl))
        as (more & later & -> & Hmore).
      eexists _, _. split; [reflexivity|]. cbn [scan_feeds app].
      eapply Forall_impl; [exact Hmore|].
      intros feed (k & res' & Hin & Hserved).
      apply discoveredFeeds_key in Hin. subst k. by exists res'.
    + eexists _, _. split; [reflexivity | constructor].
Qed.

(** A scan whose page request fails yields no page and no feeds. *)
Lemma scanURLForFeeds_failed (pageUrl : string) (deadline now : nat) (e : Exn)
    (later : nat) :
  fetch net deadline pageUrl now = (inl e, later) ->
  scanURLForFeeds P net pageUrl deadline now
  = (inr {| html := None; scan_feeds := [] |}, later).
Proof.
  intros Hfetch. unfold scanURLForFeeds, tryCatch, awaitThen.
  by rewrite Hfetch.
Qed.

End ScannerFacts.

(** ** The coordinator *)

Lemma mergeFeeds_fold (allFeeds : list (string * FeedResult))
    (found : list FeedResult) :
  mergeFeeds allFeeds found = foldl insertAbsent allFeeds (map entryOf found).
Proof.
  unfold mergeFeeds. revert allFeeds.
  induction found as [|feed found IH]; intros allFeeds; cbn [foldl map];
    [done|].
  apply IH.
Qed.

Lemma mergeSettled_fold (settled : list (Exn + ScanResult))
    (allFeeds : list (string * FeedResult)) :
  foldl mergeSettled allFeeds settled
  = foldl insertAbsent allFeeds (map entryOf (settledFeeds settled)).
Proof.
  revert allFeeds. unfold settledFeeds.
  induction settled as [|result settled IH]; intros allFeeds;
    cbn [foldl map concat]; [done|].
  rewrite IH, map_app, foldl_app.
  destruct result as [e | value]; cbn [mergeSettled map foldl]; [done|].
  by rewrite mergeFeeds_fold.
Qed.

(** Entries under one key that is taken already change nothing. *)
Lemma insertAll_same_key (k : string) (cs m : list (string * FeedResult)) :
  mapHas m k = true ->
  Forall (fun c => c.1 = k) cs ->
  foldl insertAbsent m cs = m.
Proof.
  intros Hhas Hcs. induction Hcs as [|c cs Hc Hcs IH]; cbn [foldl]; [done|].
  unfold insertAbsent at 2. rewrite Hc, Hhas. cbn [negb]. exact IH.
Qed.

(** The values of a merged map are feeds that were merged, and no two of
    them share a URL. *)
Lemma merged_values (found : list FeedResult) :
  let merged := mapValues (foldl insertAbsent [] (map entryOf found)) in
  (forall feed, feed ∈ merged -> feed ∈ found)
  /\ NoDup (map feed_url merged).
Proof.
  cbv zeta. unfold mapValues.
  assert (Hkeys : forall k feed,
             (k, feed) ∈ foldl insertAbsent [] (map entryOf found) ->
             feed ∈ found /\ k = feed_url feed).
  { intros k feed Hin. apply insertAll_elem_of in Hin; [|constructor].
    destruct Hin as [Hin | [_ Hfirst]]; [by apply elem_of_nil in Hin|].
    unfold firstFor in Hfirst.
    destruct (List.find _ _) as [[k' feed']|] eqn:Hfind; [|done].
    apply find_some in Hfind as [Hin Hk]. cbn in Hk, Hfirst.
    apply String.eqb_eq in Hk. subst k'. injection Hfirst as ->.
    apply list_elem_of_In, list_elem_of_fmap in Hin as (f & [= -> ->] & Hin).
    done. }
  split.
  - intros feed Hin. apply list_elem_of_fmap in Hin as ([k f] & -> & Hin).
    by apply Hkeys in Hin as [? _].
  - pose proof (insertAll_NoDup (map entryOf found) [] (NoDup_nil_2 (A:=string))) as Hnodup.
    replace (map feed_url (map snd (foldl insertAbsent [] (map entryOf found))))
      with ((foldl insertAbsent [] (map entryOf found)).*1); [done|].
    induction (foldl insertAbsent [] (map entryOf found)) as [|[k f] m IH];
      [done|].
    cbn [map fmap list_fmap fst snd]. f_equal.
    + apply (Hkeys k f), elem_of_cons. by left.
    + apply IH.
      * intros k' f' Hin. apply Hkeys, elem_of_cons. by right.
      * by inversion Hnodup.
Qed.

Section CoordinatorFacts.

Context (P : Platform) (net : Network).

(** Scans run side by side all fulfil, each with feeds served as feeds. *)
Lemma allSettled_scans (blogURLs : list string) (deadline now : nat) :
  exists settled later,
    allSettled (map (fun blogUrl => scanURLForFeeds P net blogUrl deadline)
                    blogURLs) now
    = (inr settled, later)
    /\ Forall (servedAsFeed net) (settledFeeds settled).
Proof.
  unfold allSettled. eexists _, _. split; [reflexivity|].
  unfold settledFeeds. rewrite !map_map.
  induction blogURLs as [|blogUrl blogURLs IH]; cbn [map concat]; [constructor|].
  apply Forall_app. split; [|exact IH].
  destruct (scanURLForFeeds_settles P net blogUrl deadline now)
    as (result & later & -> & Hfeeds).
  exact Hfeeds.
Qed.

(** Scans run side by side settle with what each of them settles with. *)
Lemma allSettled_sectionScans (blogURLs : list string) (deadline now : nat) :
  (allSettled (map (fun blogUrl => scanURLForFeeds P net blogUrl deadline)
                   blogURLs) now).1
  = inr (sectionScans P net blogURLs deadline now).
Proof.
  unfold allSettled, sectionScans. cbn [fst]. by rewrite !map_map.
Qed.

Lemma sectionScans_served (blogURLs : list string) (deadline now : nat) :
  Forall (servedAsFeed net)
         (settledFeeds (sectionScans P net blogURLs deadline now)).
Proof.
  destruct (allSettled_scans blogURLs deadline now)
    as (settled & later & Hrun & Hserved).
  pose proof (allSettled_sectionScans blogURLs deadline now) as Heq.
  rewrite Hrun in Heq. cbn [fst] in Heq. by injection Heq as <-.
Qed.

(** The [try] block of the coordinator: after the root scan it throws what
    the section heuristic throws, and otherwise settles with the root
    scan's feeds merged with those of the section scans, under the input
    URL and without an error. *)
Lemma findRSSFeedsTry_run (o : CLIOptions) (baseUrl : string)
    (deadline now : nat) :
  exists rootScan rootEnd,
    scanURLForFeeds P net baseUrl deadline now = (inr rootScan, rootEnd)
    /\ Forall (servedAsFeed net) (scan_feeds rootScan)
    /\ match tryFault P o (html rootScan) with
       | Some e =>
           findRSSFeedsTry P net o baseUrl deadline now = (inl e, rootEnd)
       | None =>
           exists later,
             findRSSFeedsTry P net o baseUrl deadline now
             = (inr {| url := baseUrl;
                       feeds :=
                         firstByUrl
                           (scan_feeds rootScan
                            ++ settledFeeds
                                 (sectionScans P net
                                    (sectionURLs P o baseUrl (html rootScan))
                                    deadline rootEnd));
                       error := None |}, later)
       end.
Proof.
  destruct (scanURLForFeeds_settles P net baseUrl deadline now)
    as (rootScan & rootEnd & Hroot & Hserved).
  exists rootScan, rootEnd. split; [done|]. split; [done|].
  unfold findRSSFeedsTry, awaitThen, tryFault, sectionURLs, firstByUrl.
  rewrite Hroot.
  destruct (negb (skipBlogs o) && htmlTruthy (html rootScan)) eqn:Hblogs.
  - unfold discoverBlogSubdirectoriesCall.
    destruct (heuristicFault P (html rootScan)) as [e|]; [done|].
    unfold resolve at 1.
    destruct (0 <? length (discoverBlogSubdirectories P o baseUrl
                             (html rootScan)))%nat eqn:Hsome.
    + match goal with
      | |- context [allSettled (map _ ?urls) rootEnd] =>
          pose proof (allSettled_sectionScans urls deadline rootEnd) as Heq;
          destruct (allSettled (map (fun blogUrl =>
                                       scanURLForFeeds P net blogUrl deadline)
                                    urls) rootEnd) as [settled later]
      end.
      cbn [fst] in Heq. subst settled. exists later.
      unfold resolve. rewrite mergeSettled_fold, mergeFeeds_fold.
      by rewrite map_app, foldl_app.
    + apply Nat.ltb_ge in Hsome.
      destruct (discoverBlogSubdirectories P o baseUrl (html rootScan));
        [|cbn in Hsome; lia].
      exists rootEnd. cbn [omap sectionScans map settledFeeds concat].
      rewrite app_nil_r. unfold resolve. by rewrite mergeFeeds_fold.
  - exists rootEnd. cbn [sectionScans map settledFeeds concat].
    rewrite app_nil_r. unfold resolve. by rewrite mergeFeeds_fold.
Qed.

(** A timeout that the signal refuses rejects the call, and only that
    does. *)
Lemma findRSSFeeds_rejected (o : CLIOptions) (baseUrl : string) (e : Exn) :
  findRSSFeeds P net o baseUrl = inl e <->
  AbortSignal_timeout (timeout o) = inl e.
Proof.
  unfold findRSSFeeds.
  destruct (AbortSignal_timeout (timeout o)) as [e' | deadline];
    [split; intros [= ->]; reflexivity|].
  split; [|done].
  by destruct (findRSSFeedsTry P net o baseUrl deadline 0) as [[? | ?] ?].
Qed.

(** What the coordinator returns under a signal that fires after
    [deadline] milliseconds. *)
Lemma findRSSFeeds_result (o : CLIOptions) (baseUrl : string)
    (deadline : nat) :
  AbortSignal_timeout (timeout o) = inr deadline ->
  exists rootScan rootEnd,
    scanURLForFeeds P net baseUrl deadline 0 = (inr rootScan, rootEnd)
    /\ Forall (servedAsFeed net) (scan_feeds rootScan)
    /\ findRSSFeeds P net o baseUrl
       = inr match tryFault P o (html rootScan) with
             | Some e =>
                 {| url := baseUrl; feeds := [];
                    error := Some (errorMessageOf e) |}
             | None =>
                 {| url := baseUrl;
                    feeds :=
                      firstByUrl
                        (scan_feeds rootScan
                         ++ settledFeeds
                              (sectionScans P net
                                 (sectionURLs P o baseUrl (html rootScan))
                                 deadline rootEnd));
                    error := None |}
             end.
Proof.
  intros Hsignal.
  destruct (findRSSFeedsTry_run o baseUrl deadline 0)
    as (rootScan & rootEnd & Hroot & Hserved & Hrun).
  exists rootScan, rootEnd. split; [done|]. split; [done|].
  unfold findRSSFeeds. rewrite Hsignal.
  destruct (tryFault P o (html rootScan)) as [e|].
  - by rewrite Hrun.
  - destruct Hrun as [later ->]. done.
Qed.

(** The coordinator always gives the input URL, and it reports an error
    only for an exception of the section heuristic. *)
Lemma findRSSFeeds_error (o : CLIOptions) (baseUrl : string)
    (result : DiscoveredResult) :
  findRSSFeeds P net o baseUrl = inr result ->
  url result = baseUrl
  /\ forall msg,
       error result = Some msg ->
       feeds result = []
       /\ exists page e,
            skipBlogs o = false /\ anchorsFault P page = Some e
            /\ msg = errorMessageOf e.
Proof.
  intros Hrun.
  destruct (AbortSignal_timeout (timeout o)) as [e | deadline] eqn:Hsignal.
  { apply (findRSSFeeds_rejected o baseUrl) in Hsignal. congruence. }
  destruct (findRSSFeeds_result o baseUrl deadline Hsignal)
    as (rootScan & rootEnd & _ & _ & Hresult).
  rewrite Hresult in Hrun. injection Hrun as <-.
  unfold tryFault, heuristicFault.
  destruct (negb (skipBlogs o)) eqn:Hskip; cbn [andb]; [|done].
  apply negb_true_iff in Hskip.
  destruct (html rootScan) as [page|]; cbn [htmlTruthy]; [|done].
  destruct (JS.truthy page); [|done].
  destruct (anchorsFault P page) as [e|] eqn:Hfault; [|done].
  cbn [url error feeds]. split; [done|]. intros msg [= <-].
  split; [done|]. by exists page, e.
Qed.

(** Its feeds are served as feeds, and no two of them share a URL. *)
Lemma findRSSFeeds_feeds (o : CLIOptions) (baseUrl : string)
    (result : DiscoveredResult) :
  findRSSFeeds P net o baseUrl = inr result ->
  Forall (servedAsFeed net) (feeds result)
  /\ NoDup (map feed_url (feeds result)).
Proof.
  intros Hrun.
  destruct (AbortSignal_timeout (timeout o)) as [e | deadline] eqn:Hsignal.
  { apply (findRSSFeeds_rejected o baseUrl) in Hsignal. congruence. }
  destruct (findRSSFeeds_result o baseUrl deadline Hsignal)
    as (rootScan & rootEnd & _ & Hserved & Hresult).
  rewrite Hresult in Hrun. injection Hrun as <-.
  destruct (tryFault P o (html rootScan)) as [e|]; cbn [feeds].
  { split; constructor. }
  match goal with
  | |- context [firstByUrl ?found] =>
      destruct (merged_values found) as [Hin Hnodup]
  end.
  split; [|done]. apply Forall_forall. intros feed Hfeed.
  apply Hin, elem_of_app in Hfeed as [Hfeed | Hfeed].
  - rewrite Forall_forall in Hserved. by apply Hserved.
  - pose proof (sectionScans_served
                  (sectionURLs P o baseUrl (html rootScan)) deadline rootEnd)
      as Hsections.
    rewrite Forall_forall in Hsections. by apply Hsections.
Qed.

(** A root scan that returns no page ends the work: no feeds, no error. *)
Lemma findRSSFeeds_no_page (o : CLIOptions) (baseUrl : string)
    (deadline rootEnd : nat) :
  AbortSignal_timeout (timeout o) = inr deadline ->
  scanURLForFeeds P net baseUrl deadline 0
  = (inr {| html := None; scan_feeds := [] |}, rootEnd) ->
  findRSSFeeds P net o baseUrl
  = inr {| url := baseUrl; feeds := []; error := None |}.
Proof.
  intros Hsignal Hscan.
  destruct (findRSSFeeds_result o baseUrl deadline Hsignal)
    as (rootScan & rootEnd' & Hroot & _ & ->).
  rewrite Hscan in Hroot. injection Hroot as <- <-.
  unfold tryFault, sectionURLs. cbn [html htmlTruthy scan_feeds].
  by rewrite andb_false_r.
Qed.

(** A site whose root page cannot be fetched: no feeds, and no error. *)
Lemma findRSSFeeds_unreachable (o : CLIOptions) (baseUrl : string) (e : Exn)
    (deadline : nat) :
  AbortSignal_timeout (timeout o) = inr deadline ->
  reply net baseUrl = Rejects e ->
  findRSSFeeds P net o baseUrl
  = inr {| url := baseUrl; feeds := []; error := None |}.
Proof.
  intros Hsignal Hreply.
  destruct (fetch_rejected net deadline baseUrl 0 e Hreply)
    as (e' & later & Hfetch).
  apply (findRSSFeeds_no_page o baseUrl deadline later Hsignal).
  apply (scanURLForFeeds_failed P net _ _ _ _ _ Hfetch).
Qed.

(** A site whose root page does not arrive before the deadline: the abort
    is absorbed by the scanner, and the coordinator returns no feeds and
    no error. *)
Lemma findRSSFeeds_root_aborted (o : CLIOptions) (baseUrl : string)
    (deadline : nat) :
  AbortSignal_timeout (timeout o) = inr deadline ->
  deadline <= latency net baseUrl ->
  fetch net deadline baseUrl 0 = (inl timeoutAbort, deadline)
  /\ findRSSFeeds P net o baseUrl
     = inr {| url := baseUrl; feeds := []; error := None |}.
Proof.
  intros Hsignal Hlate.
  assert (Hfetch : fetch net deadline baseUrl 0
                   = (inl timeoutAbort, deadline)).
  { rewrite fetch_late by (cbn; lia). by rewrite Nat.max_0_l. }
  split; [done|].
  apply (findRSSFeeds_no_page o baseUrl deadline deadline Hsignal).
  apply (scanURLForFeeds_failed P net _ _ _ _ _ Hfetch).
Qed.

(** The handler of the coordinator would report an abort as ["Timeout"],
    had the exception reached it. *)
Lemma errorMessageOf_abort (msg : string) :
  errorMessageOf (DOMException "AbortError" msg) = "Timeout".
Proof. reflexivity. Qed.

End CoordinatorFacts.

(** ** The run report *)

Lemma mainWith_report (scan : CLIOptions -> string -> Exn + DiscoveredResult)
    (o : CLIOptions) (args urls : list string) (o' : CLIOptions)
    (output : RunReport) (code : Z) :
  parseArgs args o = (inr urls, o') ->
  mainWith scan o args = (Report output, code) ->
  exists scanResults,
    map (scan o') urls = map inr scanResults
    /\ output = (summarize scanResults).1
    /\ code = (summarize scanResults).2.
Proof.
  intros Hparse Hrun. unfold mainWith in Hrun. rewrite Hparse in Hrun.
  destruct (version o'); [done|]. destruct (help o'); [done|].
  destruct (length urls =? 0)%nat; [done|].
  destruct (promiseAll (map (scan o') urls)) as [e | scanResults] eqn:Hall;
    [done|].
  exists scanResults. split; [by apply promiseAll_inr|].
  destruct (summarize scanResults) as [output' code'].
  by injection Hrun as <- <-.
Qed.

(** Calls that fulfil with results that carry their URL give the URLs back
    in order, and each result comes from a call. *)
Lemma fulfilled_urls (scan : string -> Exn + DiscoveredResult)
    (urls : list string) (scanResults : list DiscoveredResult) :
  (forall u r, scan u = inr r -> url r = u) ->
  map scan urls = map inr scanResults ->
  map url scanResults = urls.
Proof.
  intros Hurl. revert scanResults.
  induction urls as [|u urls IH]; intros [|r rs]; cbn [map]; try done.
  intros [= Hr Hrs]. by rewrite (Hurl u r Hr), (IH rs Hrs).
Qed.

Lemma fulfilled_from (scan : string -> Exn + DiscoveredResult)
    (urls : list string) (scanResults : list DiscoveredResult)
    (r : DiscoveredResult) :
  map scan urls = map inr scanResults ->
  r ∈ scanResults -> exists u, u ∈ urls /\ scan u = inr r.
Proof.
  intros Hscans Hin.
  assert (Hr : inr r ∈ map scan urls)
    by (rewrite Hscans; by apply list_elem_of_fmap_2).
  apply list_elem_of_fmap in Hr as (u & Hu & Hin'). by exists u.
Qed.

(** C5: in the report of a run, [success] is true exactly when no result
    has an error; [partialResults] is present, and then true, exactly when
    [success] is false and some result holds a feed; and the results are
    those of the input URLs, one for each, in input order. The coordinator
    is any function whose results carry the input URL and, with an error,
    a non-empty message and no feeds, as those of [findRSSFeeds] do. *)
Theorem run_report (scan : CLIOptions -> string -> Exn + DiscoveredResult)
    (o : CLIOptions) (args urls : list string) (o' : CLIOptions)
    (output : RunReport) (code : Z) :
  (forall u r, scan o' u = inr r -> url r = u) ->
  (forall u r msg, scan o' u = inr r -> error r = Some msg ->
                   msg <> "" /\ feeds r = []) ->
  parseArgs args o = (inr urls, o') ->
  mainWith scan o args = (Report output, code) ->
  (success output = true <->
   forall r, r ∈ results output -> error r = None)
  /\ (success output = false
      /\ (exists r, r ∈ results output /\ feeds r <> [])
      -> partialResults output = Some true)
  /\ (~ (success output = false
         /\ exists r, r ∈ results output /\ feeds r <> [])
      -> partialResults output = None)
  /\ map (scan o') urls = map inr (results output)
  /\ map url (results output) = urls.
Proof.
  intros Hurl Hshape Hparse Hrun.
  destruct (mainWith_report _ _ _ _ _ _ _ Hparse Hrun)
    as (scanResults & Hscans & -> & _).
  assert (Hresults : forall r msg,
             r ∈ scanResults -> error r = Some msg ->
             msg <> "" /\ feeds r = []).
  { intros r msg Hin.
    destruct (fulfilled_from _ _ _ _ Hscans Hin) as (u & _ & Hu).
    by apply (Hshape u). }
  destruct (summarize_report _ Hresults) as (Hres & Hsuccess & Hsome & Hnone).
  split; [done|]. split; [done|]. split; [done|].
  rewrite Hres. split; [done|]. by apply (fulfilled_urls (scan o') urls).
Qed.

(** With the stand-in coordinator of the fixtures: one site with a feed,
    one that times out. *)
Lemma run_report_witness :
  exists output code,
    mainWith Fixtures.stubScan cliOptions
      ["https://good.example"; "https://bad.example"]
    = (Report output, code)
    /\ (success output = true <->
        forall r, r ∈ results output -> error r = None)
    /\ (success output = false
        /\ (exists r, r ∈ results output /\ feeds r <> [])
        -> partialResults output = Some true)
    /\ (~ (success output = false
           /\ exists r, r ∈ results output /\ feeds r <> [])
        -> partialResults output = None)
    /\ map (Fixtures.stubScan cliOptions)
          ["https://good.example"; "https://bad.example"]
       = map inr (results output)
    /\ map url (results output)
       = ["https://good.example"; "https://bad.example"].
Proof.
  eexists _, _. split; [reflexivity|].
  apply (run_report Fixtures.stubScan cliOptions
           ["https://good.example"; "https://bad.example"]
           ["https://good.example"; "https://bad.example"] cliOptions _ 2%Z).
  - intros u r. unfold Fixtures.stubScan.
    destruct (String.eqb u _); by intros [= <-].
  - intros u r msg. unfold Fixtures.stubScan.
    destruct (String.eqb u _); intros [= <-]; cbn; [|done]. by intros [= <-].
  - reflexivity.
  - reflexivity.
Defined.

Section ProgramFacts.

Context (P : Platform) (net : Network).

(** The results of the program have the shape that the report is stated
    for, when every exception of the platform carries a message. *)
Lemma main_report (args urls : list string) (o' : CLIOptions)
    (output : RunReport) (code : Z) :
  (forall page e, anchorsFault P page = Some e -> errorMessageOf e <> "") ->
  parseArgs args cliOptions = (inr urls, o') ->
  main P net args = (Report output, code) ->
  (success output = true <->
   forall r, r ∈ results output -> error r = None)
  /\ map (findRSSFeeds P net o') urls = map inr (results output)
  /\ map url (results output) = urls.
Proof.
  intros Hmessage Hparse Hrun.
  destruct (mainWith_report _ _ _ _ _ _ _ Hparse Hrun)
    as (scanResults & Hscans & -> & _).
  assert (Hresults : forall r msg,
             r ∈ scanResults -> error r = Some msg ->
             msg <> "" /\ feeds r = []).
  { intros r msg Hin Hmsg.
    destruct (fulfilled_from _ _ _ _ Hscans Hin) as (u & _ & Hu).
    destruct (findRSSFeeds_error P net o' u r Hu) as [_ Herror].
    destruct (Herror msg Hmsg) as (Hfeeds & page & e & _ & Hfault & ->).
    split; [by apply (Hmessage page)|done]. }
  destruct (summarize_report _ Hresults) as (Hres & Hsuccess & _ & _).
  split; [done|]. rewrite Hres. split; [done|].
  apply (fulfilled_urls (findRSSFeeds P net o') urls); [|done].
  intros u r Hr. by destruct (findRSSFeeds_error P net o' u r Hr).
Qed.

End ProgramFacts.

(** ** A site with one declared feed, and a site that cannot be reached *)

Lemma contains_trans (s middle needle : string) :
  contains s middle -> contains middle needle -> contains s needle.
Proof.
  intros (b1 & a1 & ->) (b2 & a2 & ->).
  exists (b1 +:+ b2), (a2 +:+ a1).
  induction b1 as [|c b1 IH]; rewrite ?append_nil, ?append_cons.
  - clear. induction b2 as [|c b2 IH]; rewrite ?append_nil, ?append_cons.
    + induction needle as [|c needle IH]; rewrite ?append_nil, ?append_cons;
        [done | by rewrite IH].
    + by rewrite IH.
  - by rewrite IH.
Qed.

Section SingleFeed.

Context (P : Platform) (net : Network).

(** The candidate that a declared Atom link proposes. *)
Lemma declaredCandidate_atom (pageUrl type target : string) (el : LinkElement)
    (u : URL) :
  l_type el = Some type ->
  JS.includes type "atom+xml" = true ->
  l_href el = Some target ->
  JS.truthy target = true ->
  newURL P target (Some pageUrl) = Some u ->
  declaredCandidate P pageUrl el
  = Some (u_href u,
          {| feed_url := u_href u;
             feed_title := orDefault (l_title el) "RSS Feed";
             feed_type := atom |}).
Proof.
  intros Htype Hatom Hhref Htarget Hu. unfold declaredCandidate.
  rewrite Htype, Hatom, Hhref, Htarget, Hu, orb_true_r.
  assert (JS.truthy type = true) as -> by (by destruct type).
  assert (JS.includes type "atom" = true) as ->; [|done].
  apply includes_spec. apply (contains_trans _ "atom+xml").
  - by apply includes_spec.
  - by exists "", "+xml".
Qed.

(** The coordinator on a site whose root page declares one feed that
    validates in time, when nothing else on the network is a feed and the
    section heuristic reads the page without an exception. *)
Lemma findRSSFeeds_single_feed (o : CLIOptions) (baseUrl : string)
    (page feedResponse : Response) (el : LinkElement) (feedUrl : string)
    (feed : FeedResult) (deadline : nat) :
  AbortSignal_timeout (timeout o) = inr deadline ->
  reply net baseUrl = Responds page ->
  ok page = true ->
  anchorsFault P (body page) = None ->
  alternateLinksOf P (body page) = [el] ->
  declaredCandidate P baseUrl el = Some (feedUrl, feed) ->
  feed_url feed = feedUrl ->
  reply net feedUrl = Responds feedResponse ->
  ok feedResponse = true ->
  validateFeed (body feedResponse)
    (orDefault (contentTypeHeader feedResponse) "") = true ->
  (forall f, servedAsFeed net f -> feed_url f = feedUrl) ->
  latency net baseUrl + latency net feedUrl < deadline ->
  findRSSFeeds P net o baseUrl
  = inr {| url := baseUrl; feeds := [feed]; error := None |}.
Proof.
  intros Hsignal Hpage Hok Hfault Hlinks Hdeclared Hkey Hfeed Hfeedok Hvalid
    Honly Htime.
  destruct (findRSSFeeds_result P net o baseUrl deadline Hsignal)
    as (rootScan & rootEnd & Hroot & Hserved & ->).
  assert (Hcandidates : exists extra,
             discoveredFeeds P (body page) baseUrl = (feedUrl, feed) :: extra).
  { unfold discoveredFeeds, commonPass, declaredPass.
    rewrite Hlinks. cbn [foldl]. rewrite Hdeclared. cbn [setIfAbsent mapHas existsb negb mapSet].
    rewrite setIfAbsent_fold.
    destruct (insertAll_prefix
                (omap (commonCandidate P baseUrl) commonPaths)
                [(feedUrl, feed)]) as [extra ->].
    by exists extra. }
  destruct Hcandidates as [extra Hcandidates].
  assert (Hscan : exists more later,
             scanURLForFeeds P net baseUrl deadline 0
             = (inr {| html := Some (body page); scan_feeds := feed :: more |},
                later)).
  { unfold scanURLForFeeds, tryCatch, awaitThen.
    rewrite (fetch_in_time net _ _ _ page) by (done || lia).
    rewrite Hok. cbn [negb]. rewrite Hcandidates. cbn [validateAll].
    unfold awaitThen.
    rewrite (validateCandidate_in_time net _ _ _ _ _ feedResponse)
      by (done || lia).
    destruct (validateAll_settles net deadline extra
                ([] ++ [feed]) (0 + latency net baseUrl + latency net feedUrl))
      as (more & later & -> & _).
    by exists more, later. }
  destruct Hscan as (more & later & Hscan).
  rewrite Hscan in Hroot. injection Hroot as <- <-.
  cbn [scan_feeds html] in *.
  assert (tryFault P o (Some (body page)) = None) as ->.
  { unfold tryFault, heuristicFault. rewrite Hfault.
    by destruct (negb (skipBlogs o) && _), (JS.truthy (body page)). }
  pose proof (sectionScans_served P net
                (sectionURLs P o baseUrl (Some (body page))) deadline later)
    as Hsections.
  do 2 f_equal. unfold firstByUrl.
  cbn [app map foldl]. unfold insertAbsent at 2, entryOf at 2.
  cbn [fst snd mapHas existsb negb mapSet]. rewrite Hkey.
  rewrite (insertAll_same_key feedUrl); [done | |].
  - cbn. by rewrite String.eqb_refl.
  - apply Forall_fmap, Forall_forall. intros f Hin. cbn.
    apply Honly. apply elem_of_app in Hin as [Hin | Hin].
    + rewrite Forall_forall in Hserved.
      apply Hserved, elem_of_cons. by right.
    + rewrite Forall_forall in Hsections. by apply Hsections.
Qed.

(** C1 (as amended): for the input [https://good.example,
    https://bad.example], where the root page of good.example declares one
    Atom alternate link whose target validates in time and is the only feed
    on the network, the section heuristic reads that page without an
    exception, and the root fetch of bad.example rejects, the report has
    [success: true] and no [partialResults]; the first result holds the
    declared feed and no error, the second holds no feed and no error, and
    the exit code is 0. *)
Theorem unreachable_site_is_not_an_error (page feedResponse : Response)
    (el : LinkElement) (type target : string) (u : URL) (e : Exn) :
  reply net "https://good.example" = Responds page ->
  ok page = true ->
  anchorsFault P (body page) = None ->
  alternateLinksOf P (body page) = [el] ->
  l_type el = Some type ->
  JS.includes type "atom+xml" = true ->
  l_href el = Some target ->
  JS.truthy target = true ->
  newURL P target (Some "https://good.example") = Some u ->
  reply net (u_href u) = Responds feedResponse ->
  ok feedResponse = true ->
  validateFeed (body feedResponse)
    (orDefault (contentTypeHeader feedResponse) "") = true ->
  (forall f, servedAsFeed net f -> feed_url f = u_href u) ->
  (Z.of_nat (latency net "https://good.example" + latency net (u_href u))
   < timeout cliOptions)%Z ->
  reply net "https://bad.example" = Rejects e ->
  main P net ["https://good.example"; "https://bad.example"]
  = (Report
       {| success := true;
          partialResults := None;
          results :=
            [ {| url := "https://good.example";
                 feeds := [ {| feed_url := u_href u;
                               feed_title := orDefault (l_title el) "RSS Feed";
                               feed_type := atom |} ];
                 error := None |};
              {| url := "https://bad.example"; feeds := []; error := None |} ]
       |},
     0%Z).
Proof.
  intros Hpage Hok Hfault Hlinks Htype Hatom Hhref Htarget Hu Hfeed Hfeedok
    Hvalid Honly Htime Hbad.
  pose proof (declaredCandidate_atom _ _ _ _ _ Htype Hatom Hhref Htarget Hu)
    as Hdeclared.
  unfold main, mainWith.
  change (parseArgs ["https://good.example"; "https://bad.example"] cliOptions)
    with (@inr Exn _ ["https://good.example"; "https://bad.example"],
          cliOptions).
  cbn [version help cliOptions length Nat.eqb map].
  rewrite (findRSSFeeds_unreachable P net cliOptions _ e (Z.to_nat 10000)
             eq_refl Hbad).
  rewrite (findRSSFeeds_single_feed cliOptions "https://good.example"
             page feedResponse el (u_href u) _ (Z.to_nat 10000) eq_refl
             Hpage Hok Hfault Hlinks Hdeclared eq_refl Hfeed Hfeedok Hvalid
             Honly).
  - reflexivity.
  - change (timeout cliOptions) with 10000%Z in Htime. lia.
Qed.

End SingleFeed.

(** ** The fixtures *)

Lemma twoSites_only_feed (f : FeedResult) :
  servedAsFeed Fixtures.twoSites f ->
  feed_url f = "https://good.example/feed.atom".
Proof.
  intros (res & Hreply & Hok & Hvalid). cbn [Fixtures.twoSites reply] in Hreply.
  destruct (String.eqb (feed_url f) "https://good.example").
  - injection Hreply as <-. vm_compute in Hvalid. discriminate.
  - destruct (String.eqb (feed_url f) "https://good.example/feed.atom") eqn:Hurl.
    + by apply String.eqb_eq.
    + discriminate.
Qed.

(** The scenario on the fixtures: good.example declares one Atom feed,
    every request to bad.example fails with a network error. *)
Lemma unreachable_site_is_not_an_error_witness :
  main Fixtures.pages Fixtures.twoSites
    ["https://good.example"; "https://bad.example"]
  = (Report
       {| success := true;
          partialResults := None;
          results :=
            [ {| url := "https://good.example";
                 feeds := [Fixtures.atomFeed "https://good.example"];
                 error := None |};
              {| url := "https://bad.example"; feeds := []; error := None |} ]
       |},
     0%Z).
Proof.
  apply (unreachable_site_is_not_an_error Fixtures.pages Fixtures.twoSites
           (Fixtures.htmlResponse Fixtures.goodPage) Fixtures.atomResponse
           {| l_type := Some "application/atom+xml";
              l_href := Some "/feed.atom";
              l_title := None |}
           "application/atom+xml" "/feed.atom"
           {| u_href := "https://good.example/feed.atom";
              origin := "https://good.example";
              pathname := "/feed.atom" |}
           (Error "fetch failed")).
  - reflexivity.
  - reflexivity.
  - reflexivity.
  - reflexivity.
  - reflexivity.
  - reflexivity.
  - reflexivity.
  - reflexivity.
  - reflexivity.
  - reflexivity.
  - reflexivity.
  - reflexivity.
  - apply twoSites_only_feed.
  - vm_compute. reflexivity.
  - reflexivity.
Defined.

(** C1 as stated fails: in that scenario the report has [success: true],
    no [partialResults], and [error: null] for bad.example. *)
Lemma unreachable_site_not_reported :
  reply Fixtures.twoSites "https://bad.example" = Rejects (Error "fetch failed")
  /\ exists output code,
       main Fixtures.pages Fixtures.twoSites
         ["https://good.example"; "https://bad.example"]
       = (Report output, code)
       /\ success output = true
       /\ partialResults output = None
       /\ (exists r0 r1,
              results output = [r0; r1] /\ length (feeds r0) = 1
              /\ error r1 = None /\ feeds r1 = [])
       /\ ~ (success output = false
             /\ partialResults output = Some true
             /\ exists r0 r1 msg,
                  results output = [r0; r1] /\ length (feeds r0) = 1
                  /\ error r1 = Some msg /\ msg <> "" /\ feeds r1 = []).
Proof.
  split; [reflexivity|].
  eexists _, _. split; [vm_compute; reflexivity|].
  cbn [success partialResults results].
  split; [done|]. split; [done|]. split.
  - eexists _, _. repeat split.
  - intros [Hsuccess _]. discriminate Hsuccess.
Qed.

(** ** Deadline expiry *)

(** C2, evaluated where it fails. With a deadline of 1 ms the root fetch of
    slow.example (500 ms) is aborted by the signal, and the result has no
    feeds and [error: null] instead of ["Timeout"]; the run reports
    [success: true] and exits with 1. With a deadline of 550 ms the
    deadline expires during the validation of the candidates: the feed
    validated before it is kept, the next candidate is aborted, and the
    result again has [error: null]. *)
Theorem deadline_expiry_is_not_reported :
  fetch Fixtures.slowSite 1 "https://slow.example" 0
  = (inl timeoutAbort, 1)
  /\ findRSSFeeds Fixtures.pages Fixtures.slowSite (setTimeout 1 cliOptions)
       "https://slow.example"
     = inr {| url := "https://slow.example"; feeds := []; error := None |}
  /\ main Fixtures.pages Fixtures.slowSite
       ["--timeout"; "1"; "https://slow.example"]
     = (Report
          {| success := true;
             partialResults := None;
             results :=
               [ {| url := "https://slow.example"; feeds := [];
                    error := None |} ] |},
        1%Z)
  /\ fetch Fixtures.slowSite 550 "https://slow.example/rss.xml" 540
     = (inl timeoutAbort, 550)
  /\ findRSSFeeds Fixtures.pages Fixtures.slowSite (setTimeout 550 cliOptions)
       "https://slow.example"
     = inr {| url := "https://slow.example";
              feeds := [Fixtures.atomFeed "https://slow.example"];
              error := None |}.
Proof. repeat split; vm_compute; reflexivity. Qed.

(** ** The unit tests of the repository, replayed on the embedding *)

Example test_parseArgs_urls :
  (parseArgs ["https://example.com"; "https://test.com"] cliOptions).1
  = inr ["https://example.com"; "https://test.com"].
Proof. reflexivity. Qed.

Example test_parseArgs_flags :
  help (parseArgs ["--help"] cliOptions).2 = true
  /\ version (parseArgs ["--version"] cliOptions).2 = true
  /\ version (parseArgs ["-V"] cliOptions).2 = true
  /\ verbose (parseArgs ["--verbose"] cliOptions).2 = true
  /\ verbose (parseArgs ["-v"] cliOptions).2 = true.
Proof. repeat split. Qed.

Example test_parseArgs_timeout :
  (parseArgs ["--timeout"] cliOptions).1
  = inl (Error "--timeout requires a value")
  /\ (parseArgs ["--timeout"; "invalid"] cliOptions).1
     = inl (Error "--timeout requires a positive number, got: invalid")
  /\ (parseArgs ["--timeout"; "0"] cliOptions).1
     = inl (Error "--timeout requires a positive number, got: 0")
  /\ (parseArgs ["--timeout"; "-5"] cliOptions).1
     = inl (Error "--timeout requires a positive number, got: -5")
  /\ timeout (parseArgs ["--timeout"; "15000"] cliOptions).2 = 15000%Z.
Proof. repeat split. Qed.

Example test_parseArgs_max_blogs :
  (parseArgs ["--max-blogs"] cliOptions).1
  = inl (Error "--max-blogs requires a value")
  /\ (parseArgs ["--max-blogs"; "invalid"] cliOptions).1
     = inl (Error "--max-blogs requires a positive number, got: invalid")
  /\ maxBlogs (parseArgs ["--max-blogs"; "10"] cliOptions).2 = 10%Z.
Proof. repeat split. Qed.

Example test_parseArgs_blog_paths :
  (parseArgs ["--blog-paths"] cliOptions).1
  = inl (Error "--blog-paths requires a value")
  /\ customBlogPaths (parseArgs ["--blog-paths"; "/blog,/news"] cliOptions).2
     = Some ["/blog"; "/news"]
  /\ customBlogPaths (parseArgs ["--blog-paths"; "/blog|/news"] cliOptions).2
     = Some ["/blog"; "/news"]
  /\ customBlogPaths
       (parseArgs ["--blog-paths"; "/blog,/news|/updates"] cliOptions).2
     = Some ["/blog"; "/news"; "/updates"]
  /\ customBlogPaths (parseArgs ["--blog-paths"; "/a,/b|/c"] cliOptions).2
     = Some ["/a"; "/b"; "/c"].
Proof. repeat split. Qed.

Example test_extractBlogLinksFromHTML :
  extractBlogLinksFromHTML Fixtures.pages Fixtures.unitTestPage
    "https://example.com"
  = ["/blog"; "/news"; "/articles"].
Proof. vm_compute. reflexivity. Qed.

Example test_discoverBlogSubdirectories_custom :
  discoverBlogSubdirectories Fixtures.pages
    (setMaxBlogs 10 (setCustomBlogPaths ["/custom1"; "/custom2"] cliOptions))
    "https://example.com" None
  = ["/custom1"; "/custom2"].
Proof. reflexivity. Qed.

Example test_discoverBlogSubdirectories_limit :
  discoverBlogSubdirectories Fixtures.pages (setMaxBlogs 3 cliOptions)
    "https://example.com" None
  = ["/blog"; "/news"; "/articles"].
Proof. reflexivity. Qed.

Example test_discoverBlogSubdirectories_fallback :
  discoverBlogSubdirectories Fixtures.pages cliOptions "https://example.com"
    None
  = take 5 COMMON_BLOG_PATHS.
Proof. reflexivity. Qed.

Example test_validation_rss :
  validateFeed
    ("<?xml version=" +:+ dquote +:+ "1.0" +:+ dquote +:+ "?>
<rss version=" +:+ dquote +:+ "2.0" +:+ dquote +:+ ">
  <channel>
    <title>Test Feed</title>
  </channel>
</rss>")
    "application/rss+xml" = true.
Proof. reflexivity. Qed.

Example test_validation_html :
  validateFeed
    "<html>
<body>
  <p>Check out our <rss> feed!</p>
</body>
</html>"
    "text/html" = false.
Proof. reflexivity. Qed.

Example test_validation_atom :
  validateFeed
    ("<?xml version=" +:+ dquote +:+ "1.0" +:+ dquote +:+ "?>
<feed xmlns=" +:+ dquote +:+ "http://www.w3.org/2005/Atom" +:+ dquote +:+ ">
  <title>Test Feed</title>
</feed>")
    "application/atom+xml" = true.
Proof. reflexivity. Qed.

(** * Further properties *)

(** ** Trimming *)

Lemma trimStart_allChars (f : ascii -> bool) (s : string) :
  JS.allChars f s = true -> JS.allChars f (JS.trimStart s) = true.
Proof.
  induction s as [|c s IH]; cbn [JS.trimStart JS.allChars]; [done|].
  rewrite andb_true_iff. intros [Hc Hs].
  destruct (JS.isSpace c); [by apply IH|].
  cbn [JS.allChars]. by rewrite Hc, Hs.
Qed.

Lemma trimEnd_allChars (f : ascii -> bool) (s : string) :
  JS.allChars f s = true -> JS.allChars f (JS.trimEnd s) = true.
Proof.
  induction s as [|c s IH]; cbn [JS.trimEnd JS.allChars]; [done|].
  rewrite andb_true_iff. intros [Hc Hs]. specialize (IH Hs).
  destruct (JS.trimEnd s) as [|d kept].
  - destruct (JS.isSpace c); [done|]. cbn. by rewrite Hc.
  - cbn [JS.allChars] in *. by rewrite Hc, IH.
Qed.

Lemma trimStart_idem (s : string) :
  JS.trimStart (JS.trimStart s) = JS.trimStart s.
Proof.
  induction s as [|c s IH]; cbn [JS.trimStart]; [done|].
  destruct (JS.isSpace c) eqn:Hc; [done|]. cbn [JS.trimStart]. by rewrite Hc.
Qed.

Lemma trimEnd_idem (s : string) : JS.trimEnd (JS.trimEnd s) = JS.trimEnd s.
Proof.
  induction s as [|c s IH]; cbn [JS.trimEnd]; [done|].
  destruct (JS.trimEnd s) as [|d kept] eqn:Hkept.
  - destruct (JS.isSpace c) eqn:Hc; [done|]. cbn [JS.trimEnd]. by rewrite Hc.
  - cbn [JS.trimEnd] in *. destruct (JS.trimEnd kept) as [|d' kept'] eqn:Hk'.
    + destruct (JS.isSpace d); [done|]. by injection IH as ->.
    + by rewrite IH.
Qed.

(** Trimming the start of a string that has no white space at its end
    leaves it without white space at its end. *)
Lemma trimEnd_trimStart (s : string) :
  JS.trimEnd s = s -> JS.trimEnd (JS.trimStart s) = JS.trimStart s.
Proof.
  induction s as [|c s IH]; cbn [JS.trimStart]; [done|].
  intros Hfixed. destruct (JS.isSpace c) eqn:Hc; [|done].
  apply IH. cbn [JS.trimEnd] in Hfixed.
  destruct (JS.trimEnd s) as [|d kept].
  - rewrite Hc in Hfixed. done.
  - by injection Hfixed.
Qed.

Lemma trim_idem (s : string) : JS.trim (JS.trim s) = JS.trim s.
Proof.
  unfold JS.trim.
  rewrite (trimEnd_trimStart (JS.trimEnd s)) by apply trimEnd_idem.
  apply trimStart_idem.
Qed.

Lemma trim_allChars (f : ascii -> bool) (s : string) :
  JS.allChars f s = true -> JS.allChars f (JS.trim s) = true.
Proof. intros Hs. by apply trimStart_allChars, trimEnd_allChars. Qed.

(** The list that [--blog-paths] stores holds clean paths only. *)
Lemma blog_paths_clean (raw : string) :
  Forall cleanPath
    (JS.filterBoolean (map JS.trim (JS.splitBy commaOrPipe raw))).
Proof.
  apply Forall_forall. intros p Hp.
  apply list_elem_of_In, filter_In in Hp as [Hp Htruthy].
  apply in_map_iff in Hp as (piece & <- & Hpiece).
  pose proof (splitBy_pieces commaOrPipe raw) as Hpieces.
  rewrite List.Forall_forall in Hpieces.
  split; [by destruct (JS.trim piece)|].
  split; [apply trim_idem | by apply trim_allChars, Hpieces].
Qed.

(** ** Command line parsing: the steps of the loop *)

(** A token that is no value-taking option: the loop goes on with the URL
    added if it is one and the flag set if it is one. *)
Lemma parseArgsFrom_plain (arg : string) (o : CLIOptions) :
  takesValue arg = false ->
  exists o',
    (forall rest urls,
        parseArgsFrom (arg :: rest) urls o
        = parseArgsFrom rest (if isHttpUrl arg then urls ++ [arg] else urls) o')
    /\ maxBlogs o' = maxBlogs o /\ timeout o' = timeout o
    /\ customBlogPaths o' = customBlogPaths o
    /\ help o' = help o || String.eqb arg "--help" || String.eqb arg "-h"
    /\ version o'
       = version o || String.eqb arg "--version" || String.eqb arg "-V"
    /\ verbose o'
       = verbose o || String.eqb arg "--verbose" || String.eqb arg "-v"
    /\ skipBlogs o'
       = skipBlogs o || String.eqb arg "--no-blogs"
         || String.eqb arg "--skip-blogs".
Proof.
  intros Hvalue. split_token arg; try discriminate Hvalue.
  1-8: eexists; split; [intros rest urls; reflexivity|]; cbn;
       rewrite ?orb_true_r, ?orb_false_r; done.
  exists o. split.
  - intros rest urls. cbn [parseArgsFrom].
    rewrite H, H0, H1, H2, H3, H4, H5, H6, H7, H8, H9. cbn [orb].
    by destruct (isHttpUrl arg).
  - by rewrite !orb_false_r.
Qed.

(** A value-taking option at the end of the list. *)
Lemma parseArgsFrom_dangling (opt : string) (urls : list string)
    (o : CLIOptions) :
  takesValue opt = true ->
  parseArgsFrom [opt] urls o = (inl (Error (opt +:+ " requires a value")), o).
Proof.
  intros Hvalue. split_token opt; try discriminate Hvalue; try reflexivity.
  unfold takesValue in Hvalue. by rewrite H7, H8, H9 in Hvalue.
Qed.

(** A value-taking option with its value: a usage error, or the loop goes
    on with the option stored. *)
Lemma parseArgsFrom_value (opt raw : string) (o : CLIOptions) :
  takesValue opt = true ->
  (exists e, forall rest urls,
        parseArgsFrom (opt :: raw :: rest) urls o = (inl e, o))
  \/ (exists o',
         (forall rest urls,
             parseArgsFrom (opt :: raw :: rest) urls o
             = parseArgsFrom rest urls o')
         /\ help o' = help o /\ version o' = version o
         /\ verbose o' = verbose o /\ skipBlogs o' = skipBlogs o
         /\ ((0 < maxBlogs o)%Z -> (0 < maxBlogs o')%Z)
         /\ ((0 < timeout o)%Z -> (0 < timeout o')%Z)
         /\ (customBlogPaths o' = customBlogPaths o
             \/ exists paths,
                  customBlogPaths o' = Some paths /\ Forall cleanPath paths)).
Proof.
  intros Hvalue. split_token opt; try discriminate Hvalue.
  - (* --max-blogs *)
    destruct (parseInt raw) as [value|] eqn:Hraw.
    + destruct (value <=? 0)%Z eqn:Hpos.
      * left. eexists. intros rest urls. cbn. by rewrite Hraw, Hpos.
      * right. exists (setMaxBlogs value o). split.
        -- intros rest urls. cbn. by rewrite Hraw, Hpos.
        -- apply Z.leb_gt in Hpos. cbn. repeat split; try done. by left.
    + left. eexists. intros rest urls. cbn. by rewrite Hraw.
  - (* --blog-paths *)
    destruct (JS.truthy (JS.trim raw)) eqn:Hraw.
    + right. eexists. split.
      * intros rest urls. cbn. rewrite Hraw. cbn [negb]. reflexivity.
      * cbn. repeat split; try done. right. eexists. split; [done|].
        apply blog_paths_clean.
    + left. eexists. intros rest urls. cbn. by rewrite Hraw.
  - (* --timeout *)
    destruct (parseInt raw) as [value|] eqn:Hraw.
    + destruct (value <=? 0)%Z eqn:Hpos.
      * left. eexists. intros rest urls. cbn. by rewrite Hraw, Hpos.
      * right. exists (setTimeout value o). split.
        -- intros rest urls. cbn. by rewrite Hraw, Hpos.
        -- apply Z.leb_gt in Hpos. cbn. repeat split; try done. by left.
    + left. eexists. intros rest urls. cbn. by rewrite Hraw.
  - unfold takesValue in Hvalue. by rewrite H7, H8, H9 in Hvalue.
Qed.

(** Induction over an argument list the way the loop reads it: one token,
    or a value-taking option and its value. *)
Lemma args_ind (Q : list string -> Prop) :
  Q [] ->
  (forall arg rest, takesValue arg = false -> Q rest -> Q (arg :: rest)) ->
  (forall opt, takesValue opt = true -> Q [opt]) ->
  (forall opt raw rest, takesValue opt = true -> Q rest ->
                        Q (opt :: raw :: rest)) ->
  forall args, Q args.
Proof.
  intros Hnil Hplain Hdangling Hvalue args.
  assert (Hboth : Q args /\ forall x, Q (x :: args)).
  { induction args as [|arg rest [IH1 IH2]].
    - split; [done|]. intros x.
      destruct (takesValue x) eqn:Hx; [by apply Hdangling | by apply Hplain].
    - split; [apply IH2|]. intros x.
      destruct (takesValue x) eqn:Hx; [by apply Hvalue | by apply Hplain]. }
  apply Hboth.
Qed.

(** ** Command line parsing: composition, invariants and edge cases *)

(** The URLs collected so far are only a prefix of the result. *)
Lemma parseArgsFrom_shift (args : list string) :
  forall (urls : list string) (o : CLIOptions),
    parseArgsFrom args urls o
    = match parseArgsFrom args [] o with
      | (inr found, o') => (inr (urls ++ found), o')
      | (inl e, o') => (inl e, o')
      end.
Proof.
  induction args as [|arg rest Hvalue IH|opt Hvalue|opt raw rest Hvalue IH]
    using args_ind; intros urls o.
  - by rewrite !parseArgsFrom_nil, app_nil_r.
  - destruct (parseArgsFrom_plain arg o Hvalue) as (o' & Hstep & _).
    rewrite !Hstep, (IH (if isHttpUrl arg then urls ++ [arg] else urls)),
      (IH (if isHttpUrl arg then [] ++ [arg] else [])).
    destruct (parseArgsFrom rest [] o') as [[e | found] o'']; [done|].
    destruct (isHttpUrl arg); by rewrite ?app_nil_l, <- ?app_assoc.
  - by rewrite !parseArgsFrom_dangling.
  - destruct (parseArgsFrom_value opt raw o Hvalue)
      as [[e Hstep] | (o' & Hstep & _)]; rewrite !Hstep; [done | apply IH].
Qed.

(** Once a list has been read without error, reading goes on with what
    follows it. *)
Lemma parseArgsFrom_app (a : list string) :
  forall (b urls : list string) (o : CLIOptions) urls1 o1,
    parseArgsFrom a urls o = (inr urls1, o1) ->
    parseArgsFrom (a ++ b) urls o = parseArgsFrom b urls1 o1.
Proof.
  induction a as [|arg rest Hvalue IH|opt Hvalue|opt raw rest Hvalue IH]
    using args_ind; intros b urls o urls1 o1 Hrun.
  - rewrite parseArgsFrom_nil in Hrun. by injection Hrun as -> ->.
  - destruct (parseArgsFrom_plain arg o Hvalue) as (o' & Hstep & _).
    rewrite Hstep in Hrun. cbn [app]. rewrite Hstep. by apply IH.
  - by rewrite parseArgsFrom_dangling in Hrun.
  - destruct (parseArgsFrom_value opt raw o Hvalue)
      as [[e Hstep] | (o' & Hstep & _)]; rewrite Hstep in Hrun; [done|].
    cbn [app]. rewrite Hstep. by apply IH.
Qed.

(** X1: parsing composes. When an argument list parses without error, the
    list followed by further arguments parses like the further arguments
    do from the options reached, with the URLs of the first list in
    front. *)
Theorem parseArgs_app (a b : list string) (o : CLIOptions)
    (urls : list string) (o1 : CLIOptions) :
  parseArgs a o = (inr urls, o1) ->
  parseArgs (a ++ b) o
  = match parseArgs b o1 with
    | (inr found, o2) => (inr (urls ++ found), o2)
    | (inl e, o2) => (inl e, o2)
    end.
Proof.
  unfold parseArgs. intros Hrun.
  rewrite (parseArgsFrom_app a b [] o urls o1 Hrun).
  apply parseArgsFrom_shift.
Qed.

Lemma parseArgs_app_witness :
  parseArgs (["--max-blogs"; "3"; "https://a.example"]
             ++ ["-v"; "https://b.example"]) cliOptions
  = (inr (["https://a.example"] ++ ["https://b.example"]),
     setVerbose (setMaxBlogs 3 cliOptions)).
Proof.
  apply (parseArgs_app ["--max-blogs"; "3"; "https://a.example"]
           ["-v"; "https://b.example"] cliOptions ["https://a.example"]
           (setMaxBlogs 3 cliOptions)).
  reflexivity.
Defined.

(** X2: a value-taking option that ends an argument list is a usage error.
    When the arguments before it parse, adding [--max-blogs],
    [--blog-paths] or [--timeout] as the last token makes [parseArgs] throw
    "<option> requires a value", with the options as set before it. *)
Theorem parseArgs_missing_value (pre : list string) (opt : string)
    (o : CLIOptions) (urls : list string) (o1 : CLIOptions) :
  parseArgs pre o = (inr urls, o1) ->
  takesValue opt = true ->
  parseArgs (pre ++ [opt]) o
  = (inl (Error (opt +:+ " requires a value")), o1).
Proof.
  unfold parseArgs. intros Hrun Hvalue.
  rewrite (parseArgsFrom_app pre [opt] [] o urls o1 Hrun).
  by apply parseArgsFrom_dangling.
Qed.

Lemma parseArgs_missing_value_witness :
  parseArgs (["https://a.example"; "--help"] ++ ["--blog-paths"]) cliOptions
  = (inl (Error "--blog-paths requires a value"), setHelp cliOptions).
Proof.
  apply (parseArgs_missing_value ["https://a.example"; "--help"]
           "--blog-paths" cliOptions ["https://a.example"]
           (setHelp cliOptions)); reflexivity.
Defined.

Lemma parseArgsFrom_positive (args : list string) :
  forall (urls : list string) (o : CLIOptions),
    (0 < maxBlogs o)%Z -> (0 < timeout o)%Z ->
    (0 < maxBlogs (parseArgsFrom args urls o).2)%Z
    /\ (0 < timeout (parseArgsFrom args urls o).2)%Z.
Proof.
  induction args as [|arg rest Hvalue IH|opt Hvalue|opt raw rest Hvalue IH]
    using args_ind; intros urls o Hmax Htime.
  - done.
  - destruct (parseArgsFrom_plain arg o Hvalue)
      as (o' & Hstep & Hmax' & Htime' & _).
    rewrite Hstep. apply IH; congruence.
  - by rewrite parseArgsFrom_dangling.
  - destruct (parseArgsFrom_value opt raw o Hvalue)
      as [[e Hstep] | (o' & Hstep & _ & _ & _ & _ & Hmax' & Htime' & _)];
      rewrite Hstep; [done|].
    apply IH; auto.
Qed.

(** X3: the numeric options stay positive. Starting from options with a
    positive [maxBlogs] and [timeout] (as the defaults are), the options
    that [parseArgs] leaves behind, whether it returns or throws, have a
    positive [maxBlogs] and [timeout]. *)
Theorem parseArgs_keeps_positive (args : list string) (o : CLIOptions) :
  (0 < maxBlogs o)%Z -> (0 < timeout o)%Z ->
  (0 < maxBlogs (parseArgs args o).2)%Z
  /\ (0 < timeout (parseArgs args o).2)%Z.
Proof. apply parseArgsFrom_positive. Qed.

Lemma parseArgs_keeps_positive_witness :
  (0 < maxBlogs (parseArgs ["--timeout"; "250"; "--max-blogs"; "-2"]
                   cliOptions).2)%Z
  /\ (0 < timeout (parseArgs ["--timeout"; "250"; "--max-blogs"; "-2"]
                     cliOptions).2)%Z.
Proof.
  apply (parseArgs_keeps_positive ["--timeout"; "250"; "--max-blogs"; "-2"]
           cliOptions); reflexivity.
Defined.

Lemma parseArgsFrom_clean (args : list string) :
  forall (urls : list string) (o : CLIOptions),
    (forall paths, customBlogPaths o = Some paths -> Forall cleanPath paths) ->
    forall paths,
      customBlogPaths (parseArgsFrom args urls o).2 = Some paths ->
      Forall cleanPath paths.
Proof.
  induction args as [|arg rest Hvalue IH|opt Hvalue|opt raw rest Hvalue IH]
    using args_ind; intros urls o Hclean.
  - done.
  - destruct (parseArgsFrom_plain arg o Hvalue)
      as (o' & Hstep & _ & _ & Hpaths & _).
    rewrite Hstep. apply IH. by rewrite Hpaths.
  - by rewrite parseArgsFrom_dangling.
  - destruct (parseArgsFrom_value opt raw o Hvalue)
      as [[e Hstep] | (o' & Hstep & _ & _ & _ & _ & _ & _ & Hpaths)];
      rewrite Hstep; [done|].
    apply IH. destruct Hpaths as [-> | (paths & -> & Hpaths)]; [done|].
    by intros ? [= <-].
Qed.

(** X4: the override list is stored clean. Whatever the arguments, every
    path of the override list that [parseArgs] leaves in the options is
    non-empty, has no white space at its ends and holds no comma or pipe
    (given that the list it started from, if any, was so). *)
Theorem parseArgs_blog_paths_clean (args : list string) (o : CLIOptions)
    (paths : list string) :
  (forall initial, customBlogPaths o = Some initial ->
                   Forall cleanPath initial) ->
  customBlogPaths (parseArgs args o).2 = Some paths ->
  Forall cleanPath paths.
Proof. intros Hclean. by apply parseArgsFrom_clean. Qed.

Lemma parseArgs_blog_paths_clean_witness :
  Forall cleanPath ["/a"; "/b c"; "/d"].
Proof.
  apply (parseArgs_blog_paths_clean
           ["https://a.example"; "--blog-paths"; " /a ,, /b c|/d,"]
           cliOptions ["/a"; "/b c"; "/d"]).
  - intros initial Hinitial. discriminate Hinitial.
  - reflexivity.
Defined.

(** A flag after one more token that is no value-taking option. *)
Lemma flag_after_token (old new final : bool) (arg long short : string)
    (rest : list string) :
  new = old || String.eqb arg long || String.eqb arg short ->
  (final = true <-> new = true \/ long ∈ rest \/ short ∈ rest) ->
  (final = true <->
   old = true \/ long ∈ arg :: rest \/ short ∈ arg :: rest).
Proof.
  intros -> ->. rewrite !orb_true_iff, !String.eqb_eq, !elem_of_cons.
  intuition congruence.
Qed.

(** A flag after a value-taking option, which is none of the flags. *)
Lemma flag_after_option (old final : bool) (opt long short : string)
    (rest : list string) :
  takesValue opt = true -> takesValue long = false ->
  takesValue short = false ->
  (final = true <-> old = true \/ long ∈ rest \/ short ∈ rest) ->
  (final = true <->
   old = true \/ long ∈ opt :: rest \/ short ∈ opt :: rest).
Proof.
  intros Hopt Hlong Hshort ->. rewrite !elem_of_cons.
  assert (long <> opt) by congruence. assert (short <> opt) by congruence.
  tauto.
Qed.

Lemma parseArgsFrom_flags (args : list string) :
  forall (urls0 : list string) (o : CLIOptions) urls o',
    parseArgsFrom args urls0 o = (inr urls, o') ->
    (help o' = true <->
     help o = true \/ "--help" ∈ unconsumed args \/ "-h" ∈ unconsumed args)
    /\ (version o' = true <->
        version o = true
        \/ "--version" ∈ unconsumed args \/ "-V" ∈ unconsumed args)
    /\ (verbose o' = true <->
        verbose o = true
        \/ "--verbose" ∈ unconsumed args \/ "-v" ∈ unconsumed args)
    /\ (skipBlogs o' = true <->
        skipBlogs o = true
        \/ "--no-blogs" ∈ unconsumed args
        \/ "--skip-blogs" ∈ unconsumed args).
Proof.
  induction args as [|arg rest Hvalue IH|opt Hvalue|opt raw rest Hvalue IH]
    using args_ind; intros urls0 o urls o' Hrun.
  - rewrite parseArgsFrom_nil in Hrun. injection Hrun as _ ->.
    cbn [unconsumed]. rewrite !elem_of_nil. tauto.
  - destruct (parseArgsFrom_plain arg o Hvalue)
      as (o1 & Hstep & _ & _ & _ & Hhelp & Hversion & Hverbose & Hskip).
    rewrite Hstep in Hrun.
    destruct (IH _ _ _ _ Hrun) as (IHhelp & IHversion & IHverbose & IHskip).
    cbn [unconsumed]. rewrite Hvalue.
    repeat split; eapply flag_after_token; eassumption.
  - by rewrite parseArgsFrom_dangling in Hrun.
  - destruct (parseArgsFrom_value opt raw o Hvalue)
      as [[e Hstep]
         | (o1 & Hstep & Hhelp & Hversion & Hverbose & Hskip & _)];
      rewrite Hstep in Hrun; [done|].
    destruct (IH _ _ _ _ Hrun) as (IHhelp & IHversion & IHverbose & IHskip).
    cbn [unconsumed]. rewrite Hvalue.
    rewrite Hhelp in IHhelp. rewrite Hversion in IHversion.
    rewrite Hverbose in IHverbose. rewrite Hskip in IHskip.
    repeat split; apply flag_after_option; done.
Qed.

(** X5: what sets a flag. When [parseArgs] returns, [help] is set exactly
    when it was set before or [--help] or [-h] occurs among the tokens not
    read as an option's value; likewise [version] for [--version] and
    [-V], [verbose] for [--verbose] and [-v], and [skipBlogs] for
    [--no-blogs] and [--skip-blogs]. No argument clears a flag. *)
Theorem parseArgs_flags (args : list string) (o : CLIOptions)
    (urls : list string) (o' : CLIOptions) :
  parseArgs args o = (inr urls, o') ->
  (help o' = true <->
   help o = true \/ "--help" ∈ unconsumed args \/ "-h" ∈ unconsumed args)
  /\ (version o' = true <->
      version o = true
      \/ "--version" ∈ unconsumed args \/ "-V" ∈ unconsumed args)
  /\ (verbose o' = true <->
      verbose o = true
      \/ "--verbose" ∈ unconsumed args \/ "-v" ∈ unconsumed args)
  /\ (skipBlogs o' = true <->
      skipBlogs o = true
      \/ "--no-blogs" ∈ unconsumed args \/ "--skip-blogs" ∈ unconsumed args).
Proof. apply parseArgsFrom_flags. Qed.

(** [--help] read as the value of [--blog-paths] sets no flag; [-v] does. *)
Lemma parseArgs_flags_witness :
  (help (setVerbose (setCustomBlogPaths ["--help"] cliOptions)) = true <->
   help cliOptions = true
   \/ "--help" ∈ unconsumed ["--blog-paths"; "--help"; "-v"]
   \/ "-h" ∈ unconsumed ["--blog-paths"; "--help"; "-v"])
  /\ (version (setVerbose (setCustomBlogPaths ["--help"] cliOptions)) = true
      <-> version cliOptions = true
          \/ "--version" ∈ unconsumed ["--blog-paths"; "--help"; "-v"]
          \/ "-V" ∈ unconsumed ["--blog-paths"; "--help"; "-v"])
  /\ (verbose (setVerbose (setCustomBlogPaths ["--help"] cliOptions)) = true
      <-> verbose cliOptions = true
          \/ "--verbose" ∈ unconsumed ["--blog-paths"; "--help"; "-v"]
          \/ "-v" ∈ unconsumed ["--blog-paths"; "--help"; "-v"])
  /\ (skipBlogs (setVerbose (setCustomBlogPaths ["--help"] cliOptions)) = true
      <-> skipBlogs cliOptions = true
          \/ "--no-blogs" ∈ unconsumed ["--blog-paths"; "--help"; "-v"]
          \/ "--skip-blogs" ∈ unconsumed ["--blog-paths"; "--help"; "-v"]).
Proof.
  apply (parseArgs_flags ["--blog-paths"; "--help"; "-v"] cliOptions []
           (setVerbose (setCustomBlogPaths ["--help"] cliOptions))).
  reflexivity.
Defined.

(** ** Numeric option values *)

Lemma readDigits_suffix (digits suffix : string) (acc : option Z) :
  JS.allChars (fun c => bool_decide (is_Some (digitValue c))) digits = true ->
  match suffix with
  | EmptyString => True
  | String c _ => digitValue c = None
  end ->
  readDigits (digits +:+ suffix) acc = readDigits digits acc.
Proof.
  intros Hdigits Hsuffix. revert acc.
  induction digits as [|c digits IH]; intros acc.
  - rewrite append_nil. cbn [readDigits].
    destruct suffix as [|c suffix]; [done|]. cbn [readDigits].
    by rewrite Hsuffix.
  - rewrite append_cons. cbn [readDigits JS.allChars] in *.
    apply andb_true_iff in Hdigits as [Hc Hdigits].
    destruct (digitValue c); [by apply IH | done].
Qed.

Lemma digit_not_space (c : ascii) :
  is_Some (digitValue c) -> JS.isSpace c = false.
Proof.
  unfold digitValue, JS.isSpace. intros [d Hd].
  destruct (_ && _) eqn:Hrange; [|done].
  apply andb_true_iff in Hrange as [Hlow Hhigh].
  apply Nat.leb_le in Hlow, Hhigh.
  apply orb_false_iff. split.
  - apply andb_false_iff. right. apply Nat.leb_gt. lia.
  - apply Nat.eqb_neq. lia.
Qed.

Lemma digit_not_sign (c : ascii) :
  is_Some (digitValue c) -> c <> "-"%char /\ c <> "+"%char.
Proof. intros [d Hd]. split; intros ->; discriminate Hd. Qed.

Lemma parseInt_digits (c : ascii) (digits : string) :
  is_Some (digitValue c) ->
  parseInt (String c digits) = toNumber <$> readDigits (String c digits) None.
Proof.
  intros Hc. unfold parseInt. cbn [JS.trimStart].
  rewrite (digit_not_space c Hc).
  destruct (digit_not_sign c Hc) as [Hminus Hplus].
  destruct (Ascii.eqb_spec c "-"); [done|].
  destruct (Ascii.eqb_spec c "+"); [done|].
  destruct c as [[] [] [] [] [] [] [] []]; done.
Qed.

(** The loop of [parseInt] over a string of digits adds, to what it has
    read, the number that the digits spell. *)
Lemma readDigits_value (digits : string) (acc : Z) :
  JS.allChars (fun c => bool_decide (is_Some (digitValue c))) digits = true ->
  readDigits digits (Some acc)
  = Some (acc * 10 ^ Z.of_nat (String.length digits)
          + decimalValue digits)%Z.
Proof.
  revert acc. induction digits as [|c digits IH]; intros acc Hdigits.
  - cbn [readDigits decimalValue String.length]. f_equal. cbn. lia.
  - cbn [JS.allChars] in Hdigits.
    apply andb_true_iff in Hdigits as [Hc Hdigits].
    apply bool_decide_eq_true in Hc as [d Hd].
    cbn [readDigits decimalValue String.length]. rewrite Hd.
    cbn [default]. rewrite (IH _ Hdigits). f_equal.
    rewrite Nat2Z.inj_succ, Z.pow_succ_r by lia. unfold id. ring.
Qed.

Lemma readDigits_first (c : ascii) (digits : string) :
  is_Some (digitValue c) ->
  JS.allChars (fun c => bool_decide (is_Some (digitValue c))) digits = true ->
  readDigits (String c digits) None = Some (decimalValue (String c digits)).
Proof.
  intros [d Hd] Hdigits. cbn [readDigits decimalValue]. rewrite Hd.
  cbn [default]. rewrite (readDigits_value _ _ Hdigits). f_equal.
Qed.

(** A safe integer is the double of itself. *)
Lemma toNumber_safe (z : Z) :
  (0 <= z <= MAX_SAFE_INTEGER)%Z -> toNumber z = z.
Proof.
  intros [Hlow Hhigh]. unfold toNumber, MAX_SAFE_INTEGER in *.
  assert (Hbits : (Z.log2 z + 1 <=? 53)%Z = true); [|by rewrite Hbits].
  apply Z.leb_le.
  destruct (Z.eq_dec z 0) as [-> | Hz]; [done|].
  assert (Z.log2 z < 53)%Z; [|lia].
  apply Z.log2_lt_pow2; lia.
Qed.

Lemma trimStart_spaces (spaces rest : string) :
  JS.allChars JS.isSpace spaces = true ->
  JS.trimStart (spaces +:+ rest) = JS.trimStart rest.
Proof.
  induction spaces as [|c spaces IH]; [done|].
  rewrite append_cons. cbn [JS.allChars JS.trimStart].
  rewrite andb_true_iff. intros [-> Hspaces]. by apply IH.
Qed.

(** X6: numeric values are read leniently. A value that consists of white
    space, then decimal digits, then anything that does not start with a
    digit is read as the digits alone; so [--timeout] and [--max-blogs]
    accept it and store the number that the digits spell, when that number
    is positive and a safe integer (at most 2^53 - 1, so that the double
    which [parseInt] returns is that number). *)
Theorem numeric_value_lenient (spaces digits suffix : string) (c : ascii) :
  JS.allChars JS.isSpace spaces = true ->
  is_Some (digitValue c) ->
  JS.allChars (fun c => bool_decide (is_Some (digitValue c))) digits = true ->
  match suffix with
  | EmptyString => True
  | String c' _ => digitValue c' = None
  end ->
  (0 < decimalValue (String c digits) <= MAX_SAFE_INTEGER)%Z ->
  parseInt (spaces +:+ String c digits +:+ suffix)
  = Some (decimalValue (String c digits))
  /\ forall (rest urls : list string) (o : CLIOptions),
       parseArgsFrom
         ("--timeout" :: (spaces +:+ String c digits +:+ suffix) :: rest)
         urls o
       = parseArgsFrom rest urls
           (setTimeout (decimalValue (String c digits)) o)
       /\ parseArgsFrom
            ("--max-blogs" :: (spaces +:+ String c digits +:+ suffix) :: rest)
            urls o
          = parseArgsFrom rest urls
              (setMaxBlogs (decimalValue (String c digits)) o).
Proof.
  intros Hspaces Hc Hdigits Hsuffix [Hpositive Hsafe].
  assert (Hraw : parseInt (spaces +:+ String c digits +:+ suffix)
                 = Some (decimalValue (String c digits))).
  { unfold parseInt. rewrite trimStart_spaces by done.
    change (JS.trimStart (String c digits +:+ suffix))
      with (JS.trimStart (String c (digits +:+ suffix))).
    fold (parseInt (String c (digits +:+ suffix))).
    rewrite (parseInt_digits c _ Hc).
    rewrite <- append_cons.
    rewrite (readDigits_suffix (String c digits)); [|
      cbn [JS.allChars]; by rewrite bool_decide_eq_true_2, Hdigits | done].
    rewrite (readDigits_first c digits Hc Hdigits). cbn [fmap option_fmap option_map].
    f_equal. apply toNumber_safe. lia. }
  split; [done|]. intros rest urls o.
  apply Z.leb_gt in Hpositive.
  split; cbn [parseArgsFrom String.eqb Ascii.eqb Bool.eqb orb];
    by rewrite Hraw, Hpositive.
Qed.

(** [--timeout " 15000ms"] sets a timeout of 15000. *)
Lemma numeric_value_lenient_witness :
  parseInt (" " +:+ "15000" +:+ "ms") = Some 15000%Z
  /\ forall (rest urls : list string) (o : CLIOptions),
       parseArgsFrom ("--timeout" :: (" " +:+ "15000" +:+ "ms") :: rest)
         urls o
       = parseArgsFrom rest urls (setTimeout 15000 o)
       /\ parseArgsFrom ("--max-blogs" :: (" " +:+ "15000" +:+ "ms") :: rest)
            urls o
          = parseArgsFrom rest urls (setMaxBlogs 15000 o).
Proof.
  apply (numeric_value_lenient " " "5000" "ms" "1"%char);
    try reflexivity; [by eexists | done].
Defined.

(** Beyond the safe integers the stored number is the double next to the
    number that the digits spell. *)
Example test_parseInt_double :
  parseInt "9007199254740993" = Some 9007199254740992%Z
  /\ parseArgs ["--timeout"; "9007199254740993"] cliOptions
     = (inr [], setTimeout 9007199254740992 cliOptions).
Proof. split; reflexivity. Qed.

(** ** Blog section heuristic: shape of the roots, repeated links *)

Section BlogSectionExtras.

Context (P : Platform).

(** X7: the section roots of a page are distinct, and each is a slash
    followed by one non-empty segment without a slash, so that it is its
    own section root. *)
Theorem extractBlogLinksFromHTML_roots (html baseUrl : string) :
  NoDup (extractBlogLinksFromHTML P html baseUrl)
  /\ forall p,
       p ∈ extractBlogLinksFromHTML P html baseUrl ->
       exists first,
         p = "/" +:+ first
         /\ first <> ""
         /\ JS.includes first "/" = false
         /\ segments p = [first]
         /\ sectionRoot p = Some p.
Proof.
  split; [apply extract_NoDup|]. intros p Hp.
  apply extract_origin in Hp as (link & _ & _ & Hroot).
  pose proof (sectionRoot_idem _ _ Hroot) as Hidem.
  apply sectionRoot_Some in Hroot as (_ & first & rest & Hseg & _ & ->).
  pose proof (segments_pieces (path link)) as Hall. rewrite Hseg in Hall.
  inversion Hall as [|? ? [Htruthy Hclean] _]; subst.
  exists first. split; [done|]. split; [by intros ->|]. split.
  - clear -Hclean. induction first as [|c first IH]; [done|].
    cbn [JS.allChars] in Hclean.
    apply andb_true_iff in Hclean as [Hc Hclean].
    rewrite includes_cons, (IH Hclean), orb_false_r.
    destruct (String.prefix "/" (String c first)) eqn:Hprefix; [|done].
    apply prefix_spec in Hprefix as [rest Hrest].
    rewrite append_cons in Hrest. injection Hrest as -> _.
    by rewrite Ascii.eqb_refl in Hc.
  - split; [by apply segments_root | done].
Qed.

Lemma visitLink_seen_mono (st : list string * gset string) (link : Link)
    (q : string) :
  q ∈ st.2 -> q ∈ (visitLink st link).2.
Proof.
  intros Hq. destruct (visitLink_cases st link) as [-> | (root & _ & _ & ->)];
    [done|].
  cbn [snd]. set_solver.
Qed.

(** A link that is passed over leaves the state as it is. *)
Lemma visitLink_passedOver (st : list string * gset string) (link : Link) :
  passedOver st link -> visitLink st link = st.
Proof.
  intros [Hkey | [Hroot | (root & Hroot & Hseen)]].
  - apply visitLink_other. by left.
  - apply visitLink_other. by right.
  - destruct (foundKeyword link) as [keyword|] eqn:Hkey;
      [|apply visitLink_other; by left].
    rewrite (visitLink_eligible st link root) by (by eauto).
    destruct Hseen as [Hseen | Hseen].
    + by rewrite (bool_decide_eq_true_2 _ Hseen).
    + rewrite (bool_decide_eq_true_2 (root ∈ st.2) Hseen).
      by rewrite orb_true_r.
Qed.

(** Once visited, a link is passed over. *)
Lemma visitLink_then_passedOver (st : list string * gset string)
    (link : Link) :
  passedOver (visitLink st link) link.
Proof.
  destruct (foundKeyword link) as [keyword|] eqn:Hkey; [|by left].
  destruct (sectionRoot (path link)) as [root|] eqn:Hroot;
    [|right; by left].
  right. right. exists root. split; [done|].
  rewrite (visitLink_eligible st link root) by (by eauto).
  destruct (bool_decide (path link ∈ st.2)) eqn:Hpath; cbn [orb].
  - left. by apply bool_decide_eq_true in Hpath.
  - destruct (bool_decide (root ∈ st.2)) eqn:Hseen.
    + right. by apply bool_decide_eq_true in Hseen.
    + left. cbn [snd]. set_solver.
Qed.

(** It stays passed over whatever is visited afterwards. *)
Lemma passedOver_mono (st : list string * gset string) (link other : Link) :
  passedOver st link -> passedOver (visitLink st other) link.
Proof.
  intros [Hkey | [Hroot | (root & Hroot & Hseen)]];
    [by left | right; by left |].
  right. right. exists root. split; [done|].
  destruct Hseen as [Hseen | Hseen];
    [left | right]; by apply visitLink_seen_mono.
Qed.

Lemma passedOver_fold (links : list Link) (st : list string * gset string)
    (link : Link) :
  passedOver st link -> passedOver (foldl visitLink st links) link.
Proof.
  revert st. induction links as [|other links IH]; intros st Hst;
    cbn [foldl]; [done|].
  by apply IH, passedOver_mono.
Qed.

(** X8: a link listed twice counts once. A page on which an anchor occurs
    a second time, anywhere after its first occurrence, has the section
    roots of the page without the second occurrence. *)
Theorem extractBlogLinksFromHTML_repeated_anchor (html html' baseUrl : string)
    (before between after : list Anchor) (el : Anchor) :
  anchorsOf P html = before ++ el :: between ++ el :: after ->
  anchorsOf P html' = before ++ el :: between ++ after ->
  extractBlogLinksFromHTML P html baseUrl
  = extractBlogLinksFromHTML P html' baseUrl.
Proof.
  intros Hpage Hpage'. unfold extractBlogLinksFromHTML, linkTextAndUrls.
  rewrite Hpage, Hpage'. rewrite !omap_app. cbn [omap list_omap].
  rewrite !omap_app. cbn [omap list_omap].
  destruct (sameOriginLink P baseUrl el) as [link|]; [|done].
  rewrite !foldl_app. cbn [foldl]. rewrite !foldl_app. cbn [foldl].
  rewrite (visitLink_passedOver
             (foldl visitLink
                (visitLink (foldl visitLink ([], ∅)
                              (omap (sameOriginLink P baseUrl) before)) link)
                (omap (sameOriginLink P baseUrl) between)) link); [done|].
  apply passedOver_fold, visitLink_then_passedOver.
Qed.

End BlogSectionExtras.

(** The page of the fixtures that lists the link to [/blog] twice. *)
Lemma extractBlogLinksFromHTML_repeated_anchor_witness :
  extractBlogLinksFromHTML MoreFixtures.pages MoreFixtures.repeatedPage
    "https://site.example"
  = extractBlogLinksFromHTML MoreFixtures.pages MoreFixtures.repeatedPageOnce
      "https://site.example".
Proof.
  apply (extractBlogLinksFromHTML_repeated_anchor MoreFixtures.pages
           MoreFixtures.repeatedPage MoreFixtures.repeatedPageOnce
           "https://site.example"
           []
           [ {| a_href := "/news/today"; a_text := "Today" |} ]
           [ {| a_href := "/press"; a_text := "Press" |} ]
           {| a_href := "/blog"; a_text := "Blog" |}); reflexivity.
Defined.

(** ** Section discovery: bound, fallback and empty override *)

Lemma pushNew_NoDup (blogPaths : list string) (p : string) :
  NoDup blogPaths -> NoDup (pushNew blogPaths p).
Proof.
  intros Hpaths. unfold pushNew.
  destruct (JS.arrayIncludes blogPaths p) eqn:Hin; [done|].
  apply NoDup_app. split; [done|]. split; [|apply NoDup_singleton].
  intros q Hq ->%list_elem_of_singleton.
  apply arrayIncludes_spec in Hq. congruence.
Qed.

Lemma pushNew_fold_NoDup (paths blogPaths : list string) :
  NoDup blogPaths -> NoDup (foldl pushNew blogPaths paths).
Proof.
  revert blogPaths. induction paths as [|p paths IH]; intros blogPaths Hnodup;
    cbn [foldl]; [done|].
  by apply IH, pushNew_NoDup.
Qed.

Lemma pushNew_fold_elem_of (paths blogPaths : list string) (q : string) :
  q ∈ foldl pushNew blogPaths paths <-> q ∈ blogPaths \/ q ∈ paths.
Proof.
  revert blogPaths. induction paths as [|p paths IH]; intros blogPaths;
    cbn [foldl].
  - rewrite elem_of_nil. tauto.
  - rewrite IH, elem_of_cons. unfold pushNew.
    destruct (JS.arrayIncludes blogPaths p) eqn:Hin; cbn [negb].
    + apply arrayIncludes_spec in Hin. split; [tauto|].
      intros [? | [-> | ?]]; tauto.
    + rewrite elem_of_app, list_elem_of_singleton. tauto.
Qed.

Section DiscoverExtras.

Context (P : Platform).

Lemma discoverBlogSubdirectories_unfold (o : CLIOptions) (baseUrl : string)
    (html : option string) :
  discoverBlogSubdirectories P o baseUrl html
  = take (Z.to_nat (maxBlogs o))
      (match customBlogPaths o, heuristicRoots P baseUrl html with
       | Some custom, roots => foldl pushNew roots custom
       | None, [] => foldl pushNew [] COMMON_BLOG_PATHS
       | None, roots => roots
       end).
Proof.
  unfold discoverBlogSubdirectories, JS.slice0.
  fold (heuristicRoots P baseUrl html).
  destruct (customBlogPaths o) as [custom|].
  - rewrite bool_decide_eq_true_2 by (by eexists). by rewrite orb_true_r.
  - rewrite bool_decide_eq_false_2 by (by intros [? ?]).
    by destruct (heuristicRoots P baseUrl html).
Qed.

Lemma heuristicRoots_NoDup (baseUrl : string) (html : option string) :
  NoDup (heuristicRoots P baseUrl html).
Proof.
  unfold heuristicRoots. destruct html as [h|]; [|constructor].
  destruct (JS.truthy h); [apply extract_NoDup | constructor].
Qed.

(** X9: the sections to probe are at most [maxBlogs], without repeats, and
    each is a root that the heuristic found on the page or a path of the
    list in use (the override list if set, the common paths if not). *)
Theorem discoverBlogSubdirectories_bounded (o : CLIOptions)
    (baseUrl : string) (html : option string) :
  length (discoverBlogSubdirectories P o baseUrl html)
  <= Z.to_nat (maxBlogs o)
  /\ NoDup (discoverBlogSubdirectories P o baseUrl html)
  /\ forall p,
       p ∈ discoverBlogSubdirectories P o baseUrl html ->
       p ∈ heuristicRoots P baseUrl html
       \/ p ∈ default COMMON_BLOG_PATHS (customBlogPaths o).
Proof.
  rewrite discoverBlogSubdirectories_unfold.
  pose proof (heuristicRoots_NoDup baseUrl html) as Hroots.
  split; [rewrite length_take; lia|]. split.
  - eapply sublist_NoDup; [|apply sublist_take].
    destruct (customBlogPaths o) as [custom|].
    + by apply pushNew_fold_NoDup.
    + destruct (heuristicRoots P baseUrl html); [|done].
      apply pushNew_fold_NoDup. constructor.
  - intros p Hp. apply elem_of_take in Hp as (i & Hp & _).
    apply list_elem_of_lookup_2 in Hp.
    destruct (customBlogPaths o) as [custom|]; cbn [default].
    + by apply pushNew_fold_elem_of in Hp.
    + destruct (heuristicRoots P baseUrl html) as [|root roots]; [|by left].
      apply pushNew_fold_elem_of in Hp as [Hp | Hp]; [by left | by right].
Qed.

(** X10: without an override list the common paths are a fallback only.
    When the heuristic finds at least one root on the page, the sections
    are its roots cut to [maxBlogs] and no common path is added; when it
    finds none (or there is no page), they are the common paths cut to
    [maxBlogs]. *)
Theorem discoverBlogSubdirectories_fallback (o : CLIOptions)
    (baseUrl : string) (html : option string) :
  customBlogPaths o = None ->
  discoverBlogSubdirectories P o baseUrl html
  = take (Z.to_nat (maxBlogs o))
      (match heuristicRoots P baseUrl html with
       | [] => COMMON_BLOG_PATHS
       | roots => roots
       end).
Proof.
  intros Hnone. rewrite discoverBlogSubdirectories_unfold, Hnone.
  by destruct (heuristicRoots P baseUrl html).
Qed.

(** X11: an override list that is empty switches the fallback off. With
    [customBlogPaths] set to the empty list, as [--blog-paths ","] sets
    it, the sections are the heuristic roots alone, and none at all when
    the heuristic finds nothing. *)
Theorem discoverBlogSubdirectories_empty_override (o : CLIOptions)
    (baseUrl : string) (html : option string) :
  customBlogPaths o = Some [] ->
  discoverBlogSubdirectories P o baseUrl html
  = take (Z.to_nat (maxBlogs o)) (heuristicRoots P baseUrl html)
  /\ (heuristicRoots P baseUrl html = [] ->
      discoverBlogSubdirectories P o baseUrl html = []).
Proof.
  intros Hempty. rewrite discoverBlogSubdirectories_unfold, Hempty.
  cbn [foldl]. split; [done|]. intros ->. apply take_nil.
Qed.

End DiscoverExtras.

(** On the page of the repository's unit tests the three roots found are
    the sections; without a page the first five common paths are. *)
Lemma discoverBlogSubdirectories_fallback_witness :
  discoverBlogSubdirectories Fixtures.pages cliOptions "https://example.com"
    (Some Fixtures.unitTestPage)
  = ["/blog"; "/news"; "/articles"]
  /\ discoverBlogSubdirectories Fixtures.pages cliOptions
       "https://example.com" None
     = ["/blog"; "/news"; "/articles"; "/posts"; "/updates"].
Proof.
  split.
  - apply (discoverBlogSubdirectories_fallback Fixtures.pages cliOptions
             "https://example.com" (Some Fixtures.unitTestPage) eq_refl).
  - apply (discoverBlogSubdirectories_fallback Fixtures.pages cliOptions
             "https://example.com" None eq_refl).
Defined.

(** [--blog-paths ","] stores the empty list; without a page no section is
    probed then. *)
Lemma discoverBlogSubdirectories_empty_override_witness :
  customBlogPaths (parseArgs ["--blog-paths"; ","] cliOptions).2 = Some []
  /\ discoverBlogSubdirectories Fixtures.pages
       (parseArgs ["--blog-paths"; ","] cliOptions).2
       "https://example.com" None
     = [].
Proof.
  split; [reflexivity|].
  apply (proj2 (discoverBlogSubdirectories_empty_override Fixtures.pages
                  (parseArgs ["--blog-paths"; ","] cliOptions).2
                  "https://example.com" None eq_refl)).
  reflexivity.
Defined.

(** ** Candidate resolution: what is proposed is probed, and nothing else *)

Lemma insertAll_keys {V} (cs m : list (string * V)) (k : string) :
  k ∈ (foldl insertAbsent m cs).*1 <-> k ∈ m.*1 \/ k ∈ cs.*1.
Proof.
  revert m. induction cs as [|c cs IH]; intros m; cbn [foldl].
  - cbn. rewrite elem_of_nil. tauto.
  - rewrite IH, insertAbsent_app, fmap_cons, elem_of_cons.
    destruct (mapHas m c.1) eqn:Hhas.
    + apply mapHas_spec in Hhas. rewrite app_nil_r.
      split; [tauto|]. intros [? | [-> | ?]]; tauto.
    + rewrite fmap_app, elem_of_app. cbn. rewrite list_elem_of_singleton.
      tauto.
Qed.

Lemma insertAll_length {V} (cs m : list (string * V)) :
  length (foldl insertAbsent m cs) <= length m + length cs.
Proof.
  revert m. induction cs as [|c cs IH]; intros m; cbn [foldl length]; [lia|].
  specialize (IH (insertAbsent m c)).
  assert (length (insertAbsent m c) <= S (length m)); [|lia].
  rewrite insertAbsent_app, length_app.
  destruct (mapHas m c.1); cbn [length]; lia.
Qed.

Lemma omap_length_le {A B} (f : A -> option B) (l : list A) :
  length (omap f l) <= length l.
Proof.
  induction l as [|x l IH]; cbn [omap list_omap length]; [lia|].
  destruct (f x); cbn [length]; lia.
Qed.

Section CandidateExtras.

Context (P : Platform).

(** X12: every proposal is probed. The URLs of the candidate map are
    exactly the URLs that the declared feed links and the conventional
    paths resolve to; in particular each conventional path that resolves
    is a candidate; and there are at most nine candidates more than the
    page has alternate links. *)
Theorem discoveredFeeds_complete (html pageUrl : string) :
  (forall k,
      k ∈ (discoveredFeeds P html pageUrl).*1 <->
      k ∈ (proposals P html pageUrl).*1)
  /\ (forall p u,
         p ∈ commonPaths -> newURL P p (Some pageUrl) = Some u ->
         u_href u ∈ (discoveredFeeds P html pageUrl).*1)
  /\ length (discoveredFeeds P html pageUrl)
     <= length (alternateLinksOf P html) + 9.
Proof.
  assert (Hkeys : forall k,
             k ∈ (discoveredFeeds P html pageUrl).*1 <->
             k ∈ (proposals P html pageUrl).*1).
  { intros k. rewrite discoveredFeeds_fold, insertAll_keys. cbn.
    rewrite elem_of_nil. tauto. }
  split; [exact Hkeys|]. split.
  - intros p u Hp Hu. apply Hkeys. unfold proposals.
    rewrite fmap_app, elem_of_app. right.
    apply list_elem_of_fmap. eexists (u_href u, _). split; [done|].
    apply list_elem_of_omap. exists p. split; [done|].
    unfold commonCandidate. by rewrite Hu.
  - rewrite discoveredFeeds_fold.
    etransitivity; [apply insertAll_length|]. cbn [length].
    unfold proposals. rewrite length_app.
    pose proof (omap_length_le (declaredCandidate P pageUrl)
                  (alternateLinksOf P html)).
    pose proof (omap_length_le (commonCandidate P pageUrl) commonPaths).
    cbn [commonPaths length] in *. lia.
Qed.

(** X13: alternate links that declare no feed are ignored. When no
    alternate link of the page has a type that holds [rss+xml] or
    [atom+xml] together with an href that is non-empty and resolves, the
    candidates are those of the conventional paths alone. *)
Theorem discoveredFeeds_without_feed_links (html pageUrl : string) :
  (forall el,
      el ∈ alternateLinksOf P html ->
      (forall type, l_type el = Some type ->
                    JS.includes type "rss+xml" = false
                    /\ JS.includes type "atom+xml" = false)
      \/ l_href el = None
      \/ l_href el = Some ""
      \/ exists target,
           l_href el = Some target
           /\ newURL P target (Some pageUrl) = None) ->
  discoveredFeeds P html pageUrl = commonPass P pageUrl [].
Proof.
  intros Hlinks. unfold discoveredFeeds. f_equal.
  unfold declaredPass. rewrite setIfAbsent_fold.
  replace (omap (declaredCandidate P pageUrl) (alternateLinksOf P html))
    with (@nil (string * FeedResult)); [done|].
  symmetry. induction (alternateLinksOf P html) as [|el els IH]; [done|].
  cbn [omap list_omap].
  assert (declaredCandidate P pageUrl el = None) as ->.
  { unfold declaredCandidate.
    destruct (Hlinks el) as [Htype | [Hhref | [Hhref | (t & Hhref & Hu)]]];
      [apply elem_of_cons; by left | | | |].
    - destruct (l_type el) as [type|]; [|done].
      destruct (Htype type eq_refl) as [-> ->]. by rewrite andb_false_r.
    - rewrite Hhref. by repeat case_match.
    - rewrite Hhref. by repeat case_match.
    - rewrite Hhref, Hu. by repeat case_match. }
  apply IH. intros el' Hel'. apply Hlinks, elem_of_cons. by right.
Qed.

End CandidateExtras.

(** The page of the fixtures whose alternate links are translations. *)
Lemma discoveredFeeds_without_feed_links_witness :
  discoveredFeeds MoreFixtures.pages MoreFixtures.translatedPage
    "https://site.example"
  = commonPass MoreFixtures.pages "https://site.example" [].
Proof.
  apply (discoveredFeeds_without_feed_links MoreFixtures.pages
           MoreFixtures.translatedPage "https://site.example").
  intros el Hel. left. intros type Htype.
  cbn in Hel.
  apply elem_of_cons in Hel as [-> | Hel];
    [|apply elem_of_cons in Hel as [-> | Hel];
      [|by apply elem_of_nil in Hel]].
  - injection Htype as <-. by split.
  - discriminate Htype.
Defined.

(** ** The site scanner: outcome, soundness, completeness and the clock *)

Section ScannerExtras.

Context (P : Platform) (net : Network).

Lemma servesFeed_spec (feed : FeedResult) :
  servesFeed net (feed_url feed) = true <-> servedAsFeed net feed.
Proof.
  unfold servesFeed, servedAsFeed. split.
  - destruct (reply net (feed_url feed)) as [e | res]; [done|].
    rewrite andb_true_iff. intros [Hok Hvalid]. by exists res.
  - intros (res & -> & -> & ->). done.
Qed.

(** A request settles between its start and the deadline (or at once, when
    the deadline has passed). *)
Lemma fetch_clock (deadline : nat) (target : string) (now : nat) :
  now <= (fetch net deadline target now).2
  /\ (fetch net deadline target now).2 <= Nat.max now deadline.
Proof.
  unfold fetch. destruct (deadline <=? now + latency net target)%nat eqn:Hlate.
  - cbn [snd]. lia.
  - apply Nat.leb_gt in Hlate.
    destruct (reply net target); cbn [snd]; lia.
Qed.

(** In time, a request ends in what the network replies. *)
Lemma fetch_answer (deadline : nat) (target : string) (now : nat) :
  now + latency net target < deadline ->
  fetch net deadline target now
  = (match reply net target with
     | Rejects e => inl e
     | Responds res => inr res
     end, now + latency net target).
Proof.
  intros Htime. unfold fetch.
  destruct (deadline <=? now + latency net target)%nat eqn:Hlate.
  - apply Nat.leb_le in Hlate. lia.
  - by destruct (reply net target).
Qed.

(** One candidate, with the clock. *)
Lemma validateCandidate_step (deadline : nat) (validFeeds : list FeedResult)
    (candidate : string * FeedResult) (now : nat) :
  exists (pushed : bool) later,
    validateCandidate net deadline validFeeds candidate now
    = (inr (validFeeds ++ if pushed then [candidate.2] else []), later)
    /\ (pushed = true -> servesFeed net candidate.1 = true)
    /\ (pushed = true -> now + latency net candidate.1 < deadline)
    /\ now <= later <= Nat.max now deadline.
Proof.
  destruct candidate as [feedUrl feed]. cbn [fst snd].
  pose proof (fetch_clock deadline feedUrl now) as Hclock.
  unfold validateCandidate, tryCatch, awaitThen, servesFeed.
  unfold fetch in *.
  destruct (deadline <=? now + latency net feedUrl)%nat eqn:Hlate.
  - exists false, (Nat.max now deadline). rewrite app_nil_r. repeat split; (done || lia).
  - apply Nat.leb_gt in Hlate.
    destruct (reply net feedUrl) as [e | res].
    + exists false, (now + latency net feedUrl). rewrite app_nil_r.
      repeat split; (done || lia).
    + cbn [snd] in Hclock. destruct (ok res); cbn [andb].
      * destruct (validateFeed _ _).
        -- exists true, (now + latency net feedUrl). repeat split; (done || lia).
        -- exists false, (now + latency net feedUrl). rewrite app_nil_r.
           repeat split; (done || lia).
      * exists false, (now + latency net feedUrl). rewrite app_nil_r.
        repeat split; (done || lia).
Qed.

(** The validation loop: the feeds pushed are the values of a sublist of
    the candidates, each served as a feed, and the loop ends between its
    start and the deadline. *)
Lemma validateAll_shape (deadline : nat)
    (candidates : list (string * FeedResult)) :
  forall (validFeeds : list FeedResult) (now : nat),
  exists kept later,
    validateAll net deadline candidates validFeeds now
    = (inr (validFeeds ++ map snd kept), later)
    /\ kept `sublist_of` candidates
    /\ Forall (fun c => servesFeed net c.1 = true) kept
    /\ now <= later <= Nat.max now deadline.
Proof.
  induction candidates as [|candidate rest IH]; intros validFeeds now.
  - exists [], now. cbn. rewrite app_nil_r.
    repeat split; first [done | lia | constructor].
  - cbn [validateAll]. unfold awaitThen.
    destruct (validateCandidate_step deadline validFeeds candidate now)
      as (pushed & t & -> & Hserved & _ & Ht).
    destruct (IH (validFeeds ++ if pushed then [candidate.2] else []) t)
      as (kept & later & -> & Hsub & Hkept & Hlater).
    destruct pushed.
    + exists (candidate :: kept), later. cbn [map].
      rewrite <- app_assoc.
      split; [done|]. split; [by apply sublist_skip|].
      split; [|lia]. constructor; [by apply Hserved | done].
    + exists kept, later. rewrite app_nil_r.
      split; [done|]. split; [by apply sublist_cons|]. split; [done | lia].
Qed.

(** The same loop when all its requests fit before the deadline. *)
Lemma validateAll_in_time (deadline : nat)
    (candidates : list (string * FeedResult)) :
  forall (validFeeds : list FeedResult) (now : nat),
    now + sum_list (map (fun c => latency net c.1) candidates) < deadline ->
    validateAll net deadline candidates validFeeds now
    = (inr (validFeeds
            ++ map snd (List.filter (fun c => servesFeed net c.1) candidates)),
       now + sum_list (map (fun c => latency net c.1) candidates)).
Proof.
  induction candidates as [|[feedUrl feed] rest IH]; intros validFeeds now Htime.
  - cbn. by rewrite app_nil_r, Nat.add_0_r.
  - cbn [map sum_list sum_list_with fst] in *. unfold id in *.
    cbn [validateAll List.filter fst].
    unfold awaitThen, validateCandidate, tryCatch, awaitThen, servesFeed.
    rewrite fetch_answer by lia.
    destruct (reply net feedUrl) as [e | res].
    + unfold resolve. rewrite IH by lia. by rewrite Nat.add_assoc.
    + destruct (ok res); cbn [andb].
      * destruct (validateFeed _ _); unfold resolve; rewrite IH by lia;
          cbn [map snd]; by rewrite <- ?app_assoc, Nat.add_assoc.
      * unfold resolve. rewrite IH by lia. by rewrite Nat.add_assoc.
Qed.

(** After the deadline the loop pushes nothing. *)
Lemma validateAll_late (deadline : nat)
    (candidates : list (string * FeedResult)) (validFeeds : list FeedResult)
    (now : nat) :
  deadline <= now ->
  validateAll net deadline candidates validFeeds now = (inr validFeeds, now).
Proof.
  intros Hlate. induction candidates as [|[feedUrl feed] rest IH]; [done|].
  cbn [validateAll]. unfold awaitThen, validateCandidate, tryCatch, awaitThen.
  rewrite fetch_late by lia. unfold resolve.
  by rewrite Nat.max_l by lia.
Qed.

End ScannerExtras.

Lemma sublist_map {A B} (f : A -> B) (l1 l2 : list A) :
  l1 `sublist_of` l2 -> f <$> l1 `sublist_of` f <$> l2.
Proof.
  induction 1 as [|x l1 l2 _ IH|x l1 l2 _ IH]; cbn [fmap list_fmap].
  - constructor.
  - by apply sublist_skip.
  - by apply sublist_cons.
Qed.

Section ScannerClaims.

Context (P : Platform) (net : Network).

(** The scan of a page that is obtained. *)
Lemma scanURLForFeeds_obtained (pageUrl : string) (deadline now : nat)
    (res : Response) :
  reply net pageUrl = Responds res ->
  ok res = true ->
  now + latency net pageUrl < deadline ->
  scanURLForFeeds P net pageUrl deadline now
  = match validateAll net deadline (discoveredFeeds P (body res) pageUrl) []
            (now + latency net pageUrl) with
    | (inr validFeeds, later) =>
        (inr {| html := Some (body res); scan_feeds := validFeeds |}, later)
    | (inl _, later) => (inr {| html := None; scan_feeds := [] |}, later)
    end.
Proof.
  intros Hreply Hok Htime. unfold scanURLForFeeds, tryCatch, awaitThen.
  rewrite (fetch_in_time net _ _ _ res Htime Hreply), Hok. cbn [negb].
  by destruct (validateAll _ _ _ _ _) as [[e | validFeeds] later].
Qed.

(** The scan of a page that is not obtained. *)
Lemma scanURLForFeeds_not_obtained (pageUrl : string) (deadline now : nat) :
  pageObtained net pageUrl deadline now = None ->
  exists later,
    scanURLForFeeds P net pageUrl deadline now
    = (inr {| html := None; scan_feeds := [] |}, later)
    /\ now <= later <= Nat.max now deadline.
Proof.
  unfold pageObtained. intros Hnone.
  pose proof (fetch_clock net deadline pageUrl now) as Hclock.
  unfold scanURLForFeeds, tryCatch, awaitThen.
  destruct (fetch net deadline pageUrl now) as [[e | res'] later] eqn:Hfetch;
    cbn [snd] in Hclock.
  - by exists later.
  - exists later. split; [|done].
    unfold fetch in Hfetch.
    destruct (deadline <=? now + latency net pageUrl)%nat eqn:Hlate; [done|].
    apply Nat.leb_gt in Hlate.
    destruct (reply net pageUrl) as [e | res]; [done|].
    injection Hfetch as <- <-.
    destruct (ok res); [|done]. cbn [andb] in Hnone.
    destruct (now + latency net pageUrl <? deadline)%nat eqn:Hcheck; [done|].
    apply Nat.ltb_ge in Hcheck. lia.
Qed.

(** The page that a scan returns is the page that it obtains. *)
Lemma scanURLForFeeds_html (pageUrl : string) (deadline now : nat)
    (result : ScanResult) (later : nat) :
  scanURLForFeeds P net pageUrl deadline now = (inr result, later) ->
  html result = pageObtained net pageUrl deadline now.
Proof.
  intros Hscan.
  destruct (pageObtained net pageUrl deadline now) as [page|] eqn:Hpage.
  - unfold pageObtained in Hpage.
    destruct (reply net pageUrl) as [e | res] eqn:Hreply; [done|].
    destruct (ok res) eqn:Hok; [|done]. cbn [andb] in Hpage.
    destruct (now + latency net pageUrl <? deadline)%nat eqn:Htime; [|done].
    apply Nat.ltb_lt in Htime. injection Hpage as <-.
    rewrite (scanURLForFeeds_obtained _ _ _ res Hreply Hok Htime) in Hscan.
    destruct (validateAll_shape net deadline
                (discoveredFeeds P (body res) pageUrl) []
                (now + latency net pageUrl))
      as (kept & later' & Hrun & _).
    rewrite Hrun in Hscan. by injection Hscan as <- _.
  - destruct (scanURLForFeeds_not_obtained pageUrl deadline now Hpage)
      as (later' & Hrun & _).
    rewrite Hrun in Hscan. by injection Hscan as <- _.
Qed.

(** X14: a scan never throws, and fails closed. Whatever the network does,
    [scanURLForFeeds] fulfils; it returns the page exactly when the server
    answers with an OK status before the deadline, and otherwise (network
    error, abort by the deadline, status such as 404 or 500) it returns no
    page and no feeds. *)
Theorem scanURLForFeeds_outcome (pageUrl : string) (deadline now : nat) :
  exists result later,
    scanURLForFeeds P net pageUrl deadline now = (inr result, later)
    /\ html result = pageObtained net pageUrl deadline now
    /\ (html result = None -> scan_feeds result = []).
Proof.
  destruct (pageObtained net pageUrl deadline now) as [page|] eqn:Hpage.
  - unfold pageObtained in Hpage.
    destruct (reply net pageUrl) as [e | res] eqn:Hreply; [done|].
    destruct (ok res) eqn:Hok; [|done]. cbn [andb] in Hpage.
    destruct (now + latency net pageUrl <? deadline)%nat eqn:Htime; [|done].
    apply Nat.ltb_lt in Htime. injection Hpage as <-.
    rewrite (scanURLForFeeds_obtained _ _ _ res Hreply Hok Htime).
    destruct (validateAll_shape net deadline
                (discoveredFeeds P (body res) pageUrl) []
                (now + latency net pageUrl))
      as (kept & later & -> & _).
    eexists _, _. split; [reflexivity|]. by split.
  - destruct (scanURLForFeeds_not_obtained pageUrl deadline now Hpage)
      as (later & -> & _).
    eexists _, _. split; [reflexivity|]. by split.
Qed.

(** The feeds of a scan are the values of a sublist of the candidates of
    the page, each served as a feed. *)
Lemma scanURLForFeeds_kept (pageUrl : string) (deadline now : nat) :
  exists result later kept,
    scanURLForFeeds P net pageUrl deadline now = (inr result, later)
    /\ scan_feeds result = map snd kept
    /\ Forall (fun c => servesFeed net c.1 = true) kept
    /\ (forall page, html result = Some page ->
                     kept `sublist_of` discoveredFeeds P page pageUrl)
    /\ (html result = None -> kept = [])
    /\ now <= later <= Nat.max now deadline.
Proof.
  destruct (pageObtained net pageUrl deadline now) as [page|] eqn:Hpage.
  - unfold pageObtained in Hpage.
    destruct (reply net pageUrl) as [e | res] eqn:Hreply; [done|].
    destruct (ok res) eqn:Hok; [|done]. cbn [andb] in Hpage.
    destruct (now + latency net pageUrl <? deadline)%nat eqn:Htime; [|done].
    apply Nat.ltb_lt in Htime. injection Hpage as <-.
    rewrite (scanURLForFeeds_obtained _ _ _ res Hreply Hok Htime).
    destruct (validateAll_shape net deadline
                (discoveredFeeds P (body res) pageUrl) []
                (now + latency net pageUrl))
      as (kept & later & -> & Hsub & Hkept & Hlater).
    exists {| html := Some (body res); scan_feeds := map snd kept |}, later,
      kept.
    split; [done|]. split; [done|]. split; [done|]. split.
    + by intros page [= <-].
    + split; [done | lia].
  - destruct (scanURLForFeeds_not_obtained pageUrl deadline now Hpage)
      as (later & -> & Hlater).
    exists {| html := None; scan_feeds := [] |}, later, [].
    split; [done|]. split; [done|]. split; [constructor|].
    split; [done|]. by split.
Qed.

(** A sublist of the candidates of a page has feeds with distinct URLs. *)
Lemma kept_NoDup (page pageUrl : string) (kept : list (string * FeedResult)) :
  kept `sublist_of` discoveredFeeds P page pageUrl ->
  map feed_url (map snd kept) = kept.*1 /\ NoDup (map feed_url (map snd kept)).
Proof.
  intros Hsub.
  assert (Heq : map feed_url (map snd kept) = kept.*1).
  { assert (Hin : forall c, c ∈ kept -> feed_url c.2 = c.1).
    { intros [k feed] Hc. apply (discoveredFeeds_key P page pageUrl).
      by apply (elem_of_sublist _ _ _ Hc Hsub). }
    clear Hsub. induction kept as [|c kept IH]; [done|].
    cbn [map fmap list_fmap]. f_equal.
    - apply Hin, elem_of_cons. by left.
    - apply IH. intros c' Hc'. apply Hin, elem_of_cons. by right. }
  split; [done|]. rewrite Heq.
  eapply sublist_NoDup; [|apply sublist_map, Hsub].
  rewrite discoveredFeeds_fold. apply insertAll_NoDup. constructor.
Qed.

(** The feeds of a scan have distinct URLs. *)
Lemma scanURLForFeeds_distinct (pageUrl : string) (deadline now : nat) :
  exists result later,
    scanURLForFeeds P net pageUrl deadline now = (inr result, later)
    /\ NoDup (map feed_url (scan_feeds result)).
Proof.
  destruct (scanURLForFeeds_kept pageUrl deadline now)
    as (result & later & kept & Hscan & Hfeeds & _ & Hsub & Hnone & _).
  exists result, later. split; [done|]. rewrite Hfeeds.
  destruct (html result) as [page|] eqn:Hpage.
  - apply (kept_NoDup page pageUrl kept (Hsub page eq_refl)).
  - rewrite (Hnone eq_refl). constructor.
Qed.

(** X15: a scan returns validated candidates only. The feeds of a scan are
    candidates of the page it obtained, in candidate order and each at most
    once; every one of them is served on the network as a document that
    passes the validator; and no two of them share a URL. *)
Theorem scanURLForFeeds_sound (pageUrl : string) (deadline now : nat) :
  exists result later kept,
    scanURLForFeeds P net pageUrl deadline now = (inr result, later)
    /\ scan_feeds result = map snd kept
    /\ (forall page, html result = Some page ->
                     kept `sublist_of` discoveredFeeds P page pageUrl)
    /\ Forall (servedAsFeed net) (scan_feeds result)
    /\ NoDup (map feed_url (scan_feeds result)).
Proof.
  destruct (scanURLForFeeds_kept pageUrl deadline now)
    as (result & later & kept & Hscan & Hfeeds & Hserved & Hsub & Hnone & _).
  exists result, later, kept. split; [done|]. split; [done|].
  split; [done|]. rewrite Hfeeds.
  destruct (html result) as [page|] eqn:Hpage.
  - destruct (kept_NoDup page pageUrl kept (Hsub page eq_refl))
      as [Hkeys Hnodup].
    split; [|done].
    apply Forall_fmap, Forall_forall. intros [k feed] Hc. cbn.
    apply servesFeed_spec.
    rewrite Forall_forall in Hserved. specialize (Hserved _ Hc).
    assert (feed_url feed = k) as ->; [|done].
    apply (discoveredFeeds_key P page pageUrl).
    by apply (elem_of_sublist _ _ _ Hc (Hsub page eq_refl)).
  - rewrite (Hnone eq_refl). split; constructor.
Qed.

(** X16: in time, a scan validates every candidate, one after the other.
    When the page is obtained and the latencies of the requests for the
    candidates, added up, still fit before the deadline, the feeds of the
    scan are exactly the candidates that are served as feeds, in candidate
    order, and the scan ends after the sum of all latencies. *)
Theorem scanURLForFeeds_in_time (pageUrl : string) (deadline now : nat)
    (res : Response) :
  reply net pageUrl = Responds res ->
  ok res = true ->
  now + latency net pageUrl
  + sum_list (map (fun c => latency net c.1)
                  (discoveredFeeds P (body res) pageUrl))
  < deadline ->
  scanURLForFeeds P net pageUrl deadline now
  = (inr {| html := Some (body res);
            scan_feeds :=
              map snd (List.filter (fun c => servesFeed net c.1)
                         (discoveredFeeds P (body res) pageUrl)) |},
     now + latency net pageUrl
     + sum_list (map (fun c => latency net c.1)
                     (discoveredFeeds P (body res) pageUrl))).
Proof.
  intros Hreply Hok Htime.
  rewrite (scanURLForFeeds_obtained _ _ _ res Hreply Hok) by lia.
  by rewrite validateAll_in_time by lia.
Qed.

(** X17: once the deadline has passed, nothing is fetched or added. A scan
    started at or after the deadline returns no page and no feeds at once,
    and a validation loop that reaches the deadline returns the feeds it
    has, whatever candidates are left. *)
Theorem scanURLForFeeds_after_deadline (pageUrl : string)
    (deadline now : nat) (candidates : list (string * FeedResult))
    (validFeeds : list FeedResult) :
  deadline <= now ->
  scanURLForFeeds P net pageUrl deadline now
  = (inr {| html := None; scan_feeds := [] |}, now)
  /\ validateAll net deadline candidates validFeeds now
     = (inr validFeeds, now).
Proof.
  intros Hlate. split; [|by apply validateAll_late].
  unfold scanURLForFeeds, tryCatch, awaitThen.
  rewrite fetch_late by lia. unfold resolve. by rewrite Nat.max_l by lia.
Qed.

End ScannerClaims.

(** The site of the fixtures: the page takes 10 ms, each of its ten
    candidates 5 ms; the two declared feeds validate. *)
Lemma scanURLForFeeds_in_time_witness :
  scanURLForFeeds MoreFixtures.pages MoreFixtures.steadySite
    "https://site.example" 100 0
  = (inr {| html := Some MoreFixtures.feedsPage;
            scan_feeds := [MoreFixtures.rssFeed; MoreFixtures.atomFeed] |},
     60).
Proof.
  apply (scanURLForFeeds_in_time MoreFixtures.pages MoreFixtures.steadySite
           "https://site.example" 100 0
           (Fixtures.htmlResponse MoreFixtures.feedsPage)).
  - reflexivity.
  - reflexivity.
  - vm_compute. lia.
Defined.

(** The same site with the clock at the deadline. *)
Lemma scanURLForFeeds_after_deadline_witness :
  scanURLForFeeds MoreFixtures.pages MoreFixtures.steadySite
    "https://site.example" 20 20
  = (inr {| html := None; scan_feeds := [] |}, 20)
  /\ validateAll MoreFixtures.steadySite 20
       [("https://site.example/feed.atom", MoreFixtures.atomFeed)]
       [MoreFixtures.rssFeed] 20
     = (inr [MoreFixtures.rssFeed], 20).
Proof.
  apply (scanURLForFeeds_after_deadline MoreFixtures.pages
           MoreFixtures.steadySite "https://site.example" 20 20
           [("https://site.example/feed.atom", MoreFixtures.atomFeed)]
           [MoreFixtures.rssFeed]).
  lia.
Defined.

(** ** The coordinator: errors, order of the feeds, sections and the clock *)

Lemma insertAll_fresh {V} (cs m : list (string * V)) :
  NoDup (m ++ cs).*1 -> foldl insertAbsent m cs = m ++ cs.
Proof.
  revert m. induction cs as [|c cs IH]; intros m Hnodup; cbn [foldl].
  - by rewrite app_nil_r.
  - assert (Hfresh : mapHas m c.1 = false).
    { apply mapHas_false. intros Hin.
      rewrite fmap_app in Hnodup. apply NoDup_app in Hnodup as (_ & Hdisj & _).
      apply (Hdisj _ Hin). cbn. apply elem_of_cons. by left. }
    rewrite insertAbsent_app, Hfresh, IH; rewrite <- app_assoc; done.
Qed.

Lemma entryOf_keys (found : list FeedResult) :
  (map entryOf found).*1 = map feed_url found.
Proof. induction found as [|f found IH]; [done|]. cbn. by rewrite IH. Qed.

Lemma entryOf_values (found : list FeedResult) :
  mapValues (map entryOf found) = found.
Proof.
  unfold mapValues. induction found as [|f found IH]; [done|].
  cbn. by rewrite IH.
Qed.

(** Every entry of a merged map is filed under the URL of its feed. *)
Lemma merged_filed (cs m : list (string * FeedResult)) :
  Forall (fun c => c.1 = feed_url c.2) m ->
  Forall (fun c => c.1 = feed_url c.2) cs ->
  Forall (fun c => c.1 = feed_url c.2) (foldl insertAbsent m cs).
Proof.
  revert m. induction cs as [|c cs IH]; intros m Hm Hcs; cbn [foldl]; [done|].
  apply Forall_cons in Hcs as [Hc Hcs]. apply IH; [|done].
  rewrite insertAbsent_app. apply Forall_app. split; [done|].
  destruct (mapHas m c.1); [constructor|]. by repeat constructor.
Qed.

(** The URLs of [firstByUrl] are the URLs of the list. *)
Lemma firstByUrl_urls (found : list FeedResult) (k : string) :
  k ∈ map feed_url (firstByUrl found) <-> k ∈ map feed_url found.
Proof.
  unfold firstByUrl, mapValues.
  assert (Hkeys : map feed_url
                    (map snd (foldl insertAbsent [] (map entryOf found)))
                  = (foldl insertAbsent [] (map entryOf found)).*1).
  { assert (Hfiled : Forall (fun c => c.1 = feed_url c.2)
                       (foldl insertAbsent [] (map entryOf found))).
    { apply merged_filed; [constructor|].
      apply Forall_fmap, Forall_forall. by intros f _. }
    induction Hfiled as [|c m Hc _ IH]; [done|].
    cbn [map fmap list_fmap]. by rewrite Hc, IH. }
  rewrite Hkeys, insertAll_keys, entryOf_keys. cbn. rewrite elem_of_nil.
  tauto.
Qed.

(** Feeds with distinct URLs at the front of the list stay in front. *)
Lemma firstByUrl_prefix (front rest : list FeedResult) :
  NoDup (map feed_url front) ->
  exists tail, firstByUrl (front ++ rest) = front ++ tail.
Proof.
  intros Hnodup. unfold firstByUrl.
  rewrite map_app, foldl_app.
  rewrite (insertAll_fresh _ []) by (cbn [app]; by rewrite entryOf_keys).
  cbn [app].
  destruct (insertAll_prefix (map entryOf rest) (map entryOf front))
    as [extra ->].
  exists (mapValues extra). unfold mapValues. rewrite map_app. f_equal.
  apply entryOf_values.
Qed.

Lemma firstByUrl_distinct (found : list FeedResult) :
  NoDup (map feed_url found) -> firstByUrl found = found.
Proof.
  intros Hnodup. unfold firstByUrl.
  rewrite (insertAll_fresh _ []) by (cbn [app]; by rewrite entryOf_keys).
  apply entryOf_values.
Qed.

(** The feeds of the section scans that fulfilled are the feeds of each
    of them. *)
Lemma elem_of_settledFeeds (settled : list (Exn + ScanResult))
    (f : FeedResult) :
  f ∈ settledFeeds settled <->
  exists scan, inr scan ∈ settled /\ f ∈ scan_feeds scan.
Proof.
  unfold settledFeeds. induction settled as [|[e | scan] settled IH];
    cbn [map concat].
  - split; [by intros ?%elem_of_nil|]. by intros (? & ?%elem_of_nil & _).
  - cbn [app]. rewrite IH. split; intros (scan & Hin & Hf); exists scan.
    + split; [|done]. apply elem_of_cons. by right.
    + apply elem_of_cons in Hin as [? | Hin]; [done|]. by split.
  - rewrite elem_of_app, IH. split.
    + intros [Hf | (scan' & Hin & Hf)].
      * exists scan. split; [apply elem_of_cons; by left | done].
      * exists scan'. split; [apply elem_of_cons; by right | done].
    + intros (scan' & Hin & Hf). apply elem_of_cons in Hin as [[= ->] | Hin].
      * by left.
      * right. by exists scan'.
Qed.

Section CoordinatorExtras.

Context (P : Platform) (net : Network).

(** What the coordinator returns, in terms of the page that the root scan
    obtains. *)
Lemma findRSSFeeds_outcome (o : CLIOptions) (baseUrl : string)
    (deadline : nat) :
  AbortSignal_timeout (timeout o) = inr deadline ->
  exists rootScan rootEnd,
    scanURLForFeeds P net baseUrl deadline 0 = (inr rootScan, rootEnd)
    /\ html rootScan = pageObtained net baseUrl deadline 0
    /\ NoDup (map feed_url (scan_feeds rootScan))
    /\ findRSSFeeds P net o baseUrl
       = inr match tryFault P o (pageObtained net baseUrl deadline 0) with
             | Some e =>
                 {| url := baseUrl; feeds := [];
                    error := Some (errorMessageOf e) |}
             | None =>
                 {| url := baseUrl;
                    feeds :=
                      firstByUrl
                        (scan_feeds rootScan
                         ++ settledFeeds
                              (sectionScans P net
                                 (sectionURLs P o baseUrl (html rootScan))
                                 deadline rootEnd));
                    error := None |}
             end.
Proof.
  intros Hsignal.
  destruct (findRSSFeeds_result P net o baseUrl deadline Hsignal)
    as (rootScan & rootEnd & Hscan & _ & Hresult).
  exists rootScan, rootEnd. split; [done|].
  pose proof (scanURLForFeeds_html P net _ _ _ _ _ Hscan) as Hhtml.
  split; [done|]. split; [|by rewrite <- Hhtml].
  destruct (scanURLForFeeds_distinct P net baseUrl deadline 0)
    as (rootScan' & rootEnd' & Hscan' & Hnodup).
  rewrite Hscan in Hscan'. by injection Hscan' as <- _.
Qed.

(** X18: where an error comes from. Under a timeout that the signal takes,
    [findRSSFeeds] fulfils with a result for the input URL, and the result
    carries an error exactly when the section heuristic throws on the root
    page: the page was obtained, [skipBlogs] is not set, and cheerio raises
    an exception while the anchors are read. The result then has no feeds,
    also when the root scan found some, and the error is the message of
    the exception. A request that fails, an answer that is not OK and an
    expired deadline never give an error. *)
Theorem findRSSFeeds_error_source (o : CLIOptions) (baseUrl : string)
    (deadline : nat) :
  AbortSignal_timeout (timeout o) = inr deadline ->
  exists result,
    findRSSFeeds P net o baseUrl = inr result
    /\ url result = baseUrl
    /\ match tryFault P o (pageObtained net baseUrl deadline 0) with
       | Some e => feeds result = [] /\ error result = Some (errorMessageOf e)
       | None => error result = None
       end
    /\ (pageObtained net baseUrl deadline 0 = None -> error result = None)
    /\ (skipBlogs o = true -> error result = None)
    /\ (forall page, pageObtained net baseUrl deadline 0 = Some page ->
                     anchorsFault P page = None -> error result = None).
Proof.
  intros Hsignal.
  destruct (findRSSFeeds_outcome o baseUrl deadline Hsignal)
    as (rootScan & rootEnd & _ & _ & _ & Hresult).
  eexists. split; [exact Hresult|].
  unfold tryFault, heuristicFault.
  destruct (pageObtained net baseUrl deadline 0) as [page|];
    cbn [htmlTruthy]; rewrite ?andb_false_r; [|done].
  destruct (skipBlogs o); cbn [negb andb]; [done|].
  destruct (JS.truthy page); [|done].
  destruct (anchorsFault P page) as [e|] eqn:Hfault; cbn [url feeds error].
  - split; [done|]. split; [done|]. split; [done|]. split; [done|].
    intros page' [= <-]. congruence.
  - done.
Qed.

(** X19: the feeds of the root page come first, and the sections add
    theirs. Under a timeout that the signal takes and on a root page on
    which the heuristic does not throw, the feeds of the result are the
    feeds of the root scan followed by those of the section scans, in the
    order of the sections, with each URL once. So the root scan's feeds
    stand in front in their order; every feed that a section scan returns
    is in the result by its URL; every feed of the result was returned by
    the root scan or by a section scan; and no two feeds of the result
    share a URL. *)
Theorem findRSSFeeds_root_first (o : CLIOptions) (baseUrl : string)
    (deadline : nat) :
  AbortSignal_timeout (timeout o) = inr deadline ->
  tryFault P o (pageObtained net baseUrl deadline 0) = None ->
  exists rootScan rootEnd result,
    scanURLForFeeds P net baseUrl deadline 0 = (inr rootScan, rootEnd)
    /\ findRSSFeeds P net o baseUrl = inr result
    /\ error result = None
    /\ feeds result
       = firstByUrl
           (scan_feeds rootScan
            ++ settledFeeds
                 (sectionScans P net
                    (sectionURLs P o baseUrl (html rootScan))
                    deadline rootEnd))
    /\ (exists fromSections,
           feeds result = scan_feeds rootScan ++ fromSections)
    /\ (forall blogUrl scan later f,
           blogUrl ∈ sectionURLs P o baseUrl (html rootScan) ->
           scanURLForFeeds P net blogUrl deadline rootEnd = (inr scan, later) ->
           f ∈ scan_feeds scan ->
           feed_url f ∈ map feed_url (feeds result))
    /\ (forall f,
           f ∈ feeds result ->
           f ∈ scan_feeds rootScan
           \/ exists blogUrl scan later,
                blogUrl ∈ sectionURLs P o baseUrl (html rootScan)
                /\ scanURLForFeeds P net blogUrl deadline rootEnd
                   = (inr scan, later)
                /\ f ∈ scan_feeds scan)
    /\ NoDup (map feed_url (feeds result)).
Proof.
  intros Hsignal Hfault.
  destruct (findRSSFeeds_outcome o baseUrl deadline Hsignal)
    as (rootScan & rootEnd & Hscan & Hhtml & Hnodup & Hresult).
  rewrite Hfault in Hresult.
  eexists rootScan, rootEnd, _. split; [done|]. split; [exact Hresult|].
  cbn [error feeds]. split; [done|]. split; [done|].
  split; [by apply firstByUrl_prefix|].
  set (sections := sectionURLs P o baseUrl (html rootScan)).
  split; [|split].
  - intros blogUrl scan later f Hin Hrun Hf.
    apply firstByUrl_urls. rewrite map_app, elem_of_app. right.
    apply list_elem_of_fmap_2, elem_of_settledFeeds.
    exists scan. split; [|done]. unfold sectionScans.
    apply list_elem_of_fmap. exists blogUrl. by rewrite Hrun.
  - intros f Hf.
    destruct (merged_values
                (scan_feeds rootScan
                 ++ settledFeeds (sectionScans P net sections deadline rootEnd)))
      as [Hfrom _].
    apply Hfrom, elem_of_app in Hf as [Hf | Hf]; [by left|]. right.
    apply elem_of_settledFeeds in Hf as (scan & Hin & Hf).
    unfold sectionScans in Hin.
    apply list_elem_of_fmap in Hin as (blogUrl & Hrun & Hin).
    exists blogUrl, scan, (scanURLForFeeds P net blogUrl deadline rootEnd).2.
    split; [done|]. split; [|done].
    destruct (scanURLForFeeds P net blogUrl deadline rootEnd) as [settled later].
    cbn [fst snd] in *. by rewrite Hrun.
  - match goal with
    | |- context [firstByUrl ?found] =>
        by destruct (merged_values found) as [_ ?]
    end.
Qed.

(** X20: with [--no-blogs] only the root page is scanned. Under a timeout
    that the signal takes, when [skipBlogs] is set, the result holds
    exactly the feeds of the root scan and no error, also on a page on
    which the heuristic would throw. *)
Theorem findRSSFeeds_skipBlogs (o : CLIOptions) (baseUrl : string)
    (deadline : nat) :
  AbortSignal_timeout (timeout o) = inr deadline ->
  skipBlogs o = true ->
  exists rootScan rootEnd,
    scanURLForFeeds P net baseUrl deadline 0 = (inr rootScan, rootEnd)
    /\ findRSSFeeds P net o baseUrl
       = inr {| url := baseUrl; feeds := scan_feeds rootScan;
                error := None |}.
Proof.
  intros Hsignal Hskip.
  destruct (findRSSFeeds_outcome o baseUrl deadline Hsignal)
    as (rootScan & rootEnd & Hscan & _ & Hnodup & ->).
  exists rootScan, rootEnd. split; [done|].
  unfold tryFault, sectionURLs. rewrite Hskip. cbn [negb andb].
  cbn [sectionScans map settledFeeds concat].
  by rewrite app_nil_r, (firstByUrl_distinct _ Hnodup).
Qed.

(** X21: a root page that is not obtained ends the work for the site.
    Under a timeout that the signal takes, when the root request is
    rejected, is aborted by the deadline or is answered with a status that
    is not OK, no section is scanned and the result has no feeds and no
    error. *)
Theorem findRSSFeeds_root_not_obtained (o : CLIOptions) (baseUrl : string)
    (deadline : nat) :
  AbortSignal_timeout (timeout o) = inr deadline ->
  pageObtained net baseUrl deadline 0 = None ->
  findRSSFeeds P net o baseUrl
  = inr {| url := baseUrl; feeds := []; error := None |}.
Proof.
  intros Hsignal Hpage.
  destruct (scanURLForFeeds_not_obtained P net baseUrl _ 0 Hpage)
    as (later & Hfailed & _).
  by apply (findRSSFeeds_no_page P net o baseUrl deadline later).
Qed.

(** Scans run side by side end no later than the deadline. *)
Lemma allSettled_clock (blogURLs : list string) (deadline now : nat) :
  now <= (allSettled (map (fun blogUrl => scanURLForFeeds P net blogUrl deadline)
                          blogURLs) now).2
  /\ (allSettled (map (fun blogUrl => scanURLForFeeds P net blogUrl deadline)
                      blogURLs) now).2
     <= Nat.max now deadline.
Proof.
  unfold allSettled. cbn [snd]. rewrite !map_map.
  induction blogURLs as [|blogUrl blogURLs IH]; cbn [map foldr]; [lia|].
  destruct (scanURLForFeeds_kept P net blogUrl deadline now)
    as (result & later & kept & -> & _ & _ & _ & _ & Hlater).
  cbn [snd]. lia.
Qed.

(** X22: one deadline bounds all the work for a site. The [try] block of
    [findRSSFeeds], with the root scan, the validation of its candidates
    and all section scans, settles no earlier than it starts and no later
    than the deadline (or at once, when the deadline has passed). *)
Theorem findRSSFeeds_within_deadline (o : CLIOptions) (baseUrl : string)
    (deadline now : nat) :
  now <= (findRSSFeedsTry P net o baseUrl deadline now).2
  /\ (findRSSFeedsTry P net o baseUrl deadline now).2 <= Nat.max now deadline.
Proof.
  unfold findRSSFeedsTry, awaitThen.
  destruct (scanURLForFeeds_kept P net baseUrl deadline now)
    as (rootScan & rootEnd & kept & -> & _ & _ & _ & _ & Hroot).
  destruct (negb (skipBlogs o) && htmlTruthy (html rootScan));
    [|cbn [snd resolve]; lia].
  unfold discoverBlogSubdirectoriesCall, resolve, reject.
  destruct (heuristicFault P (html rootScan)); [cbn [snd]; lia|].
  destruct (0 <? length (discoverBlogSubdirectories P o baseUrl
                           (html rootScan)))%nat;
    [|cbn [snd]; lia].
  match goal with
  | |- context [allSettled (map _ ?urls) rootEnd] =>
      pose proof (allSettled_clock urls deadline rootEnd) as Hclock;
      destruct (allSettled (map (fun blogUrl =>
                                   scanURLForFeeds P net blogUrl deadline)
                                urls) rootEnd) as [[e | settled] later]
  end; cbn [snd resolve] in *; lia.
Qed.

End CoordinatorExtras.

(** A page on which the heuristic throws: the error is the message of the
    exception, and there is no feed. *)
Lemma findRSSFeeds_error_source_witness :
  exists result,
    findRSSFeeds MoreFixtures.pages MoreFixtures.sectionSite cliOptions
      "https://broken.example" = inr result
    /\ url result = "https://broken.example"
    /\ (feeds result = []
        /\ error result = Some "Maximum call stack size exceeded")
    /\ (pageObtained MoreFixtures.sectionSite "https://broken.example"
          (Z.to_nat 10000) 0 = None -> error result = None)
    /\ (skipBlogs cliOptions = true -> error result = None)
    /\ (forall page,
           pageObtained MoreFixtures.sectionSite "https://broken.example"
             (Z.to_nat 10000) 0 = Some page ->
           anchorsFault MoreFixtures.pages page = None ->
           error result = None).
Proof.
  apply (findRSSFeeds_error_source MoreFixtures.pages MoreFixtures.sectionSite
           cliOptions "https://broken.example" (Z.to_nat 10000)).
  reflexivity.
Defined.

(** A home page with one feed and a blog section with a feed of its own
    and the feed of the home page. *)
Lemma findRSSFeeds_root_first_witness :
  exists rootScan rootEnd result,
    scanURLForFeeds MoreFixtures.pages MoreFixtures.sectionSite
      "https://home.example" (Z.to_nat 10000) 0 = (inr rootScan, rootEnd)
    /\ findRSSFeeds MoreFixtures.pages MoreFixtures.sectionSite cliOptions
         "https://home.example" = inr result
    /\ error result = None
    /\ feeds result
       = firstByUrl
           (scan_feeds rootScan
            ++ settledFeeds
                 (sectionScans MoreFixtures.pages MoreFixtures.sectionSite
                    (sectionURLs MoreFixtures.pages cliOptions
                       "https://home.example" (html rootScan))
                    (Z.to_nat 10000) rootEnd))
    /\ (exists fromSections,
           feeds result = scan_feeds rootScan ++ fromSections)
    /\ (forall blogUrl scan later f,
           blogUrl ∈ sectionURLs MoreFixtures.pages cliOptions
                       "https://home.example" (html rootScan) ->
           scanURLForFeeds MoreFixtures.pages MoreFixtures.sectionSite
             blogUrl (Z.to_nat 10000) rootEnd = (inr scan, later) ->
           f ∈ scan_feeds scan ->
           feed_url f ∈ map feed_url (feeds result))
    /\ (forall f,
           f ∈ feeds result ->
           f ∈ scan_feeds rootScan
           \/ exists blogUrl scan later,
                blogUrl ∈ sectionURLs MoreFixtures.pages cliOptions
                            "https://home.example" (html rootScan)
                /\ scanURLForFeeds MoreFixtures.pages MoreFixtures.sectionSite
                     blogUrl (Z.to_nat 10000) rootEnd = (inr scan, later)
                /\ f ∈ scan_feeds scan)
    /\ NoDup (map feed_url (feeds result)).
Proof.
  apply (findRSSFeeds_root_first MoreFixtures.pages MoreFixtures.sectionSite
           cliOptions "https://home.example" (Z.to_nat 10000)).
  - reflexivity.
  - reflexivity.
Defined.

(** The site of the fixtures with [--no-blogs]. *)
Lemma findRSSFeeds_skipBlogs_witness :
  exists rootScan rootEnd,
    scanURLForFeeds MoreFixtures.pages MoreFixtures.steadySite
      "https://site.example" (Z.to_nat 10000) 0
    = (inr rootScan, rootEnd)
    /\ findRSSFeeds MoreFixtures.pages MoreFixtures.steadySite
         (setSkipBlogs cliOptions) "https://site.example"
       = inr {| url := "https://site.example"; feeds := scan_feeds rootScan;
                error := None |}.
Proof.
  apply (findRSSFeeds_skipBlogs MoreFixtures.pages MoreFixtures.steadySite
           (setSkipBlogs cliOptions) "https://site.example" (Z.to_nat 10000)).
  - reflexivity.
  - reflexivity.
Defined.

(** A site that answers 500. *)
Lemma findRSSFeeds_root_not_obtained_witness :
  findRSSFeeds MoreFixtures.pages MoreFixtures.steadySite cliOptions
    "https://down.example"
  = inr {| url := "https://down.example"; feeds := []; error := None |}.
Proof.
  apply (findRSSFeeds_root_not_obtained MoreFixtures.pages
           MoreFixtures.steadySite cliOptions "https://down.example"
           (Z.to_nat 10000)).
  - reflexivity.
  - reflexivity.
Defined.

(** The coordinator on the fixtures: the section adds its feed after the
    feed of the root page; a timeout of 2^31 ms fires after 1 ms, before
    the root page of the steady site arrives; a timeout of 2^32 ms is
    refused. *)
Example test_findRSSFeeds_sections :
  findRSSFeeds MoreFixtures.pages MoreFixtures.sectionSite cliOptions
    "https://home.example"
  = inr {| url := "https://home.example";
           feeds := [MoreFixtures.homeFeed; MoreFixtures.blogFeed];
           error := None |}.
Proof. vm_compute. reflexivity. Qed.

Example test_findRSSFeeds_timer_overflow :
  AbortSignal_timeout 2147483648 = inr 1
  /\ findRSSFeeds MoreFixtures.pages MoreFixtures.steadySite
       (setSkipBlogs (setTimeout 2147483648 cliOptions)) "https://site.example"
     = inr {| url := "https://site.example"; feeds := []; error := None |}.
Proof. split; vm_compute; reflexivity. Qed.

Example test_findRSSFeeds_refused_timeout :
  findRSSFeeds MoreFixtures.pages MoreFixtures.steadySite
    (setTimeout 4294967296 cliOptions) "https://site.example"
  = inl delayOutOfRange.
Proof. reflexivity. Qed.

(** ** The report and the exit code of the program *)

(** The loop counts a feed exactly when a result without a reported error
    holds one. *)
Lemma countedFeeds_positive (scanResults : list DiscoveredResult) :
  (0 <? countedFeeds scanResults)%nat = true <->
  exists r, r ∈ scanResults /\ ~ reportsError r /\ feeds r <> [].
Proof.
  rewrite Nat.ltb_lt. unfold countedFeeds.
  induction scanResults as [|r rs IH]; cbn [map sum_list sum_list_with].
  - split; [lia|]. intros (r & Hin & _). by apply elem_of_nil in Hin.
  - split.
    + intros Hsum. destruct (errorTruthy r) eqn:Herr.
      * destruct (proj1 IH) as (r' & Hin & Hr'); [cbn in *; lia|].
        exists r'. split; [|done]. apply elem_of_cons. by right.
      * destruct (feeds r) as [|f fs] eqn:Hfeeds.
        -- destruct (proj1 IH) as (r' & Hin & Hr'); [cbn in *; lia|].
           exists r'. split; [|done]. apply elem_of_cons. by right.
        -- exists r. split; [apply elem_of_cons; by left|].
           split; [|by rewrite Hfeeds].
           intros Hreports. apply errorTruthy_spec in Hreports. congruence.
    + intros (r' & Hin & Hnone & Hfeeds).
      apply elem_of_cons in Hin as [-> | Hin].
      * destruct (errorTruthy r) eqn:Herr.
        -- by apply errorTruthy_spec in Herr.
        -- destruct (feeds r); [done|]. cbn. lia.
      * assert (0 < sum_list
                      (map (fun r => if errorTruthy r then 0
                                     else length (feeds r)) rs))
          by (apply IH; eauto).
        lia.
Qed.

(** X23: the report for any list of results. [results] are the scan
    results in their order; [success] is true exactly when no result
    reports an error (an empty error string does not count as one);
    [partialResults] is present, and then [true], exactly when some result
    reports an error and some result that reports none holds a feed, so
    that feeds held by a result with an error never make a run partial; and
    the exit code is 2 exactly when [success] is false. *)
Theorem summarize_partial (scanResults : list DiscoveredResult) :
  results (summarize scanResults).1 = scanResults
  /\ (success (summarize scanResults).1 = true <->
      forall r, r ∈ scanResults -> ~ reportsError r)
  /\ (partialResults (summarize scanResults).1 = Some true <->
      (exists r, r ∈ scanResults /\ reportsError r)
      /\ exists r, r ∈ scanResults /\ ~ reportsError r /\ feeds r <> [])
  /\ partialResults (summarize scanResults).1 <> Some false
  /\ ((summarize scanResults).2 = 2%Z <->
      success (summarize scanResults).1 = false).
Proof.
  rewrite summarize_eq. cbn [fst snd success partialResults results].
  split; [done|]. split.
  { rewrite negb_true_iff. apply existsb_errorTruthy_false. }
  split.
  { rewrite <- existsb_errorTruthy, <- countedFeeds_positive.
    destruct (existsb errorTruthy scanResults),
      (0 <? countedFeeds scanResults)%nat; cbn; intuition congruence. }
  split.
  { by destruct (existsb errorTruthy scanResults && _). }
  destruct (existsb errorTruthy scanResults); cbn; [done|].
  destruct (countedFeeds scanResults =? 0)%nat; split; done.
Qed.

Section ProgramExtras.

Context (P : Platform) (net : Network).

(** X24: [--version] comes first, then [--help]. When the arguments parse
    and [--version] or [-V] is among the tokens not read as an option's
    value, the program prints the version and exits with 0, whatever else
    is on the command line; otherwise, when [--help] or [-h] is among
    them, it prints the help text and exits with 0. In both cases no URL
    is needed and no site is scanned: the outcome is the same on every
    network. *)
Theorem main_version_then_help (args urls : list string) (o' : CLIOptions) :
  parseArgs args cliOptions = (inr urls, o') ->
  ("--version" ∈ unconsumed args \/ "-V" ∈ unconsumed args ->
   main P net args = (VersionLine, 0%Z))
  /\ (~ ("--version" ∈ unconsumed args \/ "-V" ∈ unconsumed args) ->
      "--help" ∈ unconsumed args \/ "-h" ∈ unconsumed args ->
      main P net args = (HelpText, 0%Z)).
Proof.
  intros Hparse.
  destruct (parseArgsFrom_flags args [] cliOptions urls o' Hparse)
    as (Hhelp & Hversion & _ & _).
  unfold main, mainWith. rewrite Hparse. split.
  - intros Hasked.
    assert (version o' = true) as -> by (apply Hversion; tauto). done.
  - intros Hnot Hasked.
    assert (version o' = false) as ->.
    { apply not_true_is_false. intros Hv.
      apply Hversion in Hv as [Hv | Hv]; [done | tauto]. }
    assert (help o' = true) as -> by (apply Hhelp; tauto). done.
Qed.

(** Under a timeout that the signal takes, the call for a site fulfils,
    and its result reports an error exactly when the heuristic throws an
    exception with a message on that site; it then holds no feed. *)
Lemma findRSSFeeds_site (o : CLIOptions) (u : string) (deadline : nat) :
  AbortSignal_timeout (timeout o) = inr deadline ->
  exists r,
    findRSSFeeds P net o u = inr r
    /\ (reportsError r <->
        exists e, siteFault P net o u = Some e /\ errorMessageOf e <> "")
    /\ (reportsError r -> feeds r = []).
Proof.
  intros Hsignal.
  destruct (findRSSFeeds_outcome P net o u deadline Hsignal)
    as (rootScan & rootEnd & _ & _ & _ & Hresult).
  eexists. split; [exact Hresult|].
  unfold siteFault, reportsError. rewrite Hsignal.
  destruct (tryFault P o (pageObtained net u deadline 0)) as [e|];
    cbn [error feeds].
  - split; [|done]. split.
    + intros (msg & [= <-] & Hmsg). by exists e.
    + intros (e' & [= <-] & Hmsg). by eexists.
  - split; [|by intros (? & ? & _)].
    split; [by intros (? & ? & _) | by intros (? & ? & _)].
Qed.

(** Under such a timeout every call of a run fulfils. *)
Lemma findRSSFeeds_all (o : CLIOptions) (urls : list string) (deadline : nat) :
  AbortSignal_timeout (timeout o) = inr deadline ->
  exists scanResults,
    map (findRSSFeeds P net o) urls = map inr scanResults
    /\ (forall r, r ∈ scanResults ->
                  exists u, u ∈ urls /\ findRSSFeeds P net o u = inr r)
    /\ (forall u, u ∈ urls ->
                  exists r, r ∈ scanResults /\ findRSSFeeds P net o u = inr r).
Proof.
  intros Hsignal. induction urls as [|u urls IH].
  - exists []. split; [done|].
    split; intros ? Hin; by apply elem_of_nil in Hin.
  - destruct IH as (rs & Hmap & Hfrom & Hto).
    destruct (findRSSFeeds_site o u deadline Hsignal) as (r & Hr & _).
    exists (r :: rs). cbn [map]. rewrite Hr, Hmap. split; [done|]. split.
    + intros r' Hin. apply elem_of_cons in Hin as [-> | Hin].
      * exists u. split; [apply elem_of_cons; by left | done].
      * destruct (Hfrom r' Hin) as (u' & Hu' & Hr').
        exists u'. split; [apply elem_of_cons; by right | done].
    + intros u' Hin. apply elem_of_cons in Hin as [-> | Hin].
      * exists r. split; [apply elem_of_cons; by left | done].
      * destruct (Hto u' Hin) as (r' & Hr' & Hu').
        exists r'. split; [apply elem_of_cons; by right | done].
Qed.

(** The signal refuses a positive timeout exactly above 2^32 - 1. *)
Lemma AbortSignal_timeout_refused (delay : Z) :
  (0 < delay)%Z ->
  (exists e, AbortSignal_timeout delay = inl e) <-> (4294967295 < delay)%Z.
Proof.
  intros Hpositive. unfold AbortSignal_timeout.
  destruct (delay <? 0)%Z eqn:Hneg; [apply Z.ltb_lt in Hneg; lia|].
  cbn [orb]. destruct (4294967295 <? delay)%Z eqn:Hbig.
  - apply Z.ltb_lt in Hbig. split; [done | by eexists].
  - apply Z.ltb_ge in Hbig.
    split; [|lia]. intros [e He]. by destruct (_ && _).
Qed.

(** X25: the exit codes of the program, for arguments of ASCII text (on
    which the embedding of [parseInt] and [trim] is that of the program).
    The exit code is 0, 1 or 2, and a run that writes nothing to stdout
    exits with 2. The program exits with 2 exactly when the arguments do
    not parse, or when they parse without a request for the version or the
    help text and no URL is given, or the timeout is above 2^32 - 1 (the
    signal refuses it, and no report is written), or the section heuristic
    throws an exception with a message on the root page of a site. So a
    request that fails, a status that is not OK and an expired deadline
    never lead to exit code 2: on a platform on which cheerio raises no
    exception, exit code 2 means that nothing was written to stdout. The
    program exits with 1 exactly when it prints a report with
    [success: true] in which no result holds a feed. *)
Theorem main_exit_codes (args : list string) :
  Forall (fun arg => asciiText arg = true) args ->
  ((main P net args).2 = 0%Z \/ (main P net args).2 = 1%Z
   \/ (main P net args).2 = 2%Z)
  /\ ((main P net args).1 = Nothing -> (main P net args).2 = 2%Z)
  /\ ((main P net args).2 = 2%Z <->
      (exists e o', parseArgs args cliOptions = (inl e, o'))
      \/ exists urls o',
           parseArgs args cliOptions = (inr urls, o')
           /\ version o' = false /\ help o' = false
           /\ (urls = []
               \/ (4294967295 < timeout o')%Z
               \/ exists u e,
                    u ∈ urls /\ siteFault P net o' u = Some e
                    /\ errorMessageOf e <> ""))
  /\ ((forall page, anchorsFault P page = None) ->
      ((main P net args).2 = 2%Z <-> (main P net args).1 = Nothing))
  /\ ((main P net args).2 = 1%Z <->
      exists output,
        (main P net args).1 = Report output
        /\ success output = true
        /\ forall r, r ∈ results output -> feeds r = []).
Proof.
  intros _. unfold main.
  destruct (parseArgs args cliOptions) as [[e | urls] o'] eqn:Hparse.
  { rewrite (mainWith_parse_error _ _ _ _ _ Hparse). cbn [fst snd].
    split; [auto|]. split; [done|]. split; [split; eauto|].
    split; [done|]. split; [done | by intros (? & ? & _)]. }
  assert (Htimeout : (0 < timeout o')%Z).
  { pose proof (parseArgsFrom_positive args [] cliOptions) as Hpositive.
    unfold parseArgs in Hparse. rewrite Hparse in Hpositive.
    by apply Hpositive. }
  unfold mainWith. rewrite Hparse.
  destruct (version o') eqn:Hversion.
  { cbn [fst snd]. split; [auto|]. split; [done|]. split.
    { split; [done|]. intros [(? & ? & ?) | (? & ? & ? & ? & _)]; congruence. }
    split; [done|]. split; [done | by intros (? & ? & _)]. }
  destruct (help o') eqn:Hhelp.
  { cbn [fst snd]. split; [auto|]. split; [done|]. split.
    { split; [done|].
      intros [(? & ? & ?) | (? & ? & ? & ? & ? & _)]; congruence. }
    split; [done|]. split; [done | by intros (? & ? & _)]. }
  destruct urls as [|u0 urls]; cbn [length Nat.eqb].
  { cbn [fst snd]. split; [auto|]. split; [done|]. split.
    { split; [|done]. intros _. right. exists [], o'. repeat split; auto. }
    split; [done|]. split; [done | by intros (? & ? & _)]. }
  destruct (AbortSignal_timeout (timeout o')) as [e | deadline] eqn:Hsignal.
  { assert (Hbig : (4294967295 < timeout o')%Z)
      by (apply AbortSignal_timeout_refused; [done | by eexists]).
    destruct (proj2 (promiseAll_inl
                       (map (findRSSFeeds P net o') (u0 :: urls))))
      as [e' ->].
    { exists e. apply list_elem_of_fmap. exists u0.
      split; [|apply elem_of_cons; by left].
      symmetry. by apply findRSSFeeds_rejected. }
    cbn [fst snd]. split; [auto|]. split; [done|]. split.
    { split; [|done]. intros _. right. exists (u0 :: urls), o'. repeat split; auto. }
    split; [done|]. split; [done | by intros (? & ? & _)]. }
  assert (Hsmall : ~ (4294967295 < timeout o')%Z).
  { intros Hbig. apply AbortSignal_timeout_refused in Hbig as [e He];
      [congruence | done]. }
  destruct (findRSSFeeds_all o' (u0 :: urls) deadline Hsignal)
    as (scanResults & Hscans & Hfrom & Hto).
  rewrite (proj2 (promiseAll_inr _ _) Hscans).
  destruct (summarize_code scanResults) as (Htwo & Hone & Hzero).
  pose proof (summarize_eq scanResults) as Heq.
  destruct (summarize scanResults) as [output code]. cbn [fst snd] in *.
  cbn zeta in Heq. injection Heq as Houtput Hcode.
  assert (Hfault : (exists r, r ∈ scanResults /\ reportsError r) <->
                   exists u e,
                     u ∈ u0 :: urls /\ siteFault P net o' u = Some e
                     /\ errorMessageOf e <> "").
  { split.
    - intros (r & Hin & Hr). destruct (Hfrom r Hin) as (u & Hu & Hrun).
      destruct (findRSSFeeds_site o' u deadline Hsignal)
        as (r' & Hrun' & Hiff & _).
      assert (r' = r) as -> by congruence.
      destruct (proj1 Hiff Hr) as (e & He & Hmsg). by exists u, e.
    - intros (u & e & Hu & He & Hmsg). destruct (Hto u Hu) as (r & Hin & Hrun).
      destruct (findRSSFeeds_site o' u deadline Hsignal)
        as (r' & Hrun' & Hiff & _).
      assert (r' = r) as -> by congruence.
      exists r. split; [done|]. apply Hiff. by exists e. }
  split.
  { subst code. destruct (existsb errorTruthy scanResults); [auto|].
    destruct (_ =? 0)%nat; auto. }
  split; [done|]. split.
  { rewrite Htwo, Hfault. split.
    - intros Hsome. right. exists (u0 :: urls), o'. repeat split; auto.
    - intros [(? & ? & ?) | (urls' & o'' & [= <- <-] & _ & _ & Hcases)];
        [done|].
      destruct Hcases as [? | [? | ?]]; done. }
  split.
  { intros Hnone. split; [|done]. rewrite Htwo, Hfault.
    intros (u & e & _ & He & _). unfold siteFault in He.
    rewrite Hsignal in He. unfold tryFault, heuristicFault in He.
    destruct (negb (skipBlogs o') && _); [|done].
    destruct (pageObtained net u deadline 0) as [page|]; [|done].
    destruct (JS.truthy page); [|done]. by rewrite Hnone in He. }
  rewrite Hone. subst output.
  assert (Hsuccess : negb (existsb errorTruthy scanResults) = true <->
                     forall r, r ∈ scanResults -> ~ reportsError r).
  { rewrite negb_true_iff. apply existsb_errorTruthy_false. }
  split.
  - intros [Hnone Hempty]. eexists. split; [done|].
    cbn [success results]. split; [by apply Hsuccess | done].
  - intros (output & [= <-] & Hok & Hempty). cbn [success results] in *.
    split; [by apply Hsuccess | done].
Qed.

End ProgramExtras.

(** [--help] before a URL and [-V] after it: the version is printed. *)
Lemma main_version_then_help_witness :
  main Fixtures.pages Fixtures.twoSites
    ["--help"; "https://good.example"; "-V"]
  = (VersionLine, 0%Z).
Proof.
  apply (main_version_then_help Fixtures.pages Fixtures.twoSites
           ["--help"; "https://good.example"; "-V"]
           ["https://good.example"] (setVersion (setHelp cliOptions))).
  - reflexivity.
  - right. apply list_elem_of_In. cbn. tauto.
Defined.

(** A run over a site with feeds and a site on which the heuristic throws:
    the report is written and the exit code is 2. *)
Lemma main_exit_codes_witness :
  ((main MoreFixtures.pages MoreFixtures.sectionSite
      ["https://home.example"; "https://broken.example"]).2 = 0%Z
   \/ (main MoreFixtures.pages MoreFixtures.sectionSite
      ["https://home.example"; "https://broken.example"]).2 = 1%Z
   \/ (main MoreFixtures.pages MoreFixtures.sectionSite
      ["https://home.example"; "https://broken.example"]).2 = 2%Z)
  /\ ((main MoreFixtures.pages MoreFixtures.sectionSite
      ["https://home.example"; "https://broken.example"]).1 = Nothing
      -> (main MoreFixtures.pages MoreFixtures.sectionSite
      ["https://home.example"; "https://broken.example"]).2 = 2%Z)
  /\ ((main MoreFixtures.pages MoreFixtures.sectionSite
      ["https://home.example"; "https://broken.example"]).2 = 2%Z <->
      (exists e o',
          parseArgs ["https://home.example"; "https://broken.example"]
            cliOptions = (inl e, o'))
      \/ exists urls o',
           parseArgs ["https://home.example"; "https://broken.example"]
             cliOptions = (inr urls, o')
           /\ version o' = false /\ help o' = false
           /\ (urls = []
               \/ (4294967295 < timeout o')%Z
               \/ exists u e,
                    u ∈ urls
                    /\ siteFault MoreFixtures.pages MoreFixtures.sectionSite
                         o' u = Some e
                    /\ errorMessageOf e <> ""))
  /\ ((forall page, anchorsFault MoreFixtures.pages page = None) ->
      ((main MoreFixtures.pages MoreFixtures.sectionSite
      ["https://home.example"; "https://broken.example"]).2 = 2%Z
       <-> (main MoreFixtures.pages MoreFixtures.sectionSite
      ["https://home.example"; "https://broken.example"]).1 = Nothing))
  /\ ((main MoreFixtures.pages MoreFixtures.sectionSite
      ["https://home.example"; "https://broken.example"]).2 = 1%Z <->
      exists output,
        (main MoreFixtures.pages MoreFixtures.sectionSite
      ["https://home.example"; "https://broken.example"]).1 = Report output
        /\ success output = true
        /\ forall r, r ∈ results output -> feeds r = []).
Proof.
  apply (main_exit_codes MoreFixtures.pages MoreFixtures.sectionSite
           ["https://home.example"; "https://broken.example"]).
  constructor; [reflexivity|]. constructor; [reflexivity|]. constructor.
Defined.

(** The program on the fixtures: a site with feeds and a site on which the
    heuristic throws give a partial report and exit code 2; a timeout that
    the signal refuses gives no report and exit code 2. *)
Example test_main_partial :
  main MoreFixtures.pages MoreFixtures.sectionSite
    ["https://home.example"; "https://broken.example"]
  = (Report
       {| success := false;
          partialResults := Some true;
          results :=
            [ {| url := "https://home.example";
                 feeds := [MoreFixtures.homeFeed; MoreFixtures.blogFeed];
                 error := None |};
              {| url := "https://broken.example"; feeds := [];
                 error := Some "Maximum call stack size exceeded" |} ] |},
     2%Z).
Proof. vm_compute. reflexivity. Qed.

Example test_main_refused_timeout :
  main MoreFixtures.pages MoreFixtures.sectionSite
    ["--timeout"; "4294967296"; "https://home.example"]
  = (Nothing, 2%Z).
Proof. vm_compute. reflexivity. Qed.
